(** * Render service (server.js): shallow embedding and verified properties

    The development follows the layout of [src/server.js]:

    - JavaScript values as they arrive from [express.json()] (type [json]),
      together with the coercions the code applies to them ([||], [??],
      [String], [Number], [Boolean], [JSON.stringify]); [String] and
      [Number] throw on some objects, and every function that calls them
      returns a result or an exception (type [exc]);
    - [SimpleCache], the TTL cache built on an insertion-ordered [Map];
    - [swapImageExtension] / [fetchImageWithFallback];
    - [mapWithConcurrency] as a transition system over promise completions;
    - [composePng] / [composeGif] over a canvas that records its drawing
      commands;
    - [stableHashPayload];
    - the [POST /jobs] handler and its background task as a transition
      system over the job registry, the in-flight table and the names of
      the files of the output directory, with the render semaphore
      ([acquire] / [release]); the number of permits and the limits of
      the bounded maps, read from the environment, may be zero or negative,
      and the number of permits need not be whole;
    - the middleware [auth], and [parseDataUrl] / [fetchBuffer] over the
      buffer cache.

    Definitions come first, theorems afterwards. *)

From Stdlib Require Import ZArith String Ascii List DecimalString Lia.
From stdpp Require Import gmap strings list.

Open Scope Z_scope.
Set Warnings "-register-all".

(* ===================================================================== *)
(** * Part I. Definitions                                                 *)
(* ===================================================================== *)

(** ** JavaScript values *)

(** A value produced by [JSON.parse].  Numbers are integers: every number
    the service interprets is a pixel count, a frame count or a number of
    milliseconds.  An object lists its properties in enumeration order and
    has no duplicate keys. *)
Inductive json : Type :=
| JNull
| JBool (b : bool)
| JNum (z : Z)
| JStr (s : string)
| JArr (items : list json)
| JObj (props : list (string * json)).

(** A JavaScript value that may be [undefined] is an [option json]. *)
Abbreviation jsval := (option json).
Abbreviation undefined := (@None json).

(** The result of [Number(...)]: a finite number, an infinity or [NaN]. *)
Inductive number : Type :=
| NaN
| Infinity (negative : bool)
| Fin (z : Z).

(** A number that need not be whole, as [Number(...)] gives for a text of
    the environment: [NaN], an infinity, or the fraction [num / den]. *)
Inductive fraction : Type :=
| FNaN
| FInfinity (negative : bool)
| Frac (num : Z) (den : positive).

(** [n < x] for a whole number [n]. *)
Definition lt_fraction (n : Z) (x : fraction) : bool :=
  match x with
  | FNaN => false
  | FInfinity negative => negb negative
  | Frac num den => n * Z.pos den <? num
  end.

(** Exceptions: a computation either returns or throws an error message. *)
Inductive exc (A : Type) : Type :=
| Ret (a : A)
| Throw (message : string).
Arguments Ret {A} a.
Arguments Throw {A} message.

Definition exc_bind {A B} (m : exc A) (f : A -> exc B) : exc B :=
  match m with
  | Ret a => f a
  | Throw e => Throw e
  end.

Notation "'do' x <- m ; k" := (exc_bind m (fun x => k))
  (at level 10, x name, m at level 100, k at level 200).

Fixpoint exc_map {A B} (f : A -> exc B) (l : list A) : exc (list B) :=
  match l with
  | [] => Ret []
  | a :: l' => do b <- f a ; do bs <- exc_map f l' ; Ret (b :: bs)
  end.

(** [l.some(f)]: the calls stop at the first one that returns true. *)
Fixpoint exc_some {A} (f : A -> exc bool) (l : list A) : exc bool :=
  match l with
  | [] => Ret false
  | a :: l' => do b <- f a ; if b then Ret true else exc_some f l'
  end.

(** A loop that pushes, for each element, the value [f] gives, if any. *)
Fixpoint exc_omap {A B} (f : A -> exc (option B)) (l : list A) : exc (list B) :=
  match l with
  | [] => Ret []
  | a :: l' =>
      do b <- f a ;
      do bs <- exc_omap f l' ;
      Ret (match b with Some x => x :: bs | None => bs end)
  end.

(** Whether a computation throws. *)
Definition throws {A : Type} (m : exc A) : bool :=
  match m with
  | Ret _ => false
  | Throw _ => true
  end.

(** The builtins and the configuration the program reads from its runtime. *)
Class Runtime : Type := {
  (** [crypto.createHash('sha1').update(s).digest('hex')] *)
  sha1_hex : string -> string;
  (** [Number(s)] on a string (StringToNumber of ECMA-262) *)
  StringToNumber : string -> number;
  MAX_WIDTH : Z;
  MAX_HEIGHT : Z;
  MAX_LAYERS : Z;
  MAX_FRAMES : Z;
  DEFAULT_GIF_DELAY_MS : Z;
  (** The two fan-out limits, [parseInt(...)] of a text of the environment
      or of the numeral 10: whole numbers, zero and the negative ones
      included.  ([parseInt] gives [NaN] for a text that does not start with
      a digit; [active < limit] is false on it, as it is on zero.) *)
  FRAME_FETCH_CONCURRENCY : Z;
  STATIC_FETCH_CONCURRENCY : Z;
  (** [Number(process.env.MAX_CONCURRENCY || 4)], the number of permits of
      the render semaphore: any number. *)
  MAX_CONCURRENCY : fraction;
  BASE_URL : string;
  ASSET_BASE_URL : string
}.

(** *** Keyed collections

    An object and a [Map] with string keys are both lists of entries in
    insertion order, without duplicate keys. *)

(** [o[k]], [m.get(k)] *)
Fixpoint assoc {V} (k : string) (entries : list (string * V)) : option V :=
  match entries with
  | [] => None
  | (k', v) :: rest => if String.eqb k k' then Some v else assoc k rest
  end.

(** [o[k] = v], [m.set(k, v)]: an existing entry keeps its place, a new one
    goes last. *)
Fixpoint assoc_set {V} (k : string) (v : V) (entries : list (string * V))
  : list (string * V) :=
  match entries with
  | [] => [(k, v)]
  | (k', v') :: rest =>
      if String.eqb k k' then (k, v) :: rest else (k', v') :: assoc_set k v rest
  end.

(** [delete o[k]], [m.delete(k)] *)
Fixpoint assoc_delete {V} (k : string) (entries : list (string * V))
  : list (string * V) :=
  match entries with
  | [] => []
  | (k', v') :: rest =>
      if String.eqb k k' then assoc_delete k rest else (k', v') :: assoc_delete k rest
  end.

(** *** Property access *)

(** [v.k] for a value [v] that is neither [null] nor [undefined], and
    [v?.k] for any [v].  None of the property names the program reads is
    defined on a prototype, with one exception handled where it occurs
    ([repeat] on strings). *)
Definition prop (k : string) (v : json) : jsval :=
  match v with
  | JObj props => assoc k props
  | _ => undefined
  end.

(** [v?.k] where [v] may be [undefined]. *)
Definition oprop (k : string) (v : jsval) : jsval :=
  match v with
  | Some w => prop k w
  | None => undefined
  end.

Definition isArray (v : jsval) : bool :=
  match v with
  | Some (JArr _) => true
  | _ => false
  end.

(** *** Coercions *)

Definition truthy (v : json) : bool :=
  match v with
  | JNull => false
  | JBool b => b
  | JNum z => negb (z =? 0)
  | JStr s => negb (String.eqb s "")
  | JArr _ | JObj _ => true
  end.

(** [Boolean(v)], [!!v] *)
Definition Boolean (v : jsval) : bool :=
  match v with
  | Some w => truthy w
  | None => false
  end.

(** [a || b] *)
Definition or_else (a : jsval) (b : json) : json :=
  match a with
  | Some w => if truthy w then w else b
  | None => b
  end.

(** [a ?? b] *)
Definition nullish_else (a : jsval) (b : json) : json :=
  match a with
  | Some JNull | None => b
  | Some w => w
  end.

Definition NumberToString (z : Z) : string :=
  NilZero.string_of_int (Z.to_int z).

(** [Array.prototype.join] with the separator a comma, over a conversion
    [f] of the elements: a [null] element gives the empty string. *)
Section Join.
Variable f : json -> exc string.

Fixpoint join_elements (l : list json) : exc string :=
  match l with
  | [] => Ret ""
  | x :: rest =>
      do sx <- match x with JNull => Ret "" | _ => f x end ;
      match rest with
      | [] => Ret sx
      | _ => do sr <- join_elements rest ; Ret (sx +:+ "," +:+ sr)
      end
  end.

End Join.

(** [String(v)] on a defined value.  An object made by [JSON.parse] is
    turned into a primitive by [Object.prototype.toString], unless it has a
    property named toString of its own: that property is found first, its
    value is not callable, [Object.prototype.valueOf] returns the object
    itself, and the conversion throws a [TypeError].  An array is joined
    with commas. *)
Fixpoint ToString (v : json) : exc string :=
  match v with
  | JNull => Ret "null"
  | JBool true => Ret "true"
  | JBool false => Ret "false"
  | JNum z => Ret (NumberToString z)
  | JStr s => Ret s
  | JArr items => join_elements ToString items
  | JObj props =>
      match assoc "toString" props with
      | Some _ => Throw "TypeError"
      | None => Ret "[object Object]"
      end
  end.

(** [String(v)] *)
Definition String_ (v : jsval) : exc string :=
  match v with
  | Some w => ToString w
  | None => Ret "undefined"
  end.

(** [Number(v)] on a defined value; an array or an object is first turned
    into the string [String(v)] gives, and throws when that throws. *)
Definition ToNumber `{Runtime} (v : json) : exc number :=
  match v with
  | JNull => Ret (Fin 0)
  | JBool true => Ret (Fin 1)
  | JBool false => Ret (Fin 0)
  | JNum z => Ret (Fin z)
  | JStr s => Ret (StringToNumber s)
  | JArr _ | JObj _ => do s <- ToString v ; Ret (StringToNumber s)
  end.

(** [Number(a || b)] where [b] is already a number. *)
Definition Number_or `{Runtime} (a : jsval) (b : number) : exc number :=
  match a with
  | Some w => if truthy w then ToNumber w else Ret b
  | None => Ret b
  end.

(** The values on which [String] and [Number] throw: an object with a
    property named toString, and an array that holds such a value. *)
Fixpoint unprintable (v : json) : bool :=
  match v with
  | JObj props => bool_decide (is_Some (assoc "toString" props))
  | JArr items => existsb unprintable items
  | _ => false
  end.

(** The same for [a || b] with a primitive [b], and for a value that may
    be [undefined]. *)
Definition unprintable_or (a : jsval) : bool :=
  match a with
  | Some w => truthy w && unprintable w
  | None => false
  end.

Definition unprintable_val (a : jsval) : bool :=
  match a with
  | Some w => unprintable w
  | None => false
  end.

(** [x > bound] for a number [x] and a finite [bound]. *)
Definition number_gt (x : number) (bound : Z) : bool :=
  match x with
  | NaN => false
  | Infinity negative => negb negative
  | Fin z => bound <? z
  end.

(** *** [JSON.stringify] *)

Definition quote : ascii := "034"%char.
Definition backslash : ascii := "092"%char.

Definition hex_digit (n : nat) : ascii :=
  match n with
  | 0 => "0" | 1 => "1" | 2 => "2" | 3 => "3" | 4 => "4" | 5 => "5"
  | 6 => "6" | 7 => "7" | 8 => "8" | 9 => "9" | 10 => "a" | 11 => "b"
  | 12 => "c" | 13 => "d" | 14 => "e" | _ => "f"
  end%nat%char.

Definition escape_char (c : ascii) : string :=
  let n := nat_of_ascii c in
  if Ascii.eqb c quote then String backslash (String quote "")
  else if Ascii.eqb c backslash then String backslash (String backslash "")
  else if (n <? 32)%nat then
    match n with
    | 8 => String backslash "b"
    | 9 => String backslash "t"
    | 10 => String backslash "n"
    | 12 => String backslash "f"
    | 13 => String backslash "r"
    | _ => String backslash ("u00" +:+
             String (hex_digit (n / 16)) (String (hex_digit (n mod 16)) ""))
    end%nat
  else String c "".

Fixpoint escape (s : string) : string :=
  match s with
  | EmptyString => ""
  | String c rest => escape_char c +:+ escape rest
  end.

Definition quoted (s : string) : string :=
  String quote (escape s +:+ String quote "").

Fixpoint stringify (v : json) : string :=
  match v with
  | JNull => "null"
  | JBool true => "true"
  | JBool false => "false"
  | JNum z => NumberToString z
  | JStr s => quoted s
  | JArr items =>
      "[" +:+
      (fix elems (l : list json) : string :=
         match l with
         | [] => ""
         | x :: rest =>
             match rest with
             | [] => stringify x
             | _ => stringify x +:+ "," +:+ elems rest
             end
         end) items +:+ "]"
  | JObj props =>
      "{" +:+
      (fix members (l : list (string * json)) : string :=
         match l with
         | [] => ""
         | (k, x) :: rest =>
             let m := quoted k +:+ ":" +:+ stringify x in
             match rest with
             | [] => m
             | _ => m +:+ "," +:+ members rest
             end
         end) props +:+ "}"
  end.

(** [JSON.stringify] writes a number that is not finite as [null]. *)
Definition number_json (n : number) : json :=
  match n with
  | Fin z => JNum z
  | _ => JNull
  end.

(** A property whose value is [undefined] is left out by [JSON.stringify]. *)
Definition field (k : string) (v : jsval) : list (string * json) :=
  match v with
  | Some w => [(k, w)]
  | None => []
  end.

(** ** [SimpleCache] *)

Module SimpleCache.

Record entry (V : Type) : Type := { value : V; expiresAt : Z }.
Arguments value {V} _.
Arguments expiresAt {V} _.

(** [this.max] and [this.map]; the [Map] keeps its entries in insertion
    order. *)
Record t (V : Type) : Type := { max : Z; map : list (string * entry V) }.
Arguments max {V} _.
Arguments map {V} _.

(** [new SimpleCache(max)] *)
Definition new {V} (max : Z) : t V := {| max := max; map := [] |}.

(** [this.map.size] *)
Definition size {V} (c : t V) : Z := Z.of_nat (length (map c)).

(** [this.map.keys().next().value] *)
Definition oldest {V} (c : t V) : option string :=
  match map c with
  | [] => None
  | (k, _) :: _ => Some k
  end.

(** [get(key)] when [Date.now()] is [now]: the value read, or [None] for
    [undefined], and the cache afterwards. *)
Definition get {V} (key : string) (now : Z) (c : t V) : option V * t V :=
  match assoc key (map c) with
  | None => (None, c)
  | Some e =>
      if negb (expiresAt e =? 0) && (expiresAt e <? now)
      then (None, {| max := max c; map := assoc_delete key (map c) |})
      else (Some (value e), c)
  end.

(** [set(key, value, ttlMs)] when [Date.now()] is [now]. *)
Definition set {V} (key : string) (v : V) (ttlMs : Z) (now : Z) (c : t V) : t V :=
  let m :=
    if max c <=? size c then
      match oldest c with
      | Some k => assoc_delete k (map c)
      | None => map c
      end
    else map c in
  let e := {| value := v; expiresAt := if ttlMs =? 0 then 0 else now + ttlMs |} in
  {| max := max c; map := assoc_set key e m |}.

(** The bound on the number of entries. *)
Definition bounded {V} (c : t V) : Prop := size c <= max c.

End SimpleCache.

(** A cache of capacity two that is full: the first entry expires at time
    60000, the second never. *)
Definition example_cache : SimpleCache.t string :=
  {| SimpleCache.max := 2;
     SimpleCache.map :=
       [("buf:a", {| SimpleCache.value := "A"; SimpleCache.expiresAt := 60000 |});
        ("buf:b", {| SimpleCache.value := "B"; SimpleCache.expiresAt := 0 |})] |}.

(** ** [swapImageExtension] and [fetchImageWithFallback] *)

(** The bytes of a response body, and a decoded bitmap. *)
Definition Buffer : Type := string.
Inductive Image : Type := Bitmap (data : string).

(** Case folding of the characters a regular expression with flag [i]
    compares; a string is a sequence of characters below 256. *)
Definition upper (c : ascii) : ascii :=
  let n := nat_of_ascii c in
  if ((97 <=? n) && (n <=? 122))%nat then ascii_of_nat (n - 32) else c.

Definition ci_eqb (a b : ascii) : bool := Ascii.eqb (upper a) (upper b).

(** [ci_prefix p s]: what follows [p] in [s], when [s] starts with [p] up
    to case. *)
Fixpoint ci_prefix (p s : string) : option string :=
  match p, s with
  | EmptyString, _ => Some s
  | String a p', String b s' => if ci_eqb a b then ci_prefix p' s' else None
  | String _ _, EmptyString => None
  end.

(** [.] of a regular expression matches every character but a line
    terminator. *)
Definition line_terminator (c : ascii) : bool :=
  Ascii.eqb c "010"%char || Ascii.eqb c "013"%char.

Fixpoint no_line_terminator (s : string) : bool :=
  match s with
  | EmptyString => true
  | String c rest => negb (line_terminator c) && no_line_terminator rest
  end.

(** The tail of the two regular expressions (an optional group made of a
    question mark and any characters, then the end of the input): the end
    of the string, or a question mark and the rest of the line, which must
    be the rest of the string. *)
Definition query_tail (r : string) : bool :=
  match r with
  | EmptyString => true
  | String c q => Ascii.eqb c "?" && no_line_terminator q
  end.

(** [s.replace(re, new + '$1')] for the expression [re] that matches
    [ext] in any case followed by that tail: the replacement at the
    leftmost match, and [None] when [re.test(s)] is false. *)
Fixpoint replace_ext (ext new : string) (s : string) : option string :=
  let here :=
    match ci_prefix ext s with
    | Some r => if query_tail r then Some (new +:+ r) else None
    | None => None
    end in
  match here with
  | Some replaced => Some replaced
  | None =>
      match s with
      | EmptyString => None
      | String c rest => String c <$> replace_ext ext new rest
      end
  end.

Definition swapImageExtension (url : string) : option string :=
  if String.eqb url "" then None
  else match replace_ext ".png" ".gif" url with
       | Some alt => Some alt
       | None => replace_ext ".gif" ".png" url
       end.

(** [fetchImageWithFallback(url)] over a [fetchBuffer] whose outcome for
    each URL is given: the URLs requested, in order, and the outcome. *)
Definition fetchImageWithFallback (fetchBuffer : string -> exc Buffer) (url : string)
  : list string * exc Buffer :=
  match fetchBuffer url with
  | Ret buf => ([url], Ret buf)
  | Throw e =>
      match swapImageExtension url with
      | Some alt => ([url; alt], fetchBuffer alt)
      | None => ([url], Throw e)
      end
  end.

(** [url] reads [stem], then [ext] in any case, then nothing or a query
    string. *)
Definition ends_in (ext url stem query : string) : Prop :=
  exists r, url = stem +:+ r /\ ci_prefix ext r = Some query /\ query_tail query = true.

(** A content delivery network on which every request is answered with
    status 404; [fetchBuffer] then rejects with this message. *)
Definition failing_cdn (url : string) : exc Buffer :=
  Throw ("HTTP 404 for " +:+ url).

(** ** [mapWithConcurrency] *)

(** The variables of one call of [mapWithConcurrency]: the [results]
    array (a hole or [undefined] is [None]), [index], [active], the mapper
    calls that have started and not settled, and whether [resolve(results)]
    has been called.  [reject] is never called. *)
Record pmap_state (B : Type) : Type := {
  results : list (option B);
  index : nat;
  active : Z;
  pending : list nat;
  resolved : bool
}.
Arguments results {B} _.
Arguments index {B} _.
Arguments active {B} _.
Arguments pending {B} _.
Arguments resolved {B} _.

Section MapWithConcurrency.
Context {A B : Type}.
Variable items : list A.
Variable limit : Z.
(** How the promise of [mapper(items[i], i)] settles. *)
Variable mapper : A -> nat -> exc B.

(** What the chain of [then] and [catch] writes into [results[i]]. *)
Definition slot (i : nat) : option B :=
  match items !! i with
  | Some a => match mapper a i with Ret b => Some b | Throw _ => None end
  | None => None
  end.

(** [while (active < limit && index < items.length)]: start the mapper on
    the next item; at most [fuel] iterations. *)
Fixpoint launch (fuel : nat) (st : pmap_state B) : pmap_state B :=
  match fuel with
  | O => st
  | S fuel' =>
      if (active st <? limit) && (index st <? length items)%nat
      then launch fuel'
             {| results := results st;
                index := S (index st);
                active := active st + 1;
                pending := pending st ++ [index st];
                resolved := resolved st |}
      else st
  end.

(** The closure [next]. *)
Definition next (st : pmap_state B) : pmap_state B :=
  if (length items <=? index st)%nat && (active st =? 0) then
    {| results := results st; index := index st; active := active st;
       pending := pending st; resolved := true |}
  else if (length items <=? index st)%nat then st
  else launch (length items - index st) st.

(** The state when [mapWithConcurrency] returns its promise. *)
Definition pmap_start : pmap_state B :=
  next {| results := replicate (length items) None;
          index := 0; active := 0; pending := []; resolved := false |}.

(** The promise of the mapper call on item [i] settles: [results[i]] is
    written, then [active--; next()]. *)
Definition settle (i : nat) (st : pmap_state B) : pmap_state B :=
  next {| results := <[i := slot i]> (results st);
          index := index st;
          active := active st - 1;
          pending := filter (fun j => j <> i) (pending st);
          resolved := resolved st |}.

(** One step of the event loop: one of the pending mapper calls settles. *)
Definition pmap_step (st st' : pmap_state B) : Prop :=
  exists i, i ∈ pending st /\ st' = settle i st.

(** A run in which, at each step, the pending call chosen by the next
    number settles; it stops when no call is pending. *)
Fixpoint pmap_run (choices : list nat) (st : pmap_state B) : pmap_state B :=
  match choices with
  | [] => st
  | c :: rest =>
      match pending st !! (c mod length (pending st))%nat with
      | Some i => pmap_run rest (settle i st)
      | None => st
      end
  end.

(** The variables of a call are consistent: the pending calls are the
    started ones that have not settled, [active] counts them, and
    [results] holds the outcome of every settled call and nothing else. *)
Record pmap_wf (st : pmap_state B) : Prop := {
  wf_index : (index st <= length items)%nat;
  wf_active : active st = Z.of_nat (length (pending st));
  wf_nodup : NoDup (pending st);
  wf_started : forall i, i ∈ pending st -> (i < index st)%nat;
  wf_length : length (results st) = length items;
  wf_results : forall i, (i < length items)%nat ->
    results st !! i =
    Some (if decide ((i < index st)%nat /\ i ∉ pending st)
          then slot i else None)
}.

(** Items not yet settled. *)
Definition remaining (st : pmap_state B) : nat :=
  (length items - index st + length (pending st))%nat.

(** What holds whenever the event loop is idle between two settlements. *)
Definition pmap_inv (st : pmap_state B) : Prop :=
  pmap_wf st /\
  ((index st < length items)%nat -> limit <= active st) /\
  (resolved st = true <-> index st = length items /\ pending st = []).

(** The value of [await mapWithConcurrency(items, limit, mapper)] when the
    mapper calls settle in the order they were started; [None] when the
    promise never settles. *)
Definition mapWithConcurrency : option (list (option B)) :=
  let st := pmap_run (replicate (length items) 0%nat) pmap_start in
  if resolved st then Some (results st) else None.

End MapWithConcurrency.

(** ** [composePng] and [composeGif] *)

(** What the asset layer answers during one composition: [fetchBuffer]
    and [loadImageCached] for a URL that is a string; for a [url] property
    that is not a string the two awaits can only succeed from the caches,
    under the key its string form gives. *)
Record Network : Type := {
  fetchBuffer : string -> exc Buffer;
  loadImageCached : string -> Buffer -> exc Image;
  loadCoerced : json -> exc Image
}.

(** [buf = await fetchImageWithFallback(url); img = await
    loadImageCached(url, buf)] *)
Definition loadImage (net : Network) (url : json) : exc Image :=
  match url with
  | JStr u =>
      do buf <- (fetchImageWithFallback (fetchBuffer net) u).2 ;
      loadImageCached net u buf
  | _ => loadCoerced net url
  end.

(** The calls made on the 2D context, in order, since the canvas was
    created or last cleared. *)
Inductive draw_op : Type :=
| FillRect (fillStyle : json) (w h : json)
| DrawImage (img : Image) (x y w h : json).

(** [{ img, draw }] *)
Record Sprite : Type := { sp_img : Image; sp_draw : json }.

(** [{ x: 0, y: 0, w: width, h: height }] *)
Definition default_draw (width height : json) : json :=
  JObj [("x", JNum 0); ("y", JNum 0); ("w", width); ("h", height)].

(** [ctx.drawImage(img, d.x || 0, d.y || 0, d.w || width, d.h || height)] *)
Definition drawImage (width height : json) (img : Image) (d : json) : draw_op :=
  DrawImage img (or_else (prop "x" d) (JNum 0)) (or_else (prop "y" d) (JNum 0))
            (or_else (prop "w" d) width) (or_else (prop "h" d) height).

(** [if (backgroundHex) { ctx.fillStyle = backgroundHex; ctx.fillRect(0, 0,
    width, height) }] *)
Definition fillBackground (width height backgroundHex : json) : list draw_op :=
  if truthy backgroundHex then [FillRect backgroundHex width height] else [].

(** The mapper of [composePng]. *)
Definition loadLayer (net : Network) (width height : json) (layer : json) : option Sprite :=
  if truthy layer && Boolean (prop "url" layer) then
    match loadImage net (or_else (prop "url" layer) JNull) with
    | Ret img =>
        Some {| sp_img := img;
                sp_draw := or_else (prop "draw" layer) (default_draw width height) |}
    | Throw _ => None
    end
  else None.

(** [for (const it of decoded) { if (!it) continue; ... }] *)
Definition drawDecoded (width height : json) (it : option (option Sprite)) : list draw_op :=
  match it with
  | Some (Some s) => [drawImage width height (sp_img s) (sp_draw s)]
  | _ => []
  end.

(** The canvas handed to [canvas.encode('png')], or [None] when the
    promise never settles.  The mapper catches what loading a layer
    throws. *)
Definition composePng `{Runtime} (net : Network) (width height : json)
    (layers : list json) (backgroundHex : json) : option (list draw_op) :=
  let canvas := fillBackground width height backgroundHex in
  decoded ← mapWithConcurrency layers STATIC_FETCH_CONCURRENCY
               (fun layer _ => Ret (loadLayer net width height layer)) ;
  Some (canvas ++ flat_map (drawDecoded width height) decoded).

(** An entry of [decodedLayers]. *)
Inductive DecodedLayer : Type :=
| Static (s : Sprite)
| Frames (frames : list Sprite).

(** The mapper of [composeGif] on the frames of [layer]. *)
Definition loadFrame (net : Network) (width height : json) (layer fr : json) : option Sprite :=
  if Boolean (prop "url" fr) then
    match loadImage net (or_else (prop "url" fr) JNull) with
    | Ret img =>
        Some {| sp_img := img;
                sp_draw := or_else (prop "draw" fr)
                             (or_else (prop "draw" layer) (default_draw width height)) |}
    | Throw _ => None
    end
  else None.

(** [frames.filter(Boolean)] *)
Definition filterBoolean (frames : list (option (option Sprite))) : list Sprite :=
  omap (fun it => match it with Some (Some s) => Some s | _ => None end) frames.

(** [v === s] for a string literal [s]. *)
Definition strict_eq_string (v : jsval) (s : string) : bool :=
  match v with
  | Some (JStr t) => String.eqb t s
  | _ => false
  end.

(** [layer.type === 'pet_gif_frames' && Array.isArray(layer.frames) &&
    layer.frames.length > 0]: the frames of an animated layer. *)
Definition animatedFrames (layer : json) : option (list json) :=
  if strict_eq_string (prop "type" layer) "pet_gif_frames" then
    match prop "frames" layer with
    | Some (JArr (fr :: frs)) => Some (fr :: frs)
    | _ => None
    end
  else None.

(** The body of [for (const layer of layers)]: the entry pushed on
    [decodedLayers], if any; the outer [None] when an await never settles. *)
Definition decodeLayer `{Runtime} (net : Network) (width height : json) (layer : json)
  : option (option DecodedLayer) :=
  if negb (truthy layer) then Some None
  else
    match animatedFrames layer with
    | Some frs =>
        frames ← mapWithConcurrency frs FRAME_FETCH_CONCURRENCY
                    (fun fr _ => Ret (loadFrame net width height layer fr)) ;
        let perFrame := filterBoolean frames in
        match perFrame with
        | [] => Some None
        | _ => Some (Some (Frames perFrame))
        end
    | None =>
        if Boolean (prop "url" layer) then
          match loadImage net (or_else (prop "url" layer) JNull) with
          | Ret img =>
              Some (Some (Static
                {| sp_img := img;
                   sp_draw := or_else (prop "draw" layer) (default_draw width height) |}))
          | Throw _ => Some None
          end
        else Some None
    end.

(** [maxFrames = Math.max(maxFrames, perFrame.length)] *)
Definition frameCount (l : DecodedLayer) : nat :=
  match l with
  | Static _ => 0
  | Frames frames => length frames
  end.

(** The loop over [layers], with its two variables. *)
Fixpoint decodeLayers `{Runtime} (net : Network) (width height : json) (layers : list json)
    (decodedLayers : list DecodedLayer) (maxFrames : nat)
  : option (list DecodedLayer * nat) :=
  match layers with
  | [] => Some (decodedLayers, maxFrames)
  | layer :: rest =>
      entry ← decodeLayer net width height layer;
      match entry with
      | Some l =>
          decodeLayers net width height rest (decodedLayers ++ [l])
                       (Nat.max maxFrames (frameCount l))
      | None => decodeLayers net width height rest decodedLayers maxFrames
      end
  end.

(** The body of [for (const l of decodedLayers)] in frame [i]. *)
Definition drawLayer (width height : json) (i : nat) (l : DecodedLayer) : list draw_op :=
  match l with
  | Static s => [drawImage width height (sp_img s) (sp_draw s)]
  | Frames frames =>
      match frames !! (i mod length frames)%nat with
      | Some f =>
          [drawImage width height (sp_img f)
             (or_else (Some (sp_draw f)) (default_draw width height))]
      | None => []
      end
  end.

(** The encoder: its settings and the pixel buffers given to [addFrame],
    each the content of the canvas at that moment. *)
Record GifEncoder : Type := {
  g_width : json;
  g_height : json;
  g_delay : number;
  g_repeat : number;
  g_quality : number;
  g_transparent : option number;
  g_frames : list (list draw_op)
}.

(** [for (let i = 0; i < maxFrames; i++)], from iteration [i] on, with
    [todo] iterations left; [canvas] is what the canvas holds when the
    iteration starts. *)
Fixpoint frameLoop (width height backgroundHex : json) (decodedLayers : list DecodedLayer)
    (todo i : nat) (canvas : list draw_op) (frames : list (list draw_op))
  : list (list draw_op) :=
  match todo with
  | O => frames
  | S todo' =>
      let canvas1 := canvas ++ fillBackground width height backgroundHex in
      let canvas2 := canvas1 ++ flat_map (drawLayer width height i) decodedLayers in
      (* encoder.addFrame(rgba); ctx.clearRect(0, 0, width, height) *)
      frameLoop width height backgroundHex decodedLayers todo' (S i) []
                (frames ++ [canvas2])
  end.

Definition is_hex_digit (c : ascii) : option Z :=
  let n := Z.of_nat (nat_of_ascii c) in
  if (48 <=? n) && (n <=? 57) then Some (n - 48)
  else if (97 <=? n) && (n <=? 102) then Some (n - 87)
  else if (65 <=? n) && (n <=? 70) then Some (n - 55)
  else None.

Fixpoint hex_digits (acc : option Z) (s : string) : option Z :=
  match s with
  | EmptyString => acc
  | String c rest =>
      match is_hex_digit c with
      | Some d => hex_digits (Some (16 * default 0 acc + d)) rest
      | None => acc
      end
  end.

(** White space that [parseInt] skips, among the characters below 256. *)
Definition is_white_space (c : ascii) : bool :=
  let n := nat_of_ascii c in
  ((9 <=? n) && (n <=? 13) || (n =? 32) || (n =? 160))%nat.

Fixpoint skip_white_space (s : string) : string :=
  match s with
  | String c rest => if is_white_space c then skip_white_space rest else s
  | EmptyString => s
  end.

(** [parseInt(s, 16)] *)
Definition parseInt16 (s : string) : number :=
  let s1 := skip_white_space s in
  let '(negative, s2) :=
    match s1 with
    | String "-" rest => (true, rest)
    | String "+" rest => (false, rest)
    | _ => (false, s1)
    end in
  let digits :=
    match s2 with
    | String "0" (String "x" rest) | String "0" (String "X" rest) => rest
    | _ => s2
    end in
  match hex_digits None digits with
  | Some z => Fin (if negative then - z else z)
  | None => NaN
  end.

(** [s.replace('#', '')] *)
Fixpoint remove_hash (s : string) : string :=
  match s with
  | EmptyString => ""
  | String c rest => if Ascii.eqb c "#" then rest else String c (remove_hash rest)
  end.

(** What [composeGif] resolves with. *)
Inductive artifact : Type :=
| PngBuffer (canvas : list draw_op)
| GifBuffer (encoder : GifEncoder).

Record Composed : Type := { c_format : string; c_buffer : artifact }.

(** The settings [composeGif] reads from [options] (lines 248-254), in the
    order of the program; each conversion may throw.  On a string,
    [options.repeat] is [String.prototype.repeat], a function, whose
    [Number(...)] is [NaN]. *)
Record GifSettings : Type := {
  s_delayMs : number;
  s_repeat : number;
  s_quality : number;
  s_wantTransparent : bool;
  s_transparentInt : number;
  s_backgroundHex : string
}.

Definition gifSettings `{Runtime} (options : json) : exc GifSettings :=
  do delayMs <-
    Number_or (if truthy options then prop "delayMs" options else Some options)
              (Fin DEFAULT_GIF_DELAY_MS) ;
  do repeat <-
    match options with
    | JStr _ => Ret NaN
    | _ => ToNumber (nullish_else (prop "repeat" options) (JNum 0))
    end ;
  do quality <- ToNumber (or_else (prop "quality" options) (JNum 10)) ;
  do transparentHex <-
    ToString (or_else (prop "transparentColorHex" options) (JStr "#ff00ff")) ;
  do backgroundHex <-
    ToString (or_else (prop "backgroundColorHex" options) (JStr "")) ;
  Ret {| s_delayMs := delayMs;
         s_repeat := repeat;
         s_quality := quality;
         s_wantTransparent := Boolean (prop "transparent" options);
         s_transparentInt := parseInt16 (remove_hash transparentHex);
         s_backgroundHex := backgroundHex |}.

(** [composeGif(width, height, layers, options)]: [None] when an await
    never settles, an exception when reading the settings throws. *)
Definition composeGif `{Runtime} (net : Network) (width height : json)
    (layers : list json) (options : json) : option (exc Composed) :=
  match gifSettings options with
  | Throw e => Some (Throw e)
  | Ret settings =>
      let backgroundHex := JStr (s_backgroundHex settings) in
      '(decodedLayers, maxFrames) ← decodeLayers net width height layers [] 0%nat;
      if (maxFrames =? 0)%nat then
        canvas ← composePng net width height layers backgroundHex;
        Some (Ret {| c_format := "png"; c_buffer := PngBuffer canvas |})
      else
        Some (Ret
          {| c_format := "gif";
             c_buffer := GifBuffer
               {| g_width := width;
                  g_height := height;
                  g_delay := s_delayMs settings;
                  g_repeat := s_repeat settings;
                  g_quality := s_quality settings;
                  g_transparent :=
                    match s_transparentInt settings with
                    | Fin z => if s_wantTransparent settings then Some (Fin z) else None
                    | _ => None
                    end;
                  g_frames := frameLoop width height backgroundHex decodedLayers
                                        maxFrames 0%nat [] [] |} |})
  end.

(** The entry a layer contributes to [decodedLayers], written with the
    value of the bounded map in place of the call. *)
Definition resolveLayer (net : Network) (width height : json) (layer : json)
  : option DecodedLayer :=
  if negb (truthy layer) then None
  else
    match animatedFrames layer with
    | Some frs =>
        match omap (loadFrame net width height layer) frs with
        | [] => None
        | perFrame => Some (Frames perFrame)
        end
    | None =>
        if Boolean (prop "url" layer) then
          match loadImage net (or_else (prop "url" layer) JNull) with
          | Ret img =>
              Some (Static
                {| sp_img := img;
                   sp_draw := or_else (prop "draw" layer) (default_draw width height) |})
          | Throw _ => None
          end
        else None
    end.

(** The largest number of frames among decoded layers. *)
Definition maxFrameCount (decoded : list DecodedLayer) : nat :=
  foldr (fun l acc => Nat.max (frameCount l) acc) 0%nat decoded.

(** A mapper that is rejected on the item b and fulfilled on the others. *)
Definition example_mapper (a : string) (i : nat) : exc string :=
  if String.eqb a "b" then Throw "boom" else Ret (a +:+ "!").

(** ** [stableHashPayload] *)

Record Rect : Type := { rx : number; ry : number; rw : number; rh : number }.

Record NormFrame : Type := { nf_url : string; nf_draw : Rect }.

Record NormLayer : Type := {
  nl_type : string;
  nl_key : string;
  nl_url : option string;
  nl_draw : Rect;
  nl_frames : option (list NormFrame)
}.

Record NormGifOptions : Type := {
  ng_delayMs : number;
  ng_repeat : number;
  ng_quality : number;
  ng_transparent : bool;
  ng_transparentColorHex : string;
  ng_backgroundColorHex : string
}.

(** The object handed to [JSON.stringify]; [size.w], [size.h] and [format]
    are copied from the payload without coercion. *)
Record Normalized : Type := {
  n_size_w : json;
  n_size_h : json;
  n_layers : list NormLayer;
  n_format : json;
  n_gifOptions : option NormGifOptions
}.

(** [fr => ({ url: String(fr.url || ''), draw: {...} })]; reading [fr.url]
    throws when [fr] is [null]. *)
Definition normalize_frame `{Runtime} (base : Rect) (fr : json) : exc NormFrame :=
  match fr with
  | JNull => Throw "TypeError"
  | _ =>
      let d := prop "draw" fr in
      do url <- ToString (or_else (prop "url" fr) (JStr "")) ;
      do x <- Number_or (oprop "x" d) (rx base) ;
      do y <- Number_or (oprop "y" d) (ry base) ;
      do w <- Number_or (oprop "w" d) (rw base) ;
      do h <- Number_or (oprop "h" d) (rh base) ;
      Ret {| nf_url := url; nf_draw := {| rx := x; ry := y; rw := w; rh := h |} |}
  end.

(** The callback of [(payload.layers || []).map(l => ...)]: the object
    [base] is built first, property by property, then the frames. *)
Definition normalize_layer `{Runtime} (size_w size_h : json) (l : json) : exc NormLayer :=
  match l with
  | JNull => Throw "TypeError"
  | _ =>
      let d := prop "draw" l in
      do type <- ToString (or_else (prop "type" l) (JStr "")) ;
      do key <- ToString (or_else (prop "key" l) (JStr "")) ;
      do url <-
        (if Boolean (prop "url" l)
         then do u <- String_ (prop "url" l) ; Ret (Some u)
         else Ret None) ;
      do x <- ToNumber (or_else (oprop "x" d) (JNum 0)) ;
      do y <- ToNumber (or_else (oprop "y" d) (JNum 0)) ;
      do w <- ToNumber (or_else (oprop "w" d) size_w) ;
      do h <- ToNumber (or_else (oprop "h" d) size_h) ;
      let base_draw := {| rx := x; ry := y; rw := w; rh := h |} in
      do type' <- String_ (prop "type" l) ;
      do frames <-
        (if String.eqb type' "pet_gif_frames" then
           match prop "frames" l with
           | Some (JArr frs) =>
               do fs <- exc_map (normalize_frame base_draw) frs ; Ret (Some fs)
           | _ => Ret None
           end
         else Ret None) ;
      Ret {| nl_type := type;
             nl_key := key;
             nl_url := url;
             nl_draw := base_draw;
             nl_frames := frames |}
  end.

(** [payload.gifOptions ? {...} : undefined].  On a string,
    [gifOptions.repeat] is [String.prototype.repeat], a function, whose
    [Number(...)] is [NaN]. *)
Definition normalize_gifOptions `{Runtime} (go : jsval) : exc (option NormGifOptions) :=
  match go with
  | Some g =>
      if truthy g then
        do delayMs <- ToNumber (or_else (prop "delayMs" g) (JNum 0)) ;
        do repeat <-
          match g with
          | JStr _ => Ret NaN
          | _ => ToNumber (nullish_else (prop "repeat" g) (JNum 0))
          end ;
        do quality <- ToNumber (or_else (prop "quality" g) (JNum 0)) ;
        do transparentColorHex <-
          ToString (or_else (prop "transparentColorHex" g) (JStr "")) ;
        do backgroundColorHex <-
          ToString (or_else (prop "backgroundColorHex" g) (JStr "")) ;
        Ret (Some {| ng_delayMs := delayMs;
                     ng_repeat := repeat;
                     ng_quality := quality;
                     ng_transparent := truthy (or_else (prop "transparent" g) (JBool false));
                     ng_transparentColorHex := transparentColorHex;
                     ng_backgroundColorHex := backgroundColorHex |})
      else Ret None
  | None => Ret None
  end.

(** Lines 336-370 up to the call of [JSON.stringify]. *)
Definition normalize `{Runtime} (payload : json) : exc Normalized :=
  let size := prop "size" payload in
  let size_w := or_else (oprop "width" size) (JNum 300) in
  let size_h := or_else (oprop "height" size) (JNum 300) in
  match payload with
  | JNull => Throw "TypeError"
  | _ =>
      do layers <-
        match or_else (prop "layers" payload) (JArr []) with
        | JArr ls => exc_map (normalize_layer size_w size_h) ls
        | _ => Throw "TypeError"
        end ;
      do gifOptions <- normalize_gifOptions (prop "gifOptions" payload) ;
      Ret {| n_size_w := size_w;
             n_size_h := size_h;
             n_layers := layers;
             n_format := or_else (prop "format" payload) (JStr "png");
             n_gifOptions := gifOptions |}
  end.

(** The normalized object as [JSON.stringify] sees it: properties in the
    order of the object literals, [undefined] properties left out. *)
Definition rect_json (r : Rect) : json :=
  JObj [("x", number_json (rx r)); ("y", number_json (ry r));
        ("w", number_json (rw r)); ("h", number_json (rh r))].

Definition frame_json (f : NormFrame) : json :=
  JObj [("url", JStr (nf_url f)); ("draw", rect_json (nf_draw f))].

Definition layer_json (l : NormLayer) : json :=
  JObj ([("type", JStr (nl_type l)); ("key", JStr (nl_key l))]
        ++ field "url" (JStr <$> nl_url l)
        ++ [("draw", rect_json (nl_draw l))]
        ++ field "frames" ((fun fs => JArr (frame_json <$> fs)) <$> nl_frames l)).

Definition gifOptions_json (g : NormGifOptions) : json :=
  JObj [("delayMs", number_json (ng_delayMs g));
        ("repeat", number_json (ng_repeat g));
        ("quality", number_json (ng_quality g));
        ("transparent", JBool (ng_transparent g));
        ("transparentColorHex", JStr (ng_transparentColorHex g));
        ("backgroundColorHex", JStr (ng_backgroundColorHex g))].

Definition normalized_json (n : Normalized) : json :=
  JObj ([("size", JObj [("w", n_size_w n); ("h", n_size_h n)]);
         ("layers", JArr (layer_json <$> n_layers n));
         ("format", n_format n)]
        ++ field "gifOptions" (gifOptions_json <$> n_gifOptions n)).

Definition stableHashPayload `{Runtime} (payload : json) : exc string :=
  do n <- normalize payload ;
  Ret (sha1_hex (stringify (normalized_json n))).

(** *** Payloads that differ only in what the fingerprint does not read *)

(** How a reader looks at a value: it copies it as it is ([Raw]); it
    tests it for truth and converts it with [String] or [Number]
    ([Coerced]); it reads the listed properties of an object ([Record_]);
    or it reads the elements of an array ([Array_]). *)
Inductive shape : Type :=
| Raw
| Coerced
| Record_ (fields : list (string * shape))
| Array_ (elem : shape).

Fixpoint shape_of (k : string) (fs : list (string * shape)) : option shape :=
  match fs with
  | [] => None
  | (k', sh) :: rest => if String.eqb k k' then Some sh else shape_of k rest
  end.

Definition rect_shape : shape :=
  Record_ [("x", Coerced); ("y", Coerced); ("w", Coerced); ("h", Coerced)].

Definition frame_shape : shape :=
  Record_ [("url", Coerced); ("draw", rect_shape)].

Definition layer_shape : shape :=
  Record_ [("type", Coerced); ("key", Coerced); ("url", Coerced);
           ("draw", rect_shape); ("frames", Array_ frame_shape)].

Definition gifOptions_shape : shape :=
  Record_ [("delayMs", Coerced); ("repeat", Coerced); ("quality", Coerced);
           ("transparent", Coerced); ("transparentColorHex", Coerced);
           ("backgroundColorHex", Coerced)].

(** The properties [stableHashPayload] reads; [guild], [user] and every
    other property are absent from it.  [size.width], [size.height] and
    [format] go into the text that is hashed as they are. *)
Definition payload_shape : shape :=
  Record_ [("size", Record_ [("width", Raw); ("height", Raw)]);
           ("layers", Array_ layer_shape);
           ("format", Raw);
           ("gifOptions", gifOptions_shape)].

(** [differ_only sh a b]: [b] is obtained from [a], any number of times
    and in either direction, by

    - reordering the keys of an object that is not copied as it is;
    - adding, changing or removing a property that [sh] does not list, or
      doing any of this inside a listed property or an array element;
    - changing the elements of an array found where an object is read, or
      the properties of an object found where an array is read;
    - in a value that is only tested and converted: adding, changing or
      removing a property other than toString, changing the value of
      toString, or doing any of this inside an array element. *)
Inductive differ_only : shape -> json -> json -> Prop :=
| differ_same sh a :
    differ_only sh a a
| differ_flip sh a b :
    differ_only sh a b -> differ_only sh b a
| differ_chain sh a b c :
    differ_only sh a b -> differ_only sh b c -> differ_only sh a c
| differ_reorder sh o o' :
    sh <> Raw -> NoDup (fst <$> o) -> Permutation o o' ->
    differ_only sh (JObj o) (JObj o')
| differ_set_unread fs k v o :
    shape_of k fs = None ->
    differ_only (Record_ fs) (JObj o) (JObj (assoc_set k v o))
| differ_delete_unread fs k o :
    shape_of k fs = None ->
    differ_only (Record_ fs) (JObj o) (JObj (assoc_delete k o))
| differ_inside fs k sh v v' o :
    shape_of k fs = Some sh -> assoc k o = Some v -> differ_only sh v v' ->
    differ_only (Record_ fs) (JObj o) (JObj (assoc_set k v' o))
| differ_element sh l1 v v' l2 :
    differ_only sh v v' ->
    differ_only (Array_ sh) (JArr (l1 ++ v :: l2)) (JArr (l1 ++ v' :: l2))
| differ_elements_unread fs l l' :
    differ_only (Record_ fs) (JArr l) (JArr l')
| differ_properties_unread sh o o' :
    differ_only (Array_ sh) (JObj o) (JObj o')
| differ_coerced_set k v o :
    k <> "toString" ->
    differ_only Coerced (JObj o) (JObj (assoc_set k v o))
| differ_coerced_delete k o :
    k <> "toString" ->
    differ_only Coerced (JObj o) (JObj (assoc_delete k o))
| differ_coerced_toString v o :
    is_Some (assoc "toString" o) ->
    differ_only Coerced (JObj o) (JObj (assoc_set "toString" v o))
| differ_coerced_element l1 v v' l2 :
    differ_only Coerced v v' ->
    differ_only Coerced (JArr (l1 ++ v :: l2)) (JArr (l1 ++ v' :: l2)).

(** What a test for truth and a conversion can tell of a value: of an
    object, whether it has a property named toString. *)
Fixpoint coerced_view (v : json) : json :=
  match v with
  | JObj o =>
      JObj (match assoc "toString" o with
            | Some _ => [("toString", JNull)]
            | None => []
            end)
  | JArr l => JArr (map coerced_view l)
  | _ => v
  end.

(** The part of a value that a reader of shape [sh] looks at. *)
Fixpoint view (sh : shape) (v : json) : json :=
  match sh with
  | Raw => v
  | Coerced => coerced_view v
  | Record_ fs =>
      match v with
      | JObj o =>
          JObj (flat_map (fun '(k, s) =>
                            match assoc k o with
                            | Some x => [(k, view s x)]
                            | None => []
                            end) fs)
      | JArr _ => JArr []
      | _ => v
      end
  | Array_ e =>
      match v with
      | JArr l => JArr (map (view e) l)
      | JObj _ => JObj []
      | _ => v
      end
  end.

(** The properties kept by the view of an object. *)
Definition view_fields (o : list (string * json)) (fs : list (string * shape)) :=
  flat_map (fun '(k, s) =>
              match assoc k o with
              | Some x => [(k, view s x)]
              | None => []
              end) fs.

(** A shape lists each property once, at every level. *)
Fixpoint wf_shape (sh : shape) : bool :=
  match sh with
  | Raw | Coerced => true
  | Record_ fs =>
      (fix go (l : list (string * shape)) : bool :=
         match l with
         | [] => true
         | (k, s) :: rest =>
             match shape_of k rest with
             | None => wf_shape s && go rest
             | Some _ => false
             end
         end) fs
  | Array_ e => wf_shape e
  end.

(** ** [slugify] and [resolveCdnUrlByLayer] *)

(** [toLowerCase()], as far as a comparison with, or a filter on, the
    letters a to z can tell. *)
Definition lower (c : ascii) : ascii :=
  let n := nat_of_ascii c in
  if ((65 <=? n) && (n <=? 90))%nat then ascii_of_nat (n + 32) else c.

Fixpoint toLowerCase (s : string) : string :=
  match s with
  | EmptyString => ""
  | String c rest => String (lower c) (toLowerCase rest)
  end.

Definition is_slug_char (c : ascii) : bool :=
  let n := nat_of_ascii c in
  ((97 <=? n) && (n <=? 122) || (48 <=? n) && (n <=? 57))%nat.

(** [replace(/[^a-z0-9]+/g, '-')]; [in_run] tells that the previous
    character was replaced. *)
Fixpoint dash_runs (in_run : bool) (s : string) : string :=
  match s with
  | EmptyString => ""
  | String c rest =>
      if is_slug_char c then String c (dash_runs false rest)
      else if in_run then dash_runs true rest
      else String "-" (dash_runs true rest)
  end.

(** Removal of one trailing dash, half of the last [replace] of
    [slugify]. *)
Fixpoint drop_last_dash (s : string) : string :=
  match s with
  | EmptyString => ""
  | String c EmptyString => if Ascii.eqb c "-" then "" else s
  | String c rest => String c (drop_last_dash rest)
  end.

Definition drop_first_dash (s : string) : string :=
  match s with
  | String c rest => if Ascii.eqb c "-" then rest else s
  | EmptyString => ""
  end.

Fixpoint trim_end (s : string) : string :=
  match s with
  | EmptyString => ""
  | String c rest =>
      match trim_end rest with
      | EmptyString => if is_white_space c then "" else String c ""
      | kept => String c kept
      end
  end.

(** [text.trim().toLowerCase().replace(/[^a-z0-9]+/g, '-')
    .replace(/(^-|-$)/g, '')] *)
Definition slug_of (text : string) : string :=
  let trimmed := trim_end (skip_white_space text) in
  drop_last_dash (drop_first_dash (dash_runs false (toLowerCase trimmed))).

(** [slugify(name)]; [String(name || '')] may throw. *)
Definition slugify (name : jsval) : exc string :=
  do text <- ToString (or_else name (JStr "")) ;
  Ret (slug_of text).

(** [resolveCdnUrlByLayer(layer)]: the key is made into a slug first,
    whatever the type. *)
Definition resolveCdnUrlByLayer `{Runtime} (layer : json) : exc (option string) :=
  do key <- slugify (prop "key" layer) ;
  Ret
    match prop "type" layer with
    | Some (JStr ty) =>
        if String.eqb ty "room-bg" || String.eqb ty "room_bg" || String.eqb ty "roomBg" then
          Some (ASSET_BASE_URL +:+ "/backgrounds/" +:+
                (if String.eqb key "" then "default" else key) +:+ ".png")
        else if String.eqb ty "background" then
          Some (ASSET_BASE_URL +:+ "/backgrounds/default.png")
        else if String.eqb ty "floor" then
          Some (ASSET_BASE_URL +:+ "/floor/" +:+ key +:+ ".png")
        else if String.eqb ty "furniture" then
          Some (ASSET_BASE_URL +:+ "/furniture/" +:+ key +:+ ".png")
        else if String.eqb ty "wallpaper-left" || String.eqb ty "wallpaper_left"
                || String.eqb ty "wallpaperLeft" then
          Some (ASSET_BASE_URL +:+ "/wallpaper/left/" +:+ key +:+ ".png")
        else if String.eqb ty "wallpaper-right" || String.eqb ty "wallpaper_right"
                || String.eqb ty "wallpaperRight" then
          Some (ASSET_BASE_URL +:+ "/wallpaper/right/" +:+ key +:+ ".png")
        else None
    | _ => None
    end.

(** ** [POST /jobs]: validation *)

(** The loop of lines 412-417: [Math.max] of the lengths of the [frames]
    arrays of the layers whose type reads pet_gif_frames.  [String(l?.type)]
    is evaluated for every layer, and may throw. *)
Fixpoint frameCountEstimate (layers : list json) (estimate : Z) : exc Z :=
  match layers with
  | [] => Ret estimate
  | l :: rest =>
      do type <- String_ (prop "type" l) ;
      let estimate' :=
        if String.eqb type "pet_gif_frames" then
          match prop "frames" l with
          | Some (JArr frames) => Z.max estimate (Z.of_nat (length frames))
          | _ => estimate
          end
        else estimate in
      frameCountEstimate rest estimate'
  end.

(** [req.body || {}] *)
Definition request_payload (body : jsval) : json := or_else body (JObj []).

(** The checks of the handler (lines 399-420), in the order of the
    program: the message of the 400 response, or [None] when the payload
    passes; an exception when a conversion throws before a check has
    failed. *)
Definition validate `{Runtime} (payload : json) : exc (option string) :=
  if negb (truthy payload)
     || negb (Boolean (prop "guild" payload))
     || negb (Boolean (prop "user" payload))
     || negb (Boolean (prop "layers" payload))
     || negb (isArray (prop "layers" payload))
  then Ret (Some "Invalid payload")
  else
    do width <- ToNumber (or_else (oprop "width" (prop "size" payload)) (JNum 300)) ;
    do height <- ToNumber (or_else (oprop "height" (prop "size" payload)) (JNum 300)) ;
    if number_gt width MAX_WIDTH || number_gt height MAX_HEIGHT
    then Ret (Some "Size too large")
    else
      match prop "layers" payload with
      | Some (JArr layers) =>
          if MAX_LAYERS <? Z.of_nat (length layers) then Ret (Some "Too many layers")
          else
            do estimate <- frameCountEstimate layers 0 ;
            if MAX_FRAMES <? estimate then Ret (Some "Too many frames")
            else Ret None
      | _ => Ret (Some "Invalid payload")
      end.

(** ** The job registry and the background task *)

(** ['pending'], ['done'], ['error'] *)
Inductive status : Type := SPending | SDone | SError.

(** A value of the [jobs] map. *)
Record job : Type := {
  j_status : status;
  j_url : option string;
  j_format : option string;
  j_error : option string;
  j_createdAt : Z;
  j_finishedAt : option Z;
  j_payload : option json
}.

(** What the closure of [renderPromise] captured. *)
Record render : Type := {
  r_wantsGif : bool;
  r_width : json;
  r_height : json;
  r_layers : list json;
  r_payload : json;
  r_cacheKey : string
}.

(** A [renderPromise]: waiting for a permit of the semaphore, composing,
    at [await fsp.writeFile(outPath, buffer)] with the file opened, or
    settled. *)
Inductive promise : Type :=
| Waiting (r : render)
| Rendering (r : render)
| Writing (r : render) (name : string) (content : artifact)
| Fulfilled (url : string)
| Rejected (message : string).

(** Where the async function of a job is suspended, with the variables it
    still needs: before its first statement, at [await p.catch(...)], or at
    [await renderPromise]. *)
Inductive task : Type :=
| Spawned
| AwaitDedup (p : nat) (payload : json) (wantsGif : bool) (cacheKey : string)
| AwaitRender (p : nat) (payload : json) (cacheKey : string).

(** The state of the process: the two maps, the promises they refer to
    (numbered in order of creation), the suspended tasks, the semaphore,
    and the names of the files that exist in the output directory.  A file
    exists from the moment [fsp.writeFile] has opened it, whatever it holds
    by then, and it stays when the write fails: [fs.existsSync] cannot tell
    a file that is being written from one that is complete. *)
Record system : Type := {
  jobs : gmap string job;
  inFlightByKey : gmap string nat;
  promises : gmap nat promise;
  nextPromise : nat;
  out : gset string;
  tasks : gmap string task;
  activeRenders : Z;
  waitQueue : list nat
}.

Definition initial : system :=
  {| jobs := ∅; inFlightByKey := ∅; promises := ∅; nextPromise := 0;
     out := ∅; tasks := ∅; activeRenders := 0; waitQueue := [] |}.

(** [url.endsWith(suffix)] *)
Fixpoint endsWith (s suffix : string) : bool :=
  String.eqb s suffix ||
  match s with
  | EmptyString => false
  | String _ rest => endsWith rest suffix
  end.

(** [url.endsWith('.gif') ? 'gif' : 'png'] *)
Definition format_of_url (url : string) : string :=
  if endsWith url ".gif" then "gif" else "png".

Definition job_pending (payload : json) (now : Z) : job :=
  {| j_status := SPending; j_url := None; j_format := None; j_error := None;
     j_createdAt := now; j_finishedAt := None; j_payload := Some payload |}.

Definition job_done (url format : string) (createdAt now : Z) (payload : json) : job :=
  {| j_status := SDone; j_url := Some url; j_format := Some format; j_error := None;
     j_createdAt := createdAt; j_finishedAt := Some now; j_payload := Some payload |}.

Definition job_error (message : string) (createdAt now : Z) : job :=
  {| j_status := SError; j_url := None; j_format := None; j_error := Some message;
     j_createdAt := createdAt; j_finishedAt := Some now; j_payload := None |}.

Definition set_job (jobId : string) (j : job) (s : system) : system :=
  {| jobs := <[jobId := j]> (jobs s);
     inFlightByKey := inFlightByKey s; promises := promises s;
     nextPromise := nextPromise s; out := out s;
     tasks := delete jobId (tasks s);
     activeRenders := activeRenders s; waitQueue := waitQueue s |}.

(** The [catch] clause of the task, which ends it; [createdAt] is
    [jobs.get(jobId)?.createdAt || Date.now()]. *)
Definition finish_error (jobId message : string) (now : Z) (s : system) : system :=
  let createdAt :=
    match jobs s !! jobId with
    | Some j => if j_createdAt j =? 0 then now else j_createdAt j
    | None => now
    end in
  set_job jobId (job_error message createdAt now) s.

(** The task ends with [jobs.set(jobId, { status: 'done', ... })]; reading
    [jobs.get(jobId).createdAt] throws when the record is absent. *)
Definition finish_done (jobId url format : string) (now : Z) (payload : json)
    (s : system) : system :=
  match jobs s !! jobId with
  | Some j => set_job jobId (job_done url format (j_createdAt j) now payload) s
  | None => finish_error jobId "TypeError" now s
  end.

(** [String(l.type) === 'pet_gif_frames'] *)
Definition reads_frames (l : json) : exc bool :=
  do type <- String_ (prop "type" l) ;
  Ret (String.eqb type "pet_gif_frames").

(** [wantsGif] (line 434): the layers are looked at only when the format
    does not read gif, and up to the first layer of frames. *)
Definition wantsGif_of (payload : json) (layersIn : list json) : exc bool :=
  do format <- ToString (or_else (prop "format" payload) (JStr "")) ;
  if String.eqb (toLowerCase format) "gif" then Ret true
  else exc_some (fun l => if truthy l then reads_frames l else Ret false) layersIn.

(** [Array.isArray(payload.layers) ? payload.layers : []] *)
Definition layersIn_of (payload : json) : list json :=
  match prop "layers" payload with
  | Some (JArr layers) => layers
  | _ => []
  end.

(** The body of the loop that fills [resolvedLayers]: the layer pushed, if
    any. *)
Definition resolve_layer `{Runtime} (l : json) : exc (option json) :=
  if negb (truthy l) then Ret None
  else
    do frames <- reads_frames l ;
    if frames && isArray (prop "frames" l) then Ret (Some l)
    else
      do directUrl <-
        (if Boolean (prop "url" l)
         then do u <- String_ (prop "url" l) ; Ret (Some u)
         else Ret None) ;
      do url <-
        match directUrl with
        | Some u => if String.eqb u "" then resolveCdnUrlByLayer l else Ret (Some u)
        | None => resolveCdnUrlByLayer l
        end ;
      Ret match url with
          | Some u =>
              if String.eqb u "" then None
              else Some (JObj ([("type", JStr "static"); ("url", JStr u)]
                               ++ field "draw" (prop "draw" l)))
          | None => None
          end.

Definition resolvedLayers_of `{Runtime} (layersIn : list json) : exc (list json) :=
  exc_omap resolve_layer layersIn.

(** [acquire()] by the promise [p]: it takes a permit, or queues. *)
Definition acquire `{Runtime} (p : nat) (r : render) (s : system) : system :=
  if lt_fraction (activeRenders s) MAX_CONCURRENCY then
    {| jobs := jobs s; inFlightByKey := inFlightByKey s;
       promises := <[p := Rendering r]> (promises s);
       nextPromise := nextPromise s; out := out s; tasks := tasks s;
       activeRenders := activeRenders s + 1; waitQueue := waitQueue s |}
  else
    {| jobs := jobs s; inFlightByKey := inFlightByKey s;
       promises := <[p := Waiting r]> (promises s);
       nextPromise := nextPromise s; out := out s; tasks := tasks s;
       activeRenders := activeRenders s; waitQueue := waitQueue s ++ [p] |}.

(** [release()]: the permit is returned and the first waiter tries again. *)
Definition release `{Runtime} (s : system) : system :=
  let active := Z.max 0 (activeRenders s - 1) in
  let s1 :=
    {| jobs := jobs s; inFlightByKey := inFlightByKey s; promises := promises s;
       nextPromise := nextPromise s; out := out s; tasks := tasks s;
       activeRenders := active; waitQueue := tail (waitQueue s) |} in
  match waitQueue s with
  | [] => s1
  | p :: _ =>
      match promises s !! p with
      | Some (Waiting r) => acquire p r s1
      | _ => s1
      end
  end.

(** The part of the task from the comment on resolving layers down to
    [await renderPromise]: the layers are resolved, which may throw; a new
    promise is created, tries to acquire a permit, and is stored in the
    in-flight table. *)
Definition start_render `{Runtime} (jobId : string) (payload : json) (wantsGif : bool)
    (cacheKey : string) (now : Z) (s : system) : system :=
  match resolvedLayers_of (layersIn_of payload) with
  | Throw e => finish_error jobId e now s
  | Ret resolvedLayers =>
      let p := nextPromise s in
      let r := {| r_wantsGif := wantsGif;
                  r_width := or_else (oprop "width" (prop "size" payload)) (JNum 300);
                  r_height := or_else (oprop "height" (prop "size" payload)) (JNum 300);
                  r_layers := resolvedLayers;
                  r_payload := payload;
                  r_cacheKey := cacheKey |} in
      let s1 := acquire p r s in
      {| jobs := jobs s1;
         inFlightByKey := <[cacheKey := p]> (inFlightByKey s1);
         promises := promises s1;
         nextPromise := S p;
         out := out s1;
         tasks := <[jobId := AwaitRender p payload cacheKey]> (tasks s1);
         activeRenders := activeRenders s1; waitQueue := waitQueue s1 |}
  end.

(** The task from its first statement to its first [await], or to its end:
    [mkdir] is the outcome of [ensureDirSync(outDir)]. *)
Definition run_task `{Runtime} (jobId : string) (now : Z) (mkdir : exc unit)
    (s : system) : system :=
  match jobs s !! jobId with
  | Some {| j_payload := Some payload |} =>
      match (do wantsGif <- wantsGif_of payload (layersIn_of payload) ;
             do cacheKey <- stableHashPayload payload ;
             do _ <- mkdir ;
             Ret (wantsGif, cacheKey)) with
      | Throw e => finish_error jobId e now s
      | Ret (wantsGif, cacheKey) =>
          if bool_decide (cacheKey +:+ ".gif" ∈ out s) then
            finish_done jobId (BASE_URL +:+ "/out/" +:+ cacheKey +:+ ".gif") "gif"
                        now payload s
          else if bool_decide (cacheKey +:+ ".png" ∈ out s) then
            finish_done jobId (BASE_URL +:+ "/out/" +:+ cacheKey +:+ ".png") "png"
                        now payload s
          else
            match inFlightByKey s !! cacheKey with
            | Some p =>
                {| jobs := jobs s; inFlightByKey := inFlightByKey s;
                   promises := promises s; nextPromise := nextPromise s;
                   out := out s;
                   tasks := <[jobId := AwaitDedup p payload wantsGif cacheKey]> (tasks s);
                   activeRenders := activeRenders s; waitQueue := waitQueue s |}
            | None => start_render jobId payload wantsGif cacheKey now s
            end
      end
  | _ => finish_error jobId "TypeError" now s
  end.

(** [resolvedLayers.some(l => String(l.type) === 'pet_gif_frames')] *)
Definition hasFrames_of (layers : list json) : exc bool :=
  exc_some reads_frames layers.

(** [payload.backgroundColorHex || (payload.gifOptions &&
    payload.gifOptions.backgroundColorHex) || ''] *)
Definition png_background (payload : json) : json :=
  or_else (Some (or_else (prop "backgroundColorHex" payload)
                   (match prop "gifOptions" payload with
                    | Some g => if truthy g
                                then default JNull (prop "backgroundColorHex" g)
                                else g
                    | None => JNull
                    end)))
          (JStr "").

(** The body of [renderPromise] from [acquire()] to the call of
    [fsp.writeFile]: the name of the file and the buffer to write, an
    exception, or [None] when an await never settles. *)
Definition render_compose `{Runtime} (net : Network) (r : render)
  : option (exc (string * artifact)) :=
  let payload := r_payload r in
  match hasFrames_of (r_layers r) with
  | Throw e => Some (Throw e)
  | Ret hasFrames =>
      if r_wantsGif r && hasFrames then
        composed ← composeGif net (r_width r) (r_height r) (r_layers r)
                     (or_else (prop "gifOptions" payload) (JObj []));
        match composed with
        | Throw e => Some (Throw e)
        | Ret c =>
            let ext := if String.eqb (c_format c) "gif" then "gif" else "png" in
            Some (Ret (r_cacheKey r +:+ "." +:+ ext, c_buffer c))
        end
      else
        canvas ← composePng net (r_width r) (r_height r) (r_layers r)
                   (png_background payload);
        Some (Ret (r_cacheKey r +:+ ".png", PngBuffer canvas))
  end.

(** The promise [p] becomes [v]. *)
Definition set_promise (p : nat) (v : promise) (s : system) : system :=
  {| jobs := jobs s; inFlightByKey := inFlightByKey s;
     promises := <[p := v]> (promises s);
     nextPromise := nextPromise s; out := out s; tasks := tasks s;
     activeRenders := activeRenders s; waitQueue := waitQueue s |}.

(** The file [name] is created in the output directory, or emptied when it
    exists. *)
Definition open_file (name : string) (s : system) : system :=
  {| jobs := jobs s; inFlightByKey := inFlightByKey s; promises := promises s;
     nextPromise := nextPromise s; out := {[ name ]} ∪ out s; tasks := tasks s;
     activeRenders := activeRenders s; waitQueue := waitQueue s |}.

(** The composition of the render [p] comes to its end.  When it threw, the
    promise is rejected and [release()] runs.  Otherwise [fsp.writeFile]
    opens the file, which creates it: [opened] is the outcome of that; when
    it fails the promise is rejected, and no file is made. *)
Definition compose_render `{Runtime} (p : nat) (net : Network) (opened : exc unit)
    (s : system) : option system :=
  match promises s !! p with
  | Some (Rendering r) =>
      outcome ← render_compose net r;
      match outcome with
      | Ret (name, content) =>
          match opened with
          | Ret _ => Some (open_file name (set_promise p (Writing r name content) s))
          | Throw e => Some (release (set_promise p (Rejected e) s))
          end
      | Throw e => Some (release (set_promise p (Rejected e) s))
      end
  | _ => None
  end.

(** The promise of [fsp.writeFile] settles: the render promise is fulfilled
    with the URL of the file, or rejected, the file staying as the failed
    write left it; [release()] runs in both cases. *)
Definition write_settled `{Runtime} (p : nat) (written : exc unit) (s : system)
  : option system :=
  match promises s !! p with
  | Some (Writing r name content) =>
      match written with
      | Ret _ =>
          Some (release (set_promise p (Fulfilled (BASE_URL +:+ "/out/" +:+ name)) s))
      | Throw e => Some (release (set_promise p (Rejected e) s))
      end
  | _ => None
  end.

(** [inFlightByKey.delete(cacheKey)] *)
Definition delete_inFlight (cacheKey : string) (s : system) : system :=
  {| jobs := jobs s; inFlightByKey := delete cacheKey (inFlightByKey s);
     promises := promises s; nextPromise := nextPromise s; out := out s;
     tasks := tasks s; activeRenders := activeRenders s; waitQueue := waitQueue s |}.

(** The task continues after the promise it awaits has settled. *)
Definition resume_task `{Runtime} (jobId : string) (now : Z) (s : system)
  : option system :=
  match tasks s !! jobId with
  | Some (AwaitDedup p payload wantsGif cacheKey) =>
      (* const url = await p.catch(() => null); if (url) { ... return; } *)
      match promises s !! p with
      | Some (Fulfilled url) =>
          if String.eqb url ""
          then Some (start_render jobId payload wantsGif cacheKey now s)
          else Some (finish_done jobId url (format_of_url url) now payload s)
      | Some (Rejected _) => Some (start_render jobId payload wantsGif cacheKey now s)
      | _ => None
      end
  | Some (AwaitRender p payload cacheKey) =>
      (* const url = await renderPromise; inFlightByKey.delete(cacheKey); ... *)
      match promises s !! p with
      | Some (Fulfilled url) =>
          Some (finish_done jobId url (format_of_url url) now payload
                            (delete_inFlight cacheKey s))
      | Some (Rejected e) => Some (finish_error jobId e now s)
      | _ => None
      end
  | _ => None
  end.

(** What a handler answers.  [HandlerThrew]: the async handler threw
    before it sent anything, and the promise it returned is rejected;
    Express 4 does not look at that promise and the request is left without
    a response, Express 5 hands the error to its error handler, which
    answers with status 500. *)
Inductive response : Type :=
| Status400 (error : string)
| Accepted (jobId : string)
| HandlerThrew (message : string)
| Status404
| JobRecord (j : job).

(** The handler of [POST /jobs] up to [res.json({ jobId })]; [jobId] is
    the value of [crypto.randomUUID()].  The record is stored before the
    arguments of the debug call of line 424 are evaluated, among them
    [String(payload.format || '')], which may throw: the task is then not
    spawned.  The task runs in [run_task]. *)
Definition postJobs `{Runtime} (body : jsval) (jobId : string) (now : Z) (s : system)
  : response * system :=
  let payload := request_payload body in
  match validate payload with
  | Throw e => (HandlerThrew e, s)
  | Ret (Some e) => (Status400 e, s)
  | Ret None =>
      let stored (spawned : gmap string task) :=
        {| jobs := <[jobId := job_pending payload now]> (jobs s);
           inFlightByKey := inFlightByKey s; promises := promises s;
           nextPromise := nextPromise s; out := out s;
           tasks := spawned;
           activeRenders := activeRenders s; waitQueue := waitQueue s |} in
      match ToString (or_else (prop "format" payload) (JStr "")) with
      | Throw e => (HandlerThrew e, stored (tasks s))
      | Ret _ => (Accepted jobId, stored (<[jobId := Spawned]> (tasks s)))
      end
  end.

(** The handler of [GET /jobs/:id]. *)
Definition getJob (jobId : string) (s : system) : response :=
  match jobs s !! jobId with
  | Some j => JobRecord j
  | None => Status404
  end.

(** What can happen to the process. *)
Inductive event : Type :=
| Submit (body : jsval) (jobId : string) (now : Z)
| RunTask (jobId : string) (now : Z) (mkdir : exc unit)
| ComposeRender (p : nat) (net : Network) (opened : exc unit)
| WriteSettled (p : nat) (written : exc unit)
| ResumeTask (jobId : string) (now : Z)
| Poll (jobId : string).

(** The state after an event, or [None] when the event cannot happen in
    this state.  [crypto.randomUUID()] returns an identifier that is not
    in use. *)
Definition step `{Runtime} (e : event) (s : system) : option system :=
  match e with
  | Submit body jobId now =>
      match jobs s !! jobId with
      | None => Some (postJobs body jobId now s).2
      | Some _ => None
      end
  | RunTask jobId now mkdir =>
      match tasks s !! jobId with
      | Some Spawned => Some (run_task jobId now mkdir s)
      | _ => None
      end
  | ComposeRender p net opened => compose_render p net opened s
  | WriteSettled p written => write_settled p written s
  | ResumeTask jobId now => resume_task jobId now s
  | Poll _ => Some s
  end.

Fixpoint run `{Runtime} (events : list event) (s : system) : option system :=
  match events with
  | [] => Some s
  | e :: rest => s' ← step e s; run rest s'
  end.

Definition reachable `{Runtime} (s : system) : Prop :=
  exists events, run events initial = Some s.

(** *** Invariants of the registry *)

(** Every suspended task belongs to a job whose record is pending. *)
Definition tasks_pending (s : system) : Prop :=
  forall id t, tasks s !! id = Some t ->
    exists j, jobs s !! id = Some j /\ j_status j = SPending.

(** How the registry may change in one step: a record is only replaced
    when it is pending, and then by a done or error record; a new record
    is pending. *)
Definition registry_step (s s' : system) : Prop :=
  forall id,
    match jobs s !! id with
    | Some j =>
        exists j', jobs s' !! id = Some j' /\
          (j_status j <> SPending -> j' = j) /\
          (j_status j' = j_status j \/
           j_status j = SPending /\ (j_status j' = SDone \/ j_status j' = SError))
    | None => forall j', jobs s' !! id = Some j' -> j_status j' = SPending
    end.

(** *** The validation rules, as sentences *)

(** [String(l.type) === s], false when the conversion throws. *)
Definition type_reads (l : json) (s : string) : bool :=
  match String_ (prop "type" l) with
  | Ret type => String.eqb type s
  | Throw _ => false
  end.

(** The number of frames a layer declares: the length of its [frames]
    array when its type reads pet_gif_frames, zero otherwise. *)
Definition declaredFrames (l : json) : Z :=
  if type_reads l "pet_gif_frames" then
    match prop "frames" l with
    | Some (JArr frames) => Z.of_nat (length frames)
    | _ => 0
    end
  else 0.

Definition maxDeclaredFrames (layers : list json) : Z :=
  foldr (fun l acc => Z.max (declaredFrames l) acc) 0 layers.

(** [Number(payload.size?.width || 300)] and the same for the height. *)
Definition payload_width `{Runtime} (payload : json) : exc number :=
  ToNumber (or_else (oprop "width" (prop "size" payload)) (JNum 300)).

Definition payload_height `{Runtime} (payload : json) : exc number :=
  ToNumber (or_else (oprop "height" (prop "size" payload)) (JNum 300)).

(** The limits on the size, on the number of layers and on the number of
    frames. *)
Definition over_limits `{Runtime} (payload : json) : Prop :=
  (exists width, payload_width payload = Ret width /\
     number_gt width MAX_WIDTH = true) \/
  (exists height, payload_height payload = Ret height /\
     number_gt height MAX_HEIGHT = true) \/
  exists layers, prop "layers" payload = Some (JArr layers) /\
    (MAX_LAYERS < Z.of_nat (length layers) \/ MAX_FRAMES < maxDeclaredFrames layers).

(** A rule is violated when [guild] or [user] is missing, when [layers] is
    missing or not an array, or when a limit is exceeded. *)
Definition violates_rule `{Runtime} (payload : json) : Prop :=
  prop "guild" payload = None \/
  prop "user" payload = None \/
  isArray (prop "layers" payload) = false \/
  over_limits payload.

(** The same with, for [guild] and [user], missing or falsy: [null],
    [false], zero or the empty string. *)
Definition violates_rule_or_falsy `{Runtime} (payload : json) : Prop :=
  Boolean (prop "guild" payload) = false \/
  Boolean (prop "user" payload) = false \/
  isArray (prop "layers" payload) = false \/
  over_limits payload.

(** The conversions of the handler all return: [Number] of the width and
    of the height (lines 404 and 405), [String] of the type of each layer
    (line 414) and [String] of the format (line 424). *)
Definition coercible (payload : json) : bool :=
  negb (unprintable (or_else (oprop "width" (prop "size" payload)) (JNum 300))) &&
  negb (unprintable (or_else (oprop "height" (prop "size" payload)) (JNum 300))) &&
  forallb (fun l => negb (unprintable_val (prop "type" l))) (layersIn_of payload) &&
  negb (unprintable (or_else (prop "format" payload) (JStr ""))).

(** ** SHA-1 (FIPS 180-4), the digest of a default deployment *)

Definition word32 (x : Z) : Z := x mod 2 ^ 32.

Definition rotl (n x : Z) : Z :=
  word32 (Z.lor (Z.shiftl x n) (Z.shiftr x (32 - n))).

Fixpoint bytes_of_string (s : string) : list Z :=
  match s with
  | EmptyString => []
  | String c rest => Z.of_nat (nat_of_ascii c) :: bytes_of_string rest
  end.

(** The big-endian bytes of [x], [n] of them. *)
Fixpoint be_bytes (n : nat) (x : Z) : list Z :=
  match n with
  | O => []
  | S n' => be_bytes n' (x / 256) ++ [x mod 256]
  end.

Definition sha1_pad (msg : list Z) : list Z :=
  let len := Z.of_nat (length msg) in
  msg ++ [128] ++ repeat 0 (Z.to_nat ((55 - len) mod 64)) ++ be_bytes 8 (8 * len).

Fixpoint be_words (n : nat) (bytes : list Z) : list Z :=
  match n, bytes with
  | S n', b0 :: b1 :: b2 :: b3 :: rest =>
      (((b0 * 256 + b1) * 256 + b2) * 256 + b3) :: be_words n' rest
  | _, _ => []
  end.

(** The message schedule, most recent word first. *)
Fixpoint sha1_schedule (n : nat) (recent : list Z) : list Z :=
  match n with
  | O => recent
  | S n' =>
      let w := rotl 1 (Z.lxor (Z.lxor (nth 2 recent 0) (nth 7 recent 0))
                              (Z.lxor (nth 13 recent 0) (nth 15 recent 0))) in
      sha1_schedule n' (w :: recent)
  end.

Definition sha1_round (i : nat) (st : Z * Z * Z * Z * Z) (w : Z) : Z * Z * Z * Z * Z :=
  let '(a, b, c, d, e) := st in
  let '(f, k) :=
    if (i <? 20)%nat then
      (Z.lor (Z.land b c) (Z.land (Z.lxor b (2 ^ 32 - 1)) d), 0x5A827999)
    else if (i <? 40)%nat then (Z.lxor (Z.lxor b c) d, 0x6ED9EBA1)
    else if (i <? 60)%nat then
      (Z.lor (Z.lor (Z.land b c) (Z.land b d)) (Z.land c d), 0x8F1BBCDC)
    else (Z.lxor (Z.lxor b c) d, 0xCA62C1D6) in
  (word32 (rotl 5 a + f + e + k + w), a, rotl 30 b, c, d).

Fixpoint sha1_rounds (i : nat) (ws : list Z) (st : Z * Z * Z * Z * Z) : Z * Z * Z * Z * Z :=
  match ws with
  | [] => st
  | w :: rest => sha1_rounds (S i) rest (sha1_round i st w)
  end.

Definition sha1_block (h : Z * Z * Z * Z * Z) (block : list Z) : Z * Z * Z * Z * Z :=
  let ws := rev (sha1_schedule 64 (rev (be_words 16 block))) in
  let '(h0, h1, h2, h3, h4) := h in
  let '(a, b, c, d, e) := sha1_rounds 0 ws h in
  (word32 (h0 + a), word32 (h1 + b), word32 (h2 + c), word32 (h3 + d), word32 (h4 + e)).

Fixpoint sha1_blocks (n : nat) (h : Z * Z * Z * Z * Z) (bytes : list Z) : Z * Z * Z * Z * Z :=
  match n with
  | O => h
  | S n' => sha1_blocks n' (sha1_block h (firstn 64 bytes)) (skipn 64 bytes)
  end.

Fixpoint hex_of (digits : nat) (x : Z) : string :=
  match digits with
  | O => ""
  | S d => hex_of d (x / 16) +:+ String (hex_digit (Z.to_nat (x mod 16))) ""
  end.

(** [crypto.createHash('sha1').update(s).digest('hex')] on a string of
    bytes. *)
Definition sha1 (s : string) : string :=
  let bytes := sha1_pad (bytes_of_string s) in
  let '(h0, h1, h2, h3, h4) :=
    sha1_blocks (length bytes / 64)
      (0x67452301, 0xEFCDAB89, 0x98BADCFE, 0x10325476, 0xC3D2E1F0) bytes in
  hex_of 8 h0 +:+ hex_of 8 h1 +:+ hex_of 8 h2 +:+ hex_of 8 h3 +:+ hex_of 8 h4.

(** ** A concrete runtime *)

Fixpoint decimal_digits (acc : Z) (s : string) : number :=
  match s with
  | EmptyString => Fin acc
  | String c rest =>
      let n := Z.of_nat (nat_of_ascii c) in
      if (48 <=? n) && (n <=? 57) then decimal_digits (10 * acc + (n - 48)) rest
      else NaN
  end.

(** [Number(s)] on the strings that spell an integer in decimal, and on the
    empty string; every other string is sent to [NaN]. *)
Definition decimal_literal (s : string) : number :=
  match s with
  | EmptyString => Fin 0
  | String "-" (String c rest) =>
      match decimal_digits 0 (String c rest) with
      | Fin z => Fin (- z)
      | other => other
      end
  | _ => decimal_digits 0 s
  end.

(** The configuration of a deployment that sets no environment variable. *)
Definition default_runtime : Runtime :=
  {| sha1_hex := sha1;
     StringToNumber := decimal_literal;
     MAX_WIDTH := 1024;
     MAX_HEIGHT := 1024;
     MAX_LAYERS := 50;
     MAX_FRAMES := 120;
     DEFAULT_GIF_DELAY_MS := 180;
     FRAME_FETCH_CONCURRENCY := 10;
     STATIC_FETCH_CONCURRENCY := 10;
     MAX_CONCURRENCY := Frac 4 1;
     BASE_URL := "http://localhost:8081";
     ASSET_BASE_URL := "https://cdn.jsdelivr.net/gh/Earth-J/cdn-files@main" |}.

Definition example_runtime : Runtime := default_runtime.

Definition example_payload : json :=
  JObj [("guild", JStr "g1"); ("user", JStr "u1");
        ("size", JObj [("width", JNum 300); ("height", JNum 300)]);
        ("layers", JArr [JObj [("type", JStr "background"); ("key", JStr "default")];
                         JObj [("type", JStr "floor"); ("key", JStr "Wood 01")]]);
        ("format", JStr "gif")].

(** [example_payload] with another guild and user, an extra top-level
    property, an extra property in the second layer, and the keys of the
    top-level object in another order. *)
Definition example_payload' : json :=
  JObj [("user", JStr "u2"); ("guild", JStr "g2");
        ("size", JObj [("width", JNum 300); ("height", JNum 300)]);
        ("layers", JArr [JObj [("type", JStr "background"); ("key", JStr "default")];
                         JObj [("type", JStr "floor"); ("key", JStr "Wood 01");
                               ("note", JStr "kitchen")]]);
        ("format", JStr "gif"); ("requestId", JNum 7)].

(** A network on which every URL is served, its body being the URL itself,
    except those under [/missing/], which answer 404. *)
Definition example_net : Network :=
  {| fetchBuffer := fun url =>
       if String.prefix "https://cdn.example/missing/" url
       then Throw ("HTTP 404 for " +:+ url) else Ret url;
     loadImageCached := fun _ buf => Ret (Bitmap buf);
     loadCoerced := fun _ => Throw "TypeError" |}.

(** A network on which every request answers 404. *)
Definition offline_net : Network :=
  {| fetchBuffer := failing_cdn;
     loadImageCached := fun _ buf => Ret (Bitmap buf);
     loadCoerced := fun _ => Throw "TypeError" |}.

(** A background and an animated layer of three frames, the second of
    which cannot be fetched. *)
Definition example_layers : list json :=
  [JObj [("type", JStr "static"); ("url", JStr "https://cdn.example/backgrounds/default.png")];
   JObj [("type", JStr "pet_gif_frames");
         ("frames", JArr [JObj [("url", JStr "https://cdn.example/pet/1.png")];
                          JObj [("url", JStr "https://cdn.example/missing/2.jpg")];
                          JObj [("url", JStr "https://cdn.example/pet/3.png")]])]].

(** A job that asks for a GIF of a background and an animated layer. *)
Definition example_gif_payload : json :=
  JObj [("guild", JStr "g1"); ("user", JStr "u1");
        ("size", JObj [("width", JNum 300); ("height", JNum 300)]);
        ("format", JStr "gif");
        ("layers", JArr [JObj [("type", JStr "background"); ("key", JStr "default")];
                         JObj [("type", JStr "pet_gif_frames");
                               ("frames", JArr [JObj [("url", JStr "https://cdn.example/pet/1.png")];
                                                JObj [("url", JStr "https://cdn.example/pet/2.png")]])]])].

(** The job is submitted, its task starts a render, the composition comes
    to its end on [net] and the file is opened, and the write settles with
    the outcome [written]. *)
Definition example_events (net : Network) (written : exc unit) : list event :=
  [Submit (Some example_gif_payload) "job-1" 1000;
   RunTask "job-1" 1000 (Ret tt);
   ComposeRender 0 net (Ret tt);
   WriteSettled 0 written].

(** The state once the task of the job awaits its render promise. *)
Definition example_rendering_state : system :=
  default initial
    (@run example_runtime
       [Submit (Some example_gif_payload) "job-1" 1000; RunTask "job-1" 1000 (Ret tt)]
       initial).

Definition example_state (net : Network) (written : exc unit) : system :=
  default initial (@run example_runtime (example_events net written) initial).

Definition example_cacheKey : string :=
  match @stableHashPayload example_runtime example_gif_payload with
  | Ret key => key
  | Throw _ => ""
  end.

(** The closure of the render promise of [example_gif_payload]. *)
Definition example_render : render :=
  {| r_wantsGif := true;
     r_width := JNum 300;
     r_height := JNum 300;
     r_layers :=
       match @resolvedLayers_of example_runtime (layersIn_of example_gif_payload) with
       | Ret resolvedLayers => resolvedLayers
       | Throw _ => []
       end;
     r_payload := example_gif_payload;
     r_cacheKey := example_cacheKey |}.

(** The state after the same events when writing the file fails and the
    task has resumed. *)
Definition example_failed_state : system :=
  default initial
    (@run example_runtime
       (example_events example_net (Throw "ENOSPC: no space left on device, write")
        ++ [ResumeTask "job-1" 1002]) initial).

(** ** More on [slugify] and [swapImageExtension] *)

(** Slug characters and dashes, with no two dashes in a row; [after_dash]
    tells that a dash may not come next. *)
Fixpoint dashed (after_dash : bool) (s : string) : bool :=
  match s with
  | EmptyString => true
  | String c rest =>
      if is_slug_char c then dashed false rest
      else if Ascii.eqb c "-" then negb after_dash && dashed true rest
      else false
  end.

(** The strings [slugify] produces: empty, or runs of the characters a to
    z and 0 to 9 separated by single dashes.  [after_dash] tells that a
    dash may not come next: at the start and after a dash. *)
Fixpoint slug_body (after_dash : bool) (s : string) : bool :=
  match s with
  | EmptyString => negb after_dash
  | String c rest =>
      if is_slug_char c then slug_body false rest
      else if Ascii.eqb c "-" then negb after_dash && slug_body true rest
      else false
  end.

Definition is_slug (s : string) : bool :=
  match s with
  | EmptyString => true
  | _ => slug_body true s
  end.

(** No character of [s] is a question mark. *)
Fixpoint no_question (s : string) : bool :=
  match s with
  | EmptyString => true
  | String c rest => negb (Ascii.eqb c "?") && no_question rest
  end.

(** ** More on [mapWithConcurrency] *)

(** The states a call can be in: from the state in which the promise is
    returned, any pending mapper call may settle next. *)
Definition pmap_reachable {A B : Type} (items : list A) (limit : Z)
    (mapper : A -> nat -> exc B) (st : pmap_state B) : Prop :=
  rtc (pmap_step items limit mapper) (pmap_start items limit) st.

(** ** More on the render task *)

(** [l && String(l.type) === 'pet_gif_frames' && Array.isArray(l.frames)]:
    the layers the task passes on as they are (lines 472-474). *)
Definition is_animated (l : json) : bool :=
  truthy l && type_reads l "pet_gif_frames" && isArray (prop "frames" l).

Definition is_null (v : json) : bool :=
  match v with
  | JNull => true
  | _ => false
  end.

(** A frame on which the callback of [l.frames.map] throws: [null], of
    which [fr.url] cannot be read, or a frame one of whose converted values
    cannot be converted. *)
Definition unhashable_frame (fr : json) : bool :=
  is_null fr ||
  unprintable_or (prop "url" fr) ||
  unprintable_or (oprop "x" (prop "draw" fr)) ||
  unprintable_or (oprop "y" (prop "draw" fr)) ||
  unprintable_or (oprop "w" (prop "draw" fr)) ||
  unprintable_or (oprop "h" (prop "draw" fr)).

(** A layer on which the callback of [payload.layers.map] throws: [null],
    or a layer one of whose converted values cannot be converted, or a
    layer of frames with such a frame; [size_w] and [size_h] stand in for a
    missing width and height of the draw rectangle. *)
Definition unhashable_layer (size_w size_h : json) (l : json) : bool :=
  is_null l ||
  unprintable_or (prop "type" l) ||
  unprintable_or (prop "key" l) ||
  unprintable_or (prop "url" l) ||
  unprintable_or (oprop "x" (prop "draw" l)) ||
  unprintable_or (oprop "y" (prop "draw" l)) ||
  unprintable (or_else (oprop "w" (prop "draw" l)) size_w) ||
  unprintable (or_else (oprop "h" (prop "draw" l)) size_h) ||
  type_reads l "pet_gif_frames" &&
  match prop "frames" l with
  | Some (JArr frs) => existsb unhashable_frame frs
  | _ => false
  end.

(** Options one of whose converted values cannot be converted. *)
Definition unhashable_gifOptions (go : jsval) : bool :=
  match go with
  | Some g =>
      truthy g &&
      (unprintable_or (prop "delayMs" g) ||
       unprintable_val (prop "repeat" g) ||
       unprintable_or (prop "quality" g) ||
       unprintable_or (prop "transparentColorHex" g) ||
       unprintable_or (prop "backgroundColorHex" g))
  | None => false
  end.

(** A payload on which [stableHashPayload] throws. *)
Definition unhashable (payload : json) : bool :=
  let size_w := or_else (oprop "width" (prop "size" payload)) (JNum 300) in
  let size_h := or_else (oprop "height" (prop "size" payload)) (JNum 300) in
  existsb (unhashable_layer size_w size_h) (layersIn_of payload) ||
  unhashable_gifOptions (prop "gifOptions" payload).

(** A layer that is [null] or holds a [null] frame. *)
Definition null_entry (l : json) : bool :=
  is_null l ||
  type_reads l "pet_gif_frames" &&
  match prop "frames" l with
  | Some (JArr frs) => existsb is_null frs
  | _ => false
  end.

(** A job whose only layer is [null]. *)
Definition example_null_layer_payload : json :=
  JObj [("guild", JStr "g1"); ("user", JStr "u1"); ("layers", JArr [JNull])].

(** A static layer that is served and one that is not. *)
Definition example_floor_layer : json :=
  JObj [("type", JStr "static"); ("url", JStr "https://cdn.example/floor/wood.png")].

Definition example_missing_layer : json :=
  JObj [("type", JStr "static"); ("url", JStr "https://cdn.example/missing/sofa.jpg")].

(** ** [auth] *)

(** [process.env.API_KEY || undefined] *)
Definition API_KEY_of (env : option string) : option string :=
  match env with
  | Some key => if String.eqb key "" then None else Some key
  | None => None
  end.

(** [header.replace(/^Bearer\s+/i, '')]: the word Bearer in any case and
    the white space after it, of which there must be some, are removed from
    the start; a header that does not start so is left as it is. *)
Definition strip_bearer (header : string) : string :=
  match ci_prefix "Bearer" header with
  | Some (String c rest) =>
      if is_white_space c then skip_white_space rest else header
  | _ => header
  end.

(** [next()], or [res.status(401).json({ error: 'Unauthorized' })]. *)
Inductive auth_result : Type := Next | Unauthorized.

(** The middleware [auth]; [authorization] is
    [req.headers['authorization']]. *)
Definition auth (API_KEY : option string) (authorization : option string) : auth_result :=
  match API_KEY with
  | None => Next
  | Some key =>
      if String.eqb key "" then Next
      else
        let token :=
          strip_bearer (match authorization with
                        | Some header => header
                        | None => ""
                        end) in
        if String.eqb token key then Next else Unauthorized
  end.

(** Every character of [s] is white space. *)
Fixpoint all_white_space (s : string) : bool :=
  match s with
  | EmptyString => true
  | String c rest => is_white_space c && all_white_space rest
  end.

(** [s] does not start with white space. *)
Definition no_leading_space (s : string) : bool :=
  match s with
  | EmptyString => true
  | String c _ => negb (is_white_space c)
  end.

(** ** [parseDataUrl] and [fetchBuffer] *)

(** The longest start of [s] without a semicolon, and what follows it. *)
Fixpoint until_semicolon (s : string) : string * string :=
  match s with
  | EmptyString => ("", "")
  | String c rest =>
      if Ascii.eqb c ";" then ("", s)
      else let '(taken, others) := until_semicolon rest in (String c taken, others)
  end.

Fixpoint no_semicolon (s : string) : bool :=
  match s with
  | EmptyString => true
  | String c rest => negb (Ascii.eqb c ";") && no_semicolon rest
  end.

(** The outcome of the request made with [lib.get]: the response has come
    in full, with its status code and body, or the request failed with an
    error (an error event, or the timeout, which destroys the request with
    the error HTTP_REQUEST_TIMEOUT, or an exception of [lib.get]). *)
Inductive http_outcome : Type :=
| Response (statusCode : Z) (body : Buffer)
| RequestError (message : string).

(** What [fetchBuffer] has done when it returns: its promise is already
    settled, or a request is on its way. *)
Inductive fetch_started : Type :=
| Settled (outcome : exc Buffer)
| Requested.

Section AssetFetch.
(** [Buffer.from(s, 'base64')], which decodes what it can and does not
    throw on a string, and the lifetime [CACHE_TTL_MS] of an entry. *)
Variable base64 : string -> Buffer.
Variable CACHE_TTL_MS : Z.

(** The expression of [parseDataUrl] matches the scheme data and a colon
    in any case, one or more characters other than a semicolon, the text
    ;base64, in any case, and the rest of the string when it holds no line
    terminator; the buffer is decoded from that rest. *)
Definition parseDataUrl (dataUrl : string) : option Buffer :=
  match ci_prefix "data:" dataUrl with
  | Some r =>
      let '(mime, rest) := until_semicolon r in
      if String.eqb mime "" then None
      else
        match ci_prefix ";base64," rest with
        | Some body => if no_line_terminator body then Some (base64 body) else None
        | None => None
        end
  | None => None
  end.

(** [fetchBuffer(url)] up to its [return], on the buffer cache [c]; the
    clock reads [now] in [get] and [now'] in [set].  A cached buffer is an
    object, hence truthy. *)
Definition fetchBuffer_start (url : string) (now now' : Z) (c : SimpleCache.t Buffer)
  : fetch_started * SimpleCache.t Buffer :=
  let key := "buf:" +:+ url in
  let '(cached, c1) := SimpleCache.get key now c in
  match cached with
  | Some buf => (Settled (Ret buf), c1)
  | None =>
      if String.prefix "data:" url then
        match parseDataUrl url with
        | None => (Settled (Throw "INVALID_DATA_URL"), c1)
        | Some buf => (Settled (Ret buf), SimpleCache.set key buf CACHE_TTL_MS now' c1)
        end
      else (Requested, c1)
  end.

(** The request of [fetchBuffer(url)] comes to its end at time [now], the
    cache being [c] by then: how the promise settles, and the cache
    afterwards. *)
Definition fetchBuffer_settle (url : string) (o : http_outcome) (now : Z)
    (c : SimpleCache.t Buffer) : exc Buffer * SimpleCache.t Buffer :=
  match o with
  | Response statusCode body =>
      if negb (statusCode =? 0) && (400 <=? statusCode) then
        (Throw ("HTTP " +:+ NumberToString statusCode +:+ " for " +:+ url), c)
      else (Ret body, SimpleCache.set ("buf:" +:+ url) body CACHE_TTL_MS now c)
  | RequestError message => (Throw message, c)
  end.

End AssetFetch.

(** A decoder for the examples: the text itself. *)
Definition example_base64 (s : string) : Buffer := s.

(** ** More invariants of the registry *)

(** The URL under which the service serves the file [name] of the output
    directory. *)
Definition out_url `{Runtime} (name : string) : string :=
  BASE_URL +:+ "/out/" +:+ name.

(** [url] points to a file that exists and is named after the fingerprint
    [key]. *)
Definition file_for `{Runtime} (s : system) (key url : string) : Prop :=
  (url = out_url (key +:+ ".gif") /\ key +:+ ".gif" ∈ out s) \/
  (url = out_url (key +:+ ".png") /\ key +:+ ".png" ∈ out s).

(** The closure [r] was made for a payload whose fingerprint is [key]:
    it holds the layers resolved from that payload. *)
Definition render_for `{Runtime} (key : string) (r : render) : Prop :=
  r_cacheKey r = key /\
  stableHashPayload (r_payload r) = Ret key /\
  resolvedLayers_of (layersIn_of (r_payload r)) = Ret (r_layers r).

(** A buffer goes to the file that its kind and the fingerprint name. *)
Definition written_as (key name : string) (content : artifact) : Prop :=
  (name = key +:+ ".gif" /\ exists encoder, content = GifBuffer encoder) \/
  (name = key +:+ ".png" /\ exists canvas, content = PngBuffer canvas).

(** The promise [p] belongs to a render for the fingerprint [key]. *)
Definition promise_for `{Runtime} (s : system) (key : string) (p : nat) : Prop :=
  match promises s !! p with
  | Some (Waiting r) | Some (Rendering r) => render_for key r
  | Some (Writing r name content) =>
      render_for key r /\ written_as key name content /\ name ∈ out s
  | Some (Fulfilled url) => file_for s key url
  | Some (Rejected _) => True
  | None => False
  end.

Definition task_ok `{Runtime} (s : system) (t : task) : Prop :=
  match t with
  | Spawned => True
  | AwaitDedup p payload _ key | AwaitRender p payload key =>
      promise_for s key p /\ stableHashPayload payload = Ret key
  end.

(** What a record holds, by status. *)
Definition job_ok `{Runtime} (s : system) (j : job) : Prop :=
  match j_status j with
  | SPending =>
      j_url j = None /\ j_format j = None /\ j_error j = None /\
      j_finishedAt j = None /\ is_Some (j_payload j)
  | SDone =>
      exists payload key url,
        j_payload j = Some payload /\ stableHashPayload payload = Ret key /\
        j_url j = Some url /\ file_for s key url /\
        j_format j = Some (format_of_url url) /\
        j_error j = None /\ is_Some (j_finishedAt j)
  | SError =>
      is_Some (j_error j) /\ j_url j = None /\ j_format j = None /\
      j_payload j = None /\ is_Some (j_finishedAt j)
  end.

Definition service_inv `{Runtime} (s : system) : Prop :=
  (forall p, is_Some (promises s !! p) -> (p < nextPromise s)%nat) /\
  (forall key p, inFlightByKey s !! key = Some p -> promise_for s key p) /\
  (forall id t, tasks s !! id = Some t -> task_ok s t) /\
  (forall id j, jobs s !! id = Some j -> job_ok s j).

(** From [s] to [s'] no file is removed and every promise keeps the
    fingerprint it renders. *)
Definition extends `{Runtime} (s s' : system) : Prop :=
  (forall name, name ∈ out s -> name ∈ out s') /\
  (forall key p, promise_for s key p -> promise_for s' key p).

(** ** The render semaphore *)

(** A promise that has passed [acquire()] and has not yet run
    [release()]. *)
Definition holds_permit (pr : promise) : bool :=
  match pr with
  | Rendering _ | Writing _ _ _ => true
  | _ => false
  end.

(** A promise that is fulfilled or rejected. *)
Definition settled (pr : promise) : bool :=
  match pr with
  | Fulfilled _ | Rejected _ => true
  | _ => false
  end.

(** What holds of [activeRenders] and [waitQueue]: [holders] lists the
    promises that hold a permit; the one that took a permit last found
    fewer than [MAX_CONCURRENCY] renders in progress, and a waiter found
    no fewer. *)
Definition semaphore_inv `{Runtime} (s : system) (holders : list nat) : Prop :=
  NoDup holders /\
  (forall p, p ∈ holders <->
     exists pr, promises s !! p = Some pr /\ holds_permit pr = true) /\
  activeRenders s = Z.of_nat (length holders) /\
  (0 < activeRenders s -> lt_fraction (activeRenders s - 1) MAX_CONCURRENCY = true) /\
  NoDup (waitQueue s) /\
  (forall p, p ∈ waitQueue s <-> exists r, promises s !! p = Some (Waiting r)) /\
  (waitQueue s <> [] -> lt_fraction (activeRenders s) MAX_CONCURRENCY = false) /\
  (forall p, is_Some (promises s !! p) -> (p < nextPromise s)%nat).

(** The state after the example job has been rendered and its task has
    marked it done. *)
Definition example_done_state : system :=
  default initial
    (@run example_runtime
       (example_events example_net (Ret tt) ++ [ResumeTask "job-1" 1002]) initial).

(** The example job submitted again by another user. *)
Definition example_gif_payload_again : json :=
  JObj [("guild", JStr "g2"); ("user", JStr "u2");
        ("size", JObj [("width", JNum 300); ("height", JNum 300)]);
        ("format", JStr "gif");
        ("layers", JArr [JObj [("type", JStr "background"); ("key", JStr "default")];
                         JObj [("type", JStr "pet_gif_frames");
                               ("frames", JArr [JObj [("url", JStr "https://cdn.example/pet/1.png")];
                                                JObj [("url", JStr "https://cdn.example/pet/2.png")]])]])].

(** The state in which a second job with the same fingerprint has found
    the render of the first in flight, and that render has been
    fulfilled. *)
Definition example_dedup_state : system :=
  default initial
    (@run example_runtime
       [Submit (Some example_gif_payload) "job-1" 1000;
        RunTask "job-1" 1000 (Ret tt);
        Submit (Some example_gif_payload_again) "job-2" 1001;
        RunTask "job-2" 1001 (Ret tt);
        ComposeRender 0 example_net (Ret tt);
        WriteSettled 0 (Ret tt)] initial).

(** A deployment that renders one job at a time. *)
Definition single_runtime : Runtime :=
  {| sha1_hex := sha1;
     StringToNumber := decimal_literal;
     MAX_WIDTH := 1024;
     MAX_HEIGHT := 1024;
     MAX_LAYERS := 50;
     MAX_FRAMES := 120;
     DEFAULT_GIF_DELAY_MS := 180;
     FRAME_FETCH_CONCURRENCY := 10;
     STATIC_FETCH_CONCURRENCY := 10;
     MAX_CONCURRENCY := Frac 1 1;
     BASE_URL := "http://localhost:8081";
     ASSET_BASE_URL := "https://cdn.jsdelivr.net/gh/Earth-J/cdn-files@main" |}.

(** Two jobs with different fingerprints are submitted there and their
    tasks run: the first render holds the permit, the second waits; the
    first render then comes to writing its file. *)
Definition example_queued_state : system :=
  default initial
    (@run single_runtime
       [Submit (Some example_gif_payload) "job-1" 1000;
        RunTask "job-1" 1000 (Ret tt);
        Submit (Some example_payload) "job-2" 1001;
        RunTask "job-2" 1001 (Ret tt);
        ComposeRender 0 example_net (Ret tt)] initial).

(** From [s] to [s'] every record stays in the registry and keeps its
    creation time, when that is not zero. *)
Definition created_kept (s s' : system) : Prop :=
  forall id j, jobs s !! id = Some j ->
    exists j', jobs s' !! id = Some j' /\
      (j_createdAt j <> 0 -> j_createdAt j' = j_createdAt j).

(** The state after the write of the first of the two queued jobs has
    settled. *)
Definition example_handoff_state : system :=
  default initial (@write_settled single_runtime 0 (Ret tt) example_queued_state).

(** The example job once its render has settled and its task has
    resumed, starting from the state in which it renders. *)
Definition example_resumed_state : system :=
  default initial
    (@run example_runtime
       [ComposeRender 0 example_net (Ret tt); WriteSettled 0 (Ret tt);
        ResumeTask "job-1" 1002]
       example_rendering_state).

(** A deployment started with MAX_CONCURRENCY=0. *)
Definition stalled_runtime : Runtime :=
  {| sha1_hex := sha1;
     StringToNumber := decimal_literal;
     MAX_WIDTH := 1024;
     MAX_HEIGHT := 1024;
     MAX_LAYERS := 50;
     MAX_FRAMES := 120;
     DEFAULT_GIF_DELAY_MS := 180;
     FRAME_FETCH_CONCURRENCY := 10;
     STATIC_FETCH_CONCURRENCY := 10;
     MAX_CONCURRENCY := Frac 0 1;
     BASE_URL := "http://localhost:8081";
     ASSET_BASE_URL := "https://cdn.jsdelivr.net/gh/Earth-J/cdn-files@main" |}.

(** The example job submitted there, after its task has run. *)
Definition example_stalled_state : system :=
  default initial
    (@run stalled_runtime
       [Submit (Some example_gif_payload) "job-1" 1000;
        RunTask "job-1" 1000 (Ret tt)] initial).

(** No render has a permit: every render promise waits. *)
Definition all_waiting (s : system) : Prop :=
  activeRenders s = 0 /\
  forall p pr, promises s !! p = Some pr -> exists r, pr = Waiting r.

(** A deployment started with MAX_CONCURRENCY=2.5. *)
Definition fractional_runtime : Runtime :=
  {| sha1_hex := sha1;
     StringToNumber := decimal_literal;
     MAX_WIDTH := 1024;
     MAX_HEIGHT := 1024;
     MAX_LAYERS := 50;
     MAX_FRAMES := 120;
     DEFAULT_GIF_DELAY_MS := 180;
     FRAME_FETCH_CONCURRENCY := 10;
     STATIC_FETCH_CONCURRENCY := 10;
     MAX_CONCURRENCY := Frac 5 2;
     BASE_URL := "http://localhost:8081";
     ASSET_BASE_URL := "https://cdn.jsdelivr.net/gh/Earth-J/cdn-files@main" |}.

(** A job with one layer, to be had from the asset server. *)
Definition example_floor_payload : json :=
  JObj [("guild", JStr "g1"); ("user", JStr "u1");
        ("layers", JArr [JObj [("type", JStr "floor"); ("key", JStr "Wood 01")]])].

(** Four jobs with different fingerprints are submitted there and their
    tasks run: three renders hold a permit and the fourth waits. *)
Definition example_fractional_state : system :=
  default initial
    (@run fractional_runtime
       [Submit (Some example_gif_payload) "job-1" 1000;
        RunTask "job-1" 1000 (Ret tt);
        Submit (Some example_payload) "job-2" 1001;
        RunTask "job-2" 1001 (Ret tt);
        Submit (Some example_floor_payload) "job-3" 1002;
        RunTask "job-3" 1002 (Ret tt);
        Submit (Some (JObj [("guild", JStr "g1"); ("user", JStr "u1");
                            ("layers", JArr [])])) "job-4" 1003;
        RunTask "job-4" 1003 (Ret tt)] initial).

(** A deployment started with RENDER_STATIC_FETCH_CONCURRENCY=0. *)
Definition static_zero_runtime : Runtime :=
  {| sha1_hex := sha1;
     StringToNumber := decimal_literal;
     MAX_WIDTH := 1024;
     MAX_HEIGHT := 1024;
     MAX_LAYERS := 50;
     MAX_FRAMES := 120;
     DEFAULT_GIF_DELAY_MS := 180;
     FRAME_FETCH_CONCURRENCY := 10;
     STATIC_FETCH_CONCURRENCY := 0;
     MAX_CONCURRENCY := Frac 4 1;
     BASE_URL := "http://localhost:8081";
     ASSET_BASE_URL := "https://cdn.jsdelivr.net/gh/Earth-J/cdn-files@main" |}.

(** The example job submitted there, after its task has run: its render
    holds a permit. *)
Definition example_static_zero_state : system :=
  default initial
    (@run static_zero_runtime
       [Submit (Some example_gif_payload) "job-1" 1000;
        RunTask "job-1" 1000 (Ret tt)] initial).

(** A job whose [format] is an object with the given properties. *)
Definition example_format_payload (format : list (string * json)) : json :=
  JObj [("guild", JStr "g1"); ("user", JStr "u1"); ("layers", JArr []);
        ("format", JObj format)].

(** A job whose width is an object with a property named toString, and a
    job with a layer whose key is such an object. *)
Definition example_unprintable_width_payload : json :=
  JObj [("guild", JStr "g1"); ("user", JStr "u1"); ("layers", JArr []);
        ("size", JObj [("width", JObj [("toString", JNum 1)])])].

Definition example_unprintable_key_payload : json :=
  JObj [("guild", JStr "g1"); ("user", JStr "u1");
        ("layers", JArr [JObj [("type", JStr "floor");
                               ("key", JObj [("toString", JNum 1)])]])].

(** A job whose format is such an object. *)
Definition example_unprintable_format_payload : json :=
  JObj [("guild", JStr "g1"); ("user", JStr "u1"); ("layers", JArr []);
        ("format", JObj [("toString", JNum 1)])].


(** The example job is submitted again by another user after the write of
    its file has failed, and the task of the second job runs. *)
Definition example_stale_file_state : system :=
  default initial
    (@run example_runtime
       [Submit (Some example_gif_payload_again) "job-2" 1003;
        RunTask "job-2" 1003 (Ret tt)] example_failed_state).

(** The example job is submitted again by another user while the first
    render writes its file, and the task of the second job runs. *)
Definition example_early_done_state : system :=
  default initial
    (@run example_runtime
       [Submit (Some example_gif_payload) "job-1" 1000;
        RunTask "job-1" 1000 (Ret tt);
        ComposeRender 0 example_net (Ret tt);
        Submit (Some example_gif_payload_again) "job-2" 1001;
        RunTask "job-2" 1001 (Ret tt)] initial).

(* ===================================================================== *)
(** * Part II. Theorems                                                   *)
(* ===================================================================== *)


(** ** Association lists as objects *)

Section Assoc.
Context {V : Type}.
Implicit Types (o : list (string * V)) (v : V).

Lemma assoc_Some_elem k v o : assoc k o = Some v -> (k, v) ∈ o.
Proof.
  induction o as [|[k' v'] o IH]; simpl; [discriminate|].
  destruct (String.eqb_spec k k') as [->|Hne].
  - intros [= ->]. left.
  - intros H. right. auto.
Qed.

Lemma assoc_elem_Some k v o :
  NoDup (fst <$> o) -> (k, v) ∈ o -> assoc k o = Some v.
Proof.
  induction o as [|[k' v'] o IH]; simpl; intros Hnd Hin.
  - inversion Hin.
  - apply NoDup_cons in Hnd as [Hnotin Hnd].
    apply elem_of_cons in Hin as [[= -> ->]|Hin].
    + now rewrite String.eqb_refl.
    + destruct (String.eqb_spec k k') as [->|Hne]; [|auto].
      exfalso. apply Hnotin. apply (list_elem_of_fmap_2 fst _ (k', v)). exact Hin.
Qed.

Lemma assoc_perm k o o' :
  NoDup (fst <$> o) -> Permutation o o' -> assoc k o = assoc k o'.
Proof.
  intros Hnd Hp.
  assert (Hnd' : NoDup (fst <$> o')) by (now rewrite <- Hp).
  destruct (assoc k o) as [v|] eqn:E.
  - symmetry. apply assoc_elem_Some; [done|]. rewrite <- Hp. now apply assoc_Some_elem.
  - destruct (assoc k o') as [v'|] eqn:E'; [|done].
    apply assoc_Some_elem in E'. rewrite <- Hp in E'.
    apply assoc_elem_Some in E'; [congruence|done].
Qed.

Lemma assoc_assoc_set k' k v o :
  assoc k' (assoc_set k v o) = if String.eqb k' k then Some v else assoc k' o.
Proof.
  induction o as [|[k0 v0] o IH]; simpl.
  - reflexivity.
  - destruct (String.eqb_spec k k0) as [->|Hne]; simpl.
    + destruct (String.eqb k' k0); reflexivity.
    + rewrite IH. destruct (String.eqb_spec k' k0) as [->|Hne'].
      * destruct (String.eqb_spec k0 k); congruence.
      * reflexivity.
Qed.

Lemma assoc_assoc_delete k' k o :
  assoc k' (assoc_delete k o) = if String.eqb k' k then None else assoc k' o.
Proof.
  induction o as [|[k0 v0] o IH]; simpl.
  - destruct (String.eqb k' k); reflexivity.
  - destruct (String.eqb_spec k k0) as [->|Hne]; simpl.
    + rewrite IH. destruct (String.eqb k' k0); reflexivity.
    + rewrite IH. destruct (String.eqb_spec k' k0) as [->|Hne'].
      * destruct (String.eqb_spec k0 k); congruence.
      * reflexivity.
Qed.

Lemma assoc_None_notin k o : assoc k o = None <-> k ∉ (fst <$> o).
Proof.
  induction o as [|[k' v'] o IH]; simpl.
  - split; [intros _ Hin; inversion Hin|reflexivity].
  - rewrite not_elem_of_cons.
    destruct (String.eqb_spec k k') as [->|Hne]; [split; [discriminate|tauto]|tauto].
Qed.

Lemma assoc_delete_notin k o : k ∉ (fst <$> o) -> assoc_delete k o = o.
Proof.
  induction o as [|[k' v'] o IH]; simpl; [reflexivity|].
  rewrite not_elem_of_cons. intros [Hne Hnotin].
  destruct (String.eqb_spec k k'); [congruence|]. now rewrite IH.
Qed.

Lemma assoc_delete_length k o : (length (assoc_delete k o) <= length o)%nat.
Proof.
  induction o as [|[k' v'] o IH]; simpl; [lia|].
  destruct (String.eqb k k'); simpl; lia.
Qed.

Lemma assoc_set_length k v o : (length (assoc_set k v o) <= S (length o))%nat.
Proof.
  induction o as [|[k' v'] o IH]; simpl; [lia|].
  destruct (String.eqb k k'); simpl; lia.
Qed.

Lemma assoc_delete_keys k' k o :
  k' ∈ (fst <$> assoc_delete k o) -> k' ∈ (fst <$> o).
Proof.
  induction o as [|[k0 v0] o IH]; simpl; [done|].
  destruct (String.eqb k k0); simpl; rewrite ?elem_of_cons; intuition.
Qed.

Lemma assoc_delete_NoDup k o :
  NoDup (fst <$> o) -> NoDup (fst <$> assoc_delete k o).
Proof.
  induction o as [|[k0 v0] o IH]; simpl; [done|].
  rewrite NoDup_cons. intros [Hnotin Hnd].
  destruct (String.eqb k k0); simpl; [auto|].
  apply NoDup_cons. split; [|auto].
  intros Hin. apply Hnotin. eapply assoc_delete_keys; eauto.
Qed.

Lemma assoc_set_keys k' k v o :
  k' ∈ (fst <$> assoc_set k v o) -> k' = k \/ k' ∈ (fst <$> o).
Proof.
  induction o as [|[k0 v0] o IH]; simpl.
  - rewrite elem_of_cons. intuition.
  - destruct (String.eqb_spec k k0) as [->|Hne]; simpl;
      rewrite !elem_of_cons; intuition.
Qed.

Lemma assoc_set_NoDup k v o :
  NoDup (fst <$> o) -> NoDup (fst <$> assoc_set k v o).
Proof.
  induction o as [|[k0 v0] o IH]; simpl.
  - intros _. apply NoDup_singleton.
  - rewrite NoDup_cons. intros [Hnotin Hnd].
    destruct (String.eqb_spec k k0) as [->|Hne]; simpl.
    + apply NoDup_cons. auto.
    + apply NoDup_cons. split; [|auto].
      intros Hin. apply assoc_set_keys in Hin as [Heq|Hin]; [congruence|done].
Qed.

End Assoc.

(** ** [SimpleCache] *)

Section SimpleCacheBound.
Import SimpleCache.
Context {V : Type}.
Implicit Types (c : SimpleCache.t V).

Lemma SimpleCache_get_cases key now c :
  get key now c = (None, c) \/
  (exists v, get key now c = (Some v, c)) \/
  get key now c = (None, {| max := max c; map := assoc_delete key (map c) |}).
Proof.
  unfold get. destruct (assoc key (map c)) as [e|]; [|now left].
  destruct (negb (expiresAt e =? 0) && (expiresAt e <? now)); [now right; right|].
  right; left. now eexists.
Qed.

Lemma SimpleCache_get_bounded key now c :
  bounded c -> bounded (get key now c).2.
Proof.
  unfold bounded, size. intros Hb.
  destruct (SimpleCache_get_cases key now c) as [->|[[v ->]| ->]]; simpl; try done.
  pose proof (assoc_delete_length key (map c)). lia.
Qed.

Lemma SimpleCache_set_at_capacity key v ttlMs now c k0 e0 rest :
  NoDup (fst <$> map c) -> max c <= size c -> map c = (k0, e0) :: rest ->
  map (set key v ttlMs now c) =
  assoc_set key {| value := v; expiresAt := if ttlMs =? 0 then 0 else now + ttlMs |} rest.
Proof.
  intros Hnd Hfull Hmap. unfold set, oldest.
  destruct (Z.leb_spec (max c) (size c)); [|lia].
  rewrite Hmap in *. simpl. rewrite String.eqb_refl.
  apply NoDup_cons in Hnd as [Hnotin _].
  now rewrite assoc_delete_notin.
Qed.

Lemma SimpleCache_set_bounded key v ttlMs now c :
  1 <= max c -> bounded c -> bounded (set key v ttlMs now c).
Proof.
  unfold bounded, size. intros Hpos Hb. unfold set, oldest. simpl.
  match goal with |- context [assoc_set key ?e _] => set (e' := e) end.
  destruct (Z.leb_spec (max c) (size c)) as [Hfull|Hroom].
  - unfold size in Hfull. destruct (map c) as [|[k0 e0] rest] eqn:Hmap; simpl in *; [lia|].
    rewrite String.eqb_refl.
    pose proof (assoc_delete_length k0 rest).
    pose proof (assoc_set_length key e' (assoc_delete k0 rest)). lia.
  - unfold size in Hroom.
    pose proof (assoc_set_length key e' (map c)). lia.
Qed.

Lemma SimpleCache_set_NoDup key v ttlMs now c :
  NoDup (fst <$> map c) -> NoDup (fst <$> map (set key v ttlMs now c)).
Proof.
  intros Hnd. unfold set. simpl. apply assoc_set_NoDup.
  destruct (max c <=? size c); [|done].
  destruct (oldest c); [|done]. now apply assoc_delete_NoDup.
Qed.

(** C8, amended.  In a cache whose capacity [max] is at least one, [set]
    and [get] keep the number of entries at most [max]; [set] on a cache at
    capacity removes the entry inserted first and then stores the new one;
    [get] on an entry whose expiry time is set and lies before the current
    time removes the entry and returns [undefined]. *)
Theorem SimpleCache_bound_positive_max key v ttlMs now c :
  1 <= max c -> bounded c -> NoDup (fst <$> map c) ->
  (bounded (set key v ttlMs now c) /\
   NoDup (fst <$> map (set key v ttlMs now c)) /\
   max (set key v ttlMs now c) = max c) /\
  (bounded (get key now c).2 /\
   NoDup (fst <$> map (get key now c).2) /\
   max (get key now c).2 = max c) /\
  (max c <= size c ->
   exists k0 e0 rest,
     map c = (k0, e0) :: rest /\ oldest c = Some k0 /\
     map (set key v ttlMs now c) =
     assoc_set key {| value := v;
                      expiresAt := if ttlMs =? 0 then 0 else now + ttlMs |} rest) /\
  (forall e, assoc key (map c) = Some e ->
     expiresAt e <> 0 -> expiresAt e < now ->
     get key now c = (None, {| max := max c; map := assoc_delete key (map c) |}) /\
     assoc key (map (get key now c).2) = None).
Proof.
  intros Hpos Hb Hnd. repeat split.
  - now apply SimpleCache_set_bounded.
  - now apply SimpleCache_set_NoDup.
  - now apply SimpleCache_get_bounded.
  - destruct (SimpleCache_get_cases key now c) as [->|[[w ->]| ->]]; simpl; try done.
    now apply assoc_delete_NoDup.
  - destruct (SimpleCache_get_cases key now c) as [->|[[w ->]| ->]]; reflexivity.
  - intros Hfull. unfold bounded, size in *.
    destruct (map c) as [|[k0 e0] rest] eqn:Hmap; [simpl in *; lia|].
    exists k0, e0, rest. repeat split.
    + unfold oldest. now rewrite Hmap.
    + eapply SimpleCache_set_at_capacity; eauto.
      * now rewrite Hmap.
      * unfold size. now rewrite Hmap.
  - unfold get. rewrite H.
    destruct (Z.eqb_spec (expiresAt e) 0); [done|].
    destruct (Z.ltb_spec (expiresAt e) now); [reflexivity|lia].
  - unfold get. rewrite H.
    destruct (Z.eqb_spec (expiresAt e) 0); [done|].
    destruct (Z.ltb_spec (expiresAt e) now); [|lia].
    simpl. rewrite assoc_assoc_delete. now rewrite String.eqb_refl.
Qed.

End SimpleCacheBound.

Lemma SimpleCache_bound_positive_max_witness :
  1 <= SimpleCache.max example_cache /\
  SimpleCache.bounded example_cache /\
  NoDup (fst <$> SimpleCache.map example_cache) /\
  SimpleCache.bounded (SimpleCache.set "buf:c" "C" 60000 70000 example_cache) /\
  SimpleCache.map (SimpleCache.set "buf:c" "C" 60000 70000 example_cache)
    = [("buf:b", {| SimpleCache.value := "B"; SimpleCache.expiresAt := 0 |});
       ("buf:c", {| SimpleCache.value := "C"; SimpleCache.expiresAt := 130000 |})] /\
  SimpleCache.get "buf:a" 70000 example_cache
    = (None, {| SimpleCache.max := 2;
                SimpleCache.map :=
                  [("buf:b", {| SimpleCache.value := "B"; SimpleCache.expiresAt := 0 |})] |}).
Proof.
  assert (Hpos : 1 <= SimpleCache.max example_cache) by (simpl; lia).
  assert (Hb : SimpleCache.bounded example_cache)
    by (unfold SimpleCache.bounded, SimpleCache.size; simpl; lia).
  assert (Hnd : NoDup (fst <$> SimpleCache.map example_cache))
    by (apply (bool_decide_unpack _); vm_compute; exact I).
  pose proof (SimpleCache_bound_positive_max "buf:c" "C" 60000 70000 example_cache
                Hpos Hb Hnd) as ((Hset & _) & _).
  repeat split; try assumption; reflexivity.
Defined.

(** C8 as stated fails for a cache of capacity zero: the empty cache is
    within its bound, and after one [set] it holds one entry. *)
Lemma SimpleCache_set_exceeds_zero_max :
  SimpleCache.bounded (SimpleCache.new (V:=string) 0) /\
  SimpleCache.size (SimpleCache.set "buf:a" "A" 60000 0 (SimpleCache.new 0)) = 1 /\
  ~ SimpleCache.bounded (SimpleCache.set "buf:a" "A" 60000 0 (SimpleCache.new 0)).
Proof.
  unfold SimpleCache.bounded, SimpleCache.size. simpl. repeat split; lia.
Qed.

(** ** [swapImageExtension] and [fetchImageWithFallback] *)

Lemma append_empty (r : string) : "" +:+ r = r.
Proof. reflexivity. Qed.

Lemma append_String c (a b : string) : String c a +:+ b = String c (a +:+ b).
Proof. reflexivity. Qed.

Lemma replace_ext_Some ext new s alt :
  replace_ext ext new s = Some alt ->
  exists stem query, ends_in ext s stem query /\ alt = stem +:+ new +:+ query.
Proof.
  revert alt. induction s as [|c rest IH]; intros alt; simpl.
  - destruct (ci_prefix ext "") as [r|] eqn:E; [|discriminate].
    destruct (query_tail r) eqn:Eq; [|discriminate].
    intros [= <-]. exists "", r. split; [|reflexivity]. now exists "".
  - destruct (ci_prefix ext (String c rest)) as [r|] eqn:E.
    + destruct (query_tail r) eqn:Eq.
      * intros [= <-]. exists "", r. split; [|reflexivity].
        now exists (String c rest).
      * destruct (replace_ext ext new rest) as [alt'|]; [|discriminate].
        intros [= <-]. destruct (IH _ eq_refl) as (stem & q & (r' & -> & Hp & Hq) & ->).
        exists (String c stem), q. split; [|reflexivity]. now exists r'.
    + destruct (replace_ext ext new rest) as [alt'|]; [|discriminate].
      intros [= <-]. destruct (IH _ eq_refl) as (stem & q & (r' & -> & Hp & Hq) & ->).
      exists (String c stem), q. split; [|reflexivity]. now exists r'.
Qed.

Lemma replace_ext_None ext new s stem query :
  replace_ext ext new s = None -> ~ ends_in ext s stem query.
Proof.
  revert stem. induction s as [|c rest IH]; intros stem Hnone (r & Hs & Hp & Hq).
  - destruct stem; [|discriminate]. rewrite append_empty in Hs. subst r.
    simpl in Hnone. now rewrite Hp, Hq in Hnone.
  - simpl in Hnone. destruct stem as [|c' stem].
    + rewrite append_empty in Hs. subst r. now rewrite Hp, Hq in Hnone.
    + rewrite append_String in Hs. injection Hs as -> ->.
      destruct (match ci_prefix ext (String c' (stem +:+ r)) with
                | Some r0 => if query_tail r0 then Some (new +:+ r0) else None
                | None => None
                end); [discriminate|].
      destruct (replace_ext ext new (stem +:+ r)) eqn:E; [discriminate|].
      apply (IH stem eq_refl). now exists r.
Qed.

(** C5, amended.  When the first request fails: if the URL ends in .png or
    .gif (in any case), optionally followed by a query string, exactly one
    more request is made, to the URL with the extension swapped and the
    query string kept, and the outcome of that second request, its error
    included, is the outcome of the call; otherwise no other request is made
    and the error of the first request is thrown. *)
Theorem fetchImageWithFallback_retry (fetchBuffer : string -> exc Buffer) url e :
  fetchBuffer url = Throw e ->
  match swapImageExtension url with
  | Some alt =>
      fetchImageWithFallback fetchBuffer url = ([url; alt], fetchBuffer alt) /\
      exists stem query,
        (ends_in ".png" url stem query /\ alt = stem +:+ ".gif" +:+ query) \/
        (ends_in ".gif" url stem query /\ alt = stem +:+ ".png" +:+ query)
  | None =>
      fetchImageWithFallback fetchBuffer url = ([url], Throw e) /\
      forall stem query,
        ~ ends_in ".png" url stem query /\ ~ ends_in ".gif" url stem query
  end.
Proof.
  intros Hfail. unfold fetchImageWithFallback. rewrite Hfail.
  unfold swapImageExtension.
  destruct (String.eqb_spec url "") as [->|Hne].
  - split; [reflexivity|]. intros stem q.
    split; intros (r & Hs & Hp & _); destruct stem, r; discriminate.
  - destruct (replace_ext ".png" ".gif" url) as [alt|] eqn:Epng.
    + split; [reflexivity|].
      apply replace_ext_Some in Epng as (stem & q & Hends & ->). eauto.
    + destruct (replace_ext ".gif" ".png" url) as [alt|] eqn:Egif.
      * split; [reflexivity|].
        apply replace_ext_Some in Egif as (stem & q & Hends & ->). eauto 6.
      * split; [reflexivity|]. intros stem q.
        split; eapply replace_ext_None; eauto.
Qed.

Lemma fetchImageWithFallback_retry_witness :
  failing_cdn "https://cdn/floor/wood-01.png?v=2"
    = Throw "HTTP 404 for https://cdn/floor/wood-01.png?v=2" /\
  fetchImageWithFallback failing_cdn "https://cdn/floor/wood-01.png?v=2"
    = (["https://cdn/floor/wood-01.png?v=2"; "https://cdn/floor/wood-01.gif?v=2"],
       Throw "HTTP 404 for https://cdn/floor/wood-01.gif?v=2").
Proof.
  split; [reflexivity|].
  exact (proj1 (fetchImageWithFallback_retry failing_cdn
                  "https://cdn/floor/wood-01.png?v=2" _ eq_refl)).
Defined.

(** C5 as stated fails: when both requests fail, the error thrown is the
    one of the second request, not the one of the first. *)
Lemma fetchImageWithFallback_throws_retry_error :
  failing_cdn "https://cdn/floor/wood-01.png"
    = Throw "HTTP 404 for https://cdn/floor/wood-01.png" /\
  failing_cdn "https://cdn/floor/wood-01.gif"
    = Throw "HTTP 404 for https://cdn/floor/wood-01.gif" /\
  (fetchImageWithFallback failing_cdn "https://cdn/floor/wood-01.png").2
    = Throw "HTTP 404 for https://cdn/floor/wood-01.gif" /\
  (fetchImageWithFallback failing_cdn "https://cdn/floor/wood-01.png").2
    <> Throw "HTTP 404 for https://cdn/floor/wood-01.png".
Proof. repeat split. discriminate. Qed.

Lemma append_assoc (a b c : string) : (a +:+ b) +:+ c = a +:+ (b +:+ c).
Proof. induction a as [|x a IH]; [reflexivity|]. rewrite !append_String. now rewrite IH. Qed.

Lemma length_append (a b : string) :
  String.length (a +:+ b) = (String.length a + String.length b)%nat.
Proof. induction a as [|x a IH]; [reflexivity|]. rewrite append_String. simpl. now rewrite IH. Qed.

(** ** [mapWithConcurrency] *)

Section MapWithConcurrencyFacts.
Context {A B : Type}.
Variable items : list A.
Variable limit : Z.
Variable mapper : A -> nat -> exc B.

Local Abbreviation n := (length items).

Lemma launch_spec fuel st :
  pmap_wf items mapper st -> (n - index st <= fuel)%nat ->
  pmap_wf items mapper (launch items limit fuel st) /\
  ((index (launch items limit fuel st) < n)%nat ->
     limit <= active (launch items limit fuel st)) /\
  resolved (launch items limit fuel st) = resolved st /\
  remaining items (launch items limit fuel st) = remaining items st /\
  (pending (launch items limit fuel st) = [] ->
     index (launch items limit fuel st) = index st).
Proof.
  revert st. induction fuel as [|fuel IH]; intros st Hwf Hfuel; simpl.
  - split_and!; try done. lia.
  - destruct (Z.ltb_spec (active st) limit) as [Hroom|Hfull]; simpl;
      [|split_and!; try done; lia].
    destruct (Nat.ltb_spec (index st) n) as [Hmore|Hend];
      [|split_and!; try done; lia].
    destruct Hwf as [Hi Ha Hnd Hst Hlen Hres].
    match goal with |- context [launch _ _ _ ?s] => set (st2 := s) end.
    assert (Hfresh : index st ∉ pending st).
    { intros Hin. apply Hst in Hin. lia. }
    assert (Hwf2 : pmap_wf items mapper st2).
    { split; subst st2; simpl.
      - lia.
      - rewrite length_app. simpl. lia.
      - apply NoDup_app. repeat split; [done| |apply NoDup_singleton].
        intros x Hx Hx'. apply list_elem_of_singleton in Hx'. now subst.
      - intros i Hin. apply elem_of_app in Hin as [Hin|Hin].
        + apply Hst in Hin. lia.
        + apply list_elem_of_singleton in Hin. lia.
      - done.
      - intros i Hlt. rewrite (Hres i Hlt). f_equal.
        repeat case_decide; try done.
        + exfalso. apply H0. split; [lia|].
          rewrite elem_of_app, list_elem_of_singleton.
          intros [Hin| ->]; [tauto|lia].
        + exfalso. apply H. destruct H0 as [Hlt' Hnotin].
          rewrite elem_of_app, list_elem_of_singleton in Hnotin.
          split; [|tauto]. destruct (decide (i = index st)); [tauto|lia]. }
    destruct (IH st2 Hwf2) as (Hwf' & Hfull' & Hres' & Hrem' & Hpend').
    { subst st2. simpl. lia. }
    split_and!; try done.
    + rewrite Hrem'. unfold remaining. subst st2. simpl.
      rewrite length_app. simpl. lia.
    + intros Hnil. exfalso.
      assert (Hrem : remaining items (launch items limit fuel st2) = remaining items st2) by done.
      unfold remaining in Hrem. rewrite Hnil, (Hpend' Hnil) in Hrem.
      subst st2. simpl in Hrem. rewrite length_app in Hrem. simpl in Hrem. lia.
Qed.

Lemma next_inv st :
  pmap_wf items mapper st -> resolved st = false ->
  pmap_inv items limit mapper (next items limit st) /\ remaining items (next items limit st) = remaining items st.
Proof.
  intros Hwf Hres. unfold next.
  destruct (Nat.leb_spec n (index st)) as [Hend|Hmore]; simpl.
  - assert (Hidx : index st = n) by (destruct Hwf; lia).
    destruct (Z.eqb_spec (active st) 0) as [Hz|Hnz].
    + split; [|reflexivity].
      assert (Hnil : pending st = []).
      { destruct Hwf. apply length_zero_iff_nil. lia. }
      split; [|split]; simpl.
      * destruct Hwf. now split.
      * lia.
      * tauto.
    + split; [|reflexivity]. split; [done|]. split; [lia|].
      rewrite Hres. split; [discriminate|]. intros [_ Hnil].
      destruct Hwf. rewrite Hnil in *. simpl in *. lia.
  - destruct (launch_spec (n - index st) st Hwf) as (Hwf' & Hfull & Hr & Hrem & Hpend);
      [lia|].
    split; [|done]. split; [done|]. split; [done|].
    rewrite Hr, Hres. split; [discriminate|]. intros [Hidx Hnil].
    rewrite (Hpend Hnil) in Hidx. lia.
Qed.

Lemma length_filter_remove (l : list nat) i :
  NoDup l -> i ∈ l -> S (length (filter (fun j => j <> i) l)) = length l.
Proof.
  induction l as [|x l IH]; intros Hnd Hin; [inversion Hin|].
  apply NoDup_cons in Hnd as [Hx Hnd].
  destruct (decide (x = i)) as [->|Hne].
  - rewrite filter_cons_False by tauto. simpl. f_equal.
    clear IH Hin. induction l as [|y l IHl]; [reflexivity|].
    apply not_elem_of_cons in Hx as [Hne Hx]. apply NoDup_cons in Hnd as [_ Hnd].
    rewrite filter_cons_True by congruence. simpl. f_equal. auto.
  - rewrite filter_cons_True by done. simpl. f_equal.
    apply elem_of_cons in Hin as [?|Hin]; [congruence|auto].
Qed.

Lemma settle_inv i st :
  pmap_inv items limit mapper st -> i ∈ pending st ->
  pmap_inv items limit mapper (settle items limit mapper i st) /\
  S (remaining items (settle items limit mapper i st)) = remaining items st.
Proof.
  intros (Hwf & Hfull & Hres) Hin. unfold settle.
  match goal with |- context [next _ _ ?s] => set (st1 := s) end.
  destruct Hwf as [Hi Ha Hnd Hst Hlen Hr].
  pose proof (length_filter_remove (pending st) i Hnd Hin) as Hlenf.
  assert (Hwf1 : pmap_wf items mapper st1).
  { split; subst st1; simpl.
    - done.
    - lia.
    - now apply NoDup_filter.
    - intros j Hj. apply list_elem_of_filter in Hj as [_ Hj]. auto.
    - now rewrite length_insert.
    - intros j Hlt. destruct (decide (j = i)) as [->|Hne].
      + rewrite list_lookup_insert_eq by lia. f_equal.
        rewrite decide_True; [done|]. split; [auto|].
        rewrite list_elem_of_filter. tauto.
      + rewrite list_lookup_insert_ne by done. rewrite (Hr j Hlt). f_equal.
        repeat case_decide; try done.
        * exfalso. apply H0. destruct H as [Hlt' Hnotin]. split; [done|].
          rewrite list_elem_of_filter. tauto.
        * exfalso. apply H. destruct H0 as [Hlt' Hnotin]. split; [done|].
          rewrite list_elem_of_filter in Hnotin. tauto. }
  assert (Hres1 : resolved st1 = false).
  { subst st1. simpl. destruct (resolved st); [|done].
    destruct Hres as [Hres _]. destruct (Hres eq_refl) as [_ Hnil].
    rewrite Hnil in Hin. inversion Hin. }
  destruct (next_inv st1 Hwf1 Hres1) as [Hinv Hrem].
  split; [done|]. rewrite Hrem. unfold remaining. subst st1. simpl. lia.
Qed.

Lemma pmap_run_resolves choices st :
  1 <= limit -> pmap_inv items limit mapper st -> length choices = remaining items st ->
  pmap_inv items limit mapper (pmap_run items limit mapper choices st) /\
  resolved (pmap_run items limit mapper choices st) = true.
Proof.
  intros Hlimit. revert st.
  induction choices as [|c choices IH]; intros st Hinv Hlen; simpl.
  - split; [done|]. destruct Hinv as (Hwf & _ & Hres). apply Hres.
    unfold remaining in Hlen. simpl in Hlen. destruct Hwf.
    split; [lia|]. apply length_zero_iff_nil. lia.
  - assert (Hpend : pending st <> []).
    { intros Hnil. destruct Hinv as (Hwf & Hfull & _). destruct Hwf.
      unfold remaining in Hlen. rewrite Hnil in *. simpl in *. lia. }
    assert (Hlt : (c mod length (pending st) < length (pending st))%nat).
    { apply Nat.mod_upper_bound. now destruct (pending st). }
    apply lookup_lt_is_Some_2 in Hlt as [i Hi]. rewrite Hi.
    apply list_elem_of_lookup_2 in Hi.
    destruct (settle_inv i st Hinv Hi) as [Hinv' Hrem].
    apply IH; [done|]. simpl in Hlen. lia.
Qed.

Lemma pmap_start_inv :
  pmap_inv items limit mapper (pmap_start items limit) /\ remaining items (pmap_start (B:=B) items limit) = n.
Proof.
  unfold pmap_start.
  match goal with |- context [next _ _ ?s] => set (st0 := s) end.
  assert (Hwf : pmap_wf items mapper st0).
  { split; subst st0; simpl.
    - lia.
    - reflexivity.
    - apply NoDup_nil_2.
    - intros i Hin. inversion Hin.
    - apply length_replicate.
    - intros i Hlt. rewrite lookup_replicate_2 by done. now f_equal. }
  destruct (next_inv st0 Hwf eq_refl) as [Hinv Hrem].
  split; [done|]. rewrite Hrem. unfold remaining. subst st0. simpl. lia.
Qed.

Lemma pmap_run_from_start choices :
  1 <= limit -> length choices = length items ->
  resolved (pmap_run items limit mapper choices (pmap_start items limit)) = true /\
  length (results (pmap_run items limit mapper choices (pmap_start items limit)))
    = length items /\
  forall i a, items !! i = Some a ->
    results (pmap_run items limit mapper choices (pmap_start items limit)) !! i
    = Some (match mapper a i with Ret b => Some b | Throw _ => None end).
Proof.
  intros Hlimit Hlen.
  destruct pmap_start_inv as [Hinv Hrem].
  destruct (pmap_run_resolves choices _ Hlimit Hinv) as [(Hwf & _ & Hiff) Hres];
    [lia|].
  split; [done|]. destruct Hwf as [Hi Ha Hnd Hst Hlenr Hr].
  split; [done|]. intros i a Hia.
  destruct Hiff as [Hiff _]. destruct (Hiff Hres) as [Hidx Hnil].
  pose proof (lookup_lt_Some _ _ _ Hia) as Hlt.
  rewrite (Hr i Hlt). f_equal. rewrite decide_True.
  - unfold slot. now rewrite Hia.
  - rewrite Hnil. split; [lia|]. apply not_elem_of_nil.
Qed.

(** Every step of the event loop is a step of some run: the runs range
    over all the orders in which the mapper calls can settle. *)
Lemma pmap_step_run st st' :
  pmap_step items limit mapper st st' ->
  exists c, pmap_run items limit mapper [c] st = st'.
Proof.
  intros (i & Hin & ->). apply list_elem_of_lookup in Hin as [k Hk].
  exists k. simpl.
  rewrite Nat.mod_small by (eapply lookup_lt_Some; eauto).
  now rewrite Hk.
Qed.

(** C7, amended.  When [limit] is at least one, in whatever order the
    mapper calls settle, once each of them has settled the promise is
    resolved (it is never rejected) with a list as long as [items] whose
    slot [i] holds the value of the mapper call on item [i], or is empty
    when that call threw or was rejected. *)
Theorem mapWithConcurrency_resolves choices :
  1 <= limit -> length choices = length items ->
  resolved (pmap_run items limit mapper choices (pmap_start items limit)) = true /\
  length (results (pmap_run items limit mapper choices (pmap_start items limit)))
    = length items /\
  forall i a, items !! i = Some a ->
    results (pmap_run items limit mapper choices (pmap_start items limit)) !! i
    = Some (match mapper a i with Ret b => Some b | Throw _ => None end).
Proof. apply pmap_run_from_start. Qed.

(** With a positive limit the awaited value is the list of the mapper's
    outcomes, in the order of the items. *)
Lemma mapWithConcurrency_Some :
  1 <= limit ->
  mapWithConcurrency items limit mapper =
  Some (imap (fun i a => match mapper a i with Ret b => Some b | Throw _ => None end)
             items).
Proof.
  intros Hlimit. unfold mapWithConcurrency.
  destruct (pmap_run_from_start (replicate (length items) 0%nat) Hlimit)
    as (-> & Hlen & Hres); [apply length_replicate|].
  f_equal. apply list_eq. intros i.
  rewrite list_lookup_imap.
  destruct (items !! i) as [a|] eqn:E; simpl.
  - now apply Hres.
  - apply lookup_ge_None. apply lookup_ge_None in E. lia.
Qed.

End MapWithConcurrencyFacts.

Lemma mapWithConcurrency_resolves_witness :
  1 <= 2 /\
  length [1; 0; 0]%nat = length ["a"; "b"; "c"] /\
  resolved (pmap_run ["a"; "b"; "c"] 2 example_mapper [1; 0; 0]%nat
              (pmap_start ["a"; "b"; "c"] 2)) = true /\
  results (pmap_run ["a"; "b"; "c"] 2 example_mapper [1; 0; 0]%nat
             (pmap_start ["a"; "b"; "c"] 2)) = [Some "a!"; None; Some "c!"].
Proof.
  split; [lia|]. split; [reflexivity|]. split; [|reflexivity].
  exact (proj1 (mapWithConcurrency_resolves ["a"; "b"; "c"] 2 example_mapper
                  [1; 0; 0]%nat ltac:(lia) eq_refl)).
Defined.

(** C7 as stated fails for the limit zero: no mapper call is ever started,
    nothing is pending, and the promise is never resolved. *)
Lemma mapWithConcurrency_zero_limit_never_settles :
  pending (pmap_start (B:=string) ["a"] 0) = [] /\
  resolved (pmap_start (B:=string) ["a"] 0) = false /\
  (forall choices,
     pmap_run ["a"] 0 example_mapper choices (pmap_start ["a"] 0)
     = pmap_start ["a"] 0) /\
  mapWithConcurrency ["a"] 0 example_mapper = None.
Proof.
  split_and!; try reflexivity.
  intros choices. now destruct choices.
Qed.

(** ** The digest on the test vectors of the standard *)

Example sha1_abc : sha1 "abc" = "a9993e364706816aba3e25717850c26c9cd0d89d".
Proof. vm_compute. reflexivity. Qed.

Example sha1_empty : sha1 "" = "da39a3ee5e6b4b0d3255bfef95601890afd80709".
Proof. vm_compute. reflexivity. Qed.

Example sha1_two_blocks :
  sha1 "abcdbcdecdefdefgefghfghighijhijkijkljklmklmnlmnomnopnopq"
  = "84983e441c3bd26ebaae4aa1f95129e5e54670f1".
Proof. vm_compute. reflexivity. Qed.

(** ** [SimpleCache]: reading back what was written *)

Section SimpleCacheRoundTrip.
Import SimpleCache.
Context {V : Type}.
Implicit Types (c : SimpleCache.t V).

(** X1. Reading a key back after [set(key, value, ttlMs)]: the value
    written is returned when no expiry was recorded ([ttlMs] is zero, or
    the expiry time came out as zero) or when the current time is not past
    the expiry time [now + ttlMs]; otherwise the read misses.  This holds
    whatever the cache held before, also at capacity. *)
Theorem SimpleCache_get_after_set key v ttlMs now now' c :
  (get key now' (set key v ttlMs now c)).1 =
  if (ttlMs =? 0) || (now + ttlMs =? 0) || (now' <=? now + ttlMs)
  then Some v else None.
Proof.
  unfold get, set. cbn [map max].
  rewrite assoc_assoc_set, String.eqb_refl. cbn [expiresAt value].
  destruct (Z.eqb_spec ttlMs 0) as [->|Httl]; cbn [orb negb andb].
  - reflexivity.
  - destruct (Z.eqb_spec (now + ttlMs) 0) as [Hz|Hz]; cbn [orb negb andb]; [reflexivity|].
    destruct (Z.ltb_spec (now + ttlMs) now'), (Z.leb_spec now' (now + ttlMs));
      try lia; reflexivity.
Qed.

(** X2. [set] touches two entries at most: the one it writes and, when
    the cache is at capacity, the one inserted first.  Every other key
    reads as before. *)
Theorem SimpleCache_set_other_keys key key' v ttlMs now c :
  assoc key' (map (set key v ttlMs now c)) =
  if String.eqb key' key then
    Some {| value := v; expiresAt := if ttlMs =? 0 then 0 else now + ttlMs |}
  else if (max c <=? size c) && bool_decide (oldest c = Some key') then None
  else assoc key' (map c).
Proof.
  unfold set. cbn [map]. rewrite assoc_assoc_set.
  destruct (String.eqb key' key); [reflexivity|].
  destruct (max c <=? size c); cbn [andb]; [|reflexivity].
  destruct (oldest c) as [k0|] eqn:Hold.
  - rewrite assoc_assoc_delete. case_bool_decide as Hk.
    + injection Hk as ->. now rewrite String.eqb_refl.
    + destruct (String.eqb_spec key' k0) as [->|Hne]; [congruence|reflexivity].
  - now rewrite bool_decide_eq_false_2.
Qed.

Lemma assoc_set_present_length k v (o : list (string * entry V)) e :
  assoc k o = Some e -> length (assoc_set k v o) = length o.
Proof.
  induction o as [|[k0 e0] o IH]; simpl; [discriminate|].
  destruct (String.eqb k k0); simpl; [reflexivity|]. intros Ho. now rewrite IH.
Qed.

(** X3. Overwriting a key that is already present does not spare the
    oldest entry: when the cache is at capacity, [set] on a present key
    other than the oldest one removes the oldest entry all the same, and
    the cache ends up one entry smaller. *)
Theorem SimpleCache_set_present_evicts key v ttlMs now c k0 e :
  NoDup (fst <$> map c) -> max c <= size c ->
  oldest c = Some k0 -> k0 <> key -> assoc key (map c) = Some e ->
  assoc k0 (map (set key v ttlMs now c)) = None /\
  size (set key v ttlMs now c) = size c - 1.
Proof.
  intros Hnd Hfull Hold Hne He. split.
  - unfold set. cbn [map]. rewrite Hold.
    destruct (Z.leb_spec (max c) (size c)); [|lia].
    rewrite assoc_assoc_set. destruct (String.eqb_spec k0 key); [done|].
    now rewrite assoc_assoc_delete, String.eqb_refl.
  - unfold set, size in *. cbn [map]. rewrite Hold.
    destruct (Z.leb_spec (max c) (Z.of_nat (length (map c)))); [|lia].
    unfold oldest in Hold.
    destruct (map c) as [|[k1 e1] rest] eqn:Hmap; [discriminate|].
    injection Hold as ->. simpl. rewrite String.eqb_refl.
    apply NoDup_cons in Hnd as [Hnotin _].
    rewrite assoc_delete_notin by done.
    simpl in He. destruct (String.eqb_spec key k0) as [->|_]; [done|].
    rewrite (assoc_set_present_length _ _ _ _ He). lia.
Qed.

End SimpleCacheRoundTrip.

Lemma SimpleCache_set_present_evicts_witness :
  SimpleCache.max example_cache <= SimpleCache.size example_cache /\
  SimpleCache.oldest example_cache = Some "buf:a" /\
  assoc "buf:a" (SimpleCache.map (SimpleCache.set "buf:b" "B2" 0 70000 example_cache)) = None /\
  SimpleCache.size (SimpleCache.set "buf:b" "B2" 0 70000 example_cache) = 1.
Proof.
  split; [vm_compute; discriminate|]. split; [reflexivity|].
  refine (SimpleCache_set_present_evicts "buf:b" "B2" 0 70000 example_cache "buf:a"
            {| SimpleCache.value := "B"; SimpleCache.expiresAt := 0 |} _ _ _ _ _).
  - apply (bool_decide_unpack _). vm_compute. exact I.
  - vm_compute. discriminate.
  - reflexivity.
  - discriminate.
  - reflexivity.
Defined.

(** ** [swapImageExtension]: the alternative URL *)

Lemma append_nil_r (a : string) : a +:+ "" = a.
Proof. induction a as [|x a IH]; [reflexivity|]. rewrite append_String. now rewrite IH. Qed.

Lemma append_inj_l (a b c : string) : a +:+ b = a +:+ c -> b = c.
Proof.
  induction a as [|x a IH]; [now rewrite !append_empty|].
  rewrite !append_String. intros [= Heq]. auto.
Qed.

Lemma append_inj_r_length (a b r e : string) :
  String.length r = String.length e -> a +:+ r = b +:+ e -> r = e.
Proof.
  revert b. induction a as [|x a IH]; intros [|y b] Hlen Heq.
  - exact Heq.
  - rewrite append_empty in Heq. subst r. rewrite length_append in Hlen.
    simpl in Hlen. lia.
  - rewrite append_empty in Heq. subst e. rewrite length_append in Hlen.
    simpl in Hlen. lia.
  - rewrite !append_String in Heq. injection Heq as _ Heq. eauto.
Qed.

Lemma ci_prefix_length p s r :
  ci_prefix p s = Some r ->
  String.length s = (String.length p + String.length r)%nat.
Proof.
  revert s. induction p as [|a p IH]; intros s; simpl.
  - now intros [= ->].
  - destruct s as [|b s]; [discriminate|].
    destruct (ci_eqb a b); [|discriminate]. intros Hp. simpl. now rewrite (IH _ Hp).
Qed.

Lemma ci_prefix_no_question p s r :
  ci_prefix p s = Some r -> no_question s = true -> no_question r = true.
Proof.
  revert s. induction p as [|a p IH]; intros s; simpl.
  - now intros [= ->].
  - destruct s as [|b s]; [discriminate|].
    destruct (ci_eqb a b); [|discriminate]. intros Hp. simpl.
    intros Hq. apply andb_true_iff in Hq as [_ Hq]. eauto.
Qed.

Lemma no_question_append a b :
  no_question (a +:+ b) = no_question a && no_question b.
Proof.
  induction a as [|x a IH]; [reflexivity|]. rewrite append_String. simpl.
  rewrite IH. now rewrite andb_assoc.
Qed.

Lemma query_tail_no_question r :
  query_tail r = true -> no_question r = true -> r = "".
Proof.
  destruct r as [|c q]; [reflexivity|]. simpl.
  intros Hq Hn. apply andb_true_iff in Hq as [Hc _].
  apply andb_true_iff in Hn as [Hn _]. rewrite Hc in Hn. discriminate.
Qed.

(** In a URL without a question mark the only place where an extension
    can match is the very end. *)
Lemma replace_ext_plain ext new stem e :
  no_question (stem +:+ e) = true -> ci_prefix ext e = Some "" ->
  replace_ext ext new (stem +:+ e) = Some (stem +:+ new).
Proof.
  intros Hq He. induction stem as [|c stem IH].
  - rewrite !append_empty in *. destruct e as [|x e]; simpl; rewrite He; simpl;
      now rewrite append_nil_r.
  - rewrite !append_String in *. cbn [replace_ext].
    destruct (ci_prefix ext (String c (stem +:+ e))) as [r|] eqn:Hp.
    + destruct (query_tail r) eqn:Hr.
      * exfalso. pose proof (ci_prefix_no_question _ _ _ Hp Hq) as Hnq.
        rewrite (query_tail_no_question r Hr Hnq) in Hp.
        apply ci_prefix_length in Hp. apply ci_prefix_length in He.
        simpl in Hp. rewrite length_append in Hp. lia.
      * rewrite IH; [reflexivity|]. simpl in Hq. now apply andb_true_iff in Hq as [_ Hq].
    + rewrite IH; [reflexivity|]. simpl in Hq. now apply andb_true_iff in Hq as [_ Hq].
Qed.

Lemma replace_ext_plain_None ext new stem e :
  no_question (stem +:+ e) = true ->
  String.length e = String.length ext -> ci_prefix ext e = None ->
  replace_ext ext new (stem +:+ e) = None.
Proof.
  intros Hq Hlen He.
  destruct (replace_ext ext new (stem +:+ e)) as [alt|] eqn:Hr; [|reflexivity].
  exfalso. apply replace_ext_Some in Hr as (stem' & q & (r & Hs & Hp & Hqt) & _).
  assert (Hnr : no_question r = true).
  { rewrite Hs, no_question_append in Hq. now apply andb_true_iff in Hq as [_ Hq]. }
  pose proof (ci_prefix_no_question _ _ _ Hp Hnr) as Hnq.
  rewrite (query_tail_no_question q Hqt Hnq) in Hp.
  pose proof (ci_prefix_length _ _ _ Hp) as Hl. simpl in Hl.
  assert (r = e) as -> by (eapply append_inj_r_length; [|symmetry; exact Hs]; lia).
  congruence.
Qed.

(** X4. The alternative URL is never the URL itself, and it is as long as
    the URL: a retry always asks for another file. *)
Theorem swapImageExtension_differs (url alt : string) :
  swapImageExtension url = Some alt ->
  alt <> url /\ String.length alt = String.length url.
Proof.
  unfold swapImageExtension. destruct (String.eqb url ""); [discriminate|].
  assert (Hcase : forall ext new,
            String.length new = String.length ext ->
            (forall q, ci_prefix ext (new +:+ q) <> Some q) ->
            replace_ext ext new url = Some alt ->
            alt <> url /\ String.length alt = String.length url).
  { intros ext new Hlen Hdiff Hr.
    apply replace_ext_Some in Hr as (stem & q & (r & -> & Hp & _) & ->).
    split.
    - intros Heq. apply append_inj_l in Heq. subst r. now apply (Hdiff q).
    - apply ci_prefix_length in Hp. rewrite !length_append, Hp. lia. }
  destruct (replace_ext ".png" ".gif" url) as [a|] eqn:Hpng.
  - intros [= ->]. apply (Hcase ".png" ".gif"); [reflexivity| |exact Hpng].
    intros q. cbn. discriminate.
  - apply (Hcase ".gif" ".png"); [reflexivity|]. intros q. cbn. discriminate.
Qed.

Lemma swapImageExtension_differs_witness :
  swapImageExtension "https://cdn/floor/wood-01.PNG?v=2"
    = Some "https://cdn/floor/wood-01.gif?v=2" /\
  "https://cdn/floor/wood-01.gif?v=2" <> "https://cdn/floor/wood-01.PNG?v=2" /\
  String.length "https://cdn/floor/wood-01.gif?v=2"
    = String.length "https://cdn/floor/wood-01.PNG?v=2".
Proof.
  split; [reflexivity|].
  exact (swapImageExtension_differs "https://cdn/floor/wood-01.PNG?v=2" _ eq_refl).
Defined.

Lemma ci_png_not_gif e : ci_prefix ".png" e = Some "" -> ci_prefix ".gif" e = None.
Proof.
  destruct e as [|c0 [|c1 e]]; try (cbn; discriminate).
  - cbn. now destruct (ci_eqb "." c0).
  - cbn [ci_prefix]. destruct (ci_eqb "." c0); [|discriminate].
    unfold ci_eqb at 1. destruct (Ascii.eqb_spec (upper "p") (upper c1)) as [Hc|];
      [|discriminate].
    intros _. unfold ci_eqb at 1. rewrite <- Hc. reflexivity.
Qed.

Lemma ci_gif_not_png e : ci_prefix ".gif" e = Some "" -> ci_prefix ".png" e = None.
Proof.
  destruct (ci_prefix ".png" e) as [r|] eqn:Hp; [|reflexivity].
  intros Hg. pose proof (ci_prefix_length _ _ _ Hp) as H1.
  pose proof (ci_prefix_length _ _ _ Hg) as H2. simpl in H1, H2.
  destruct r; [|simpl in H1; lia]. apply ci_png_not_gif in Hp. congruence.
Qed.

Lemma ci_prefix_nonempty p e : ci_prefix p e = Some "" -> p <> "" -> e <> "".
Proof. destruct p, e; simpl; congruence. Qed.

Lemma swapImageExtension_plain_png stem e :
  no_question (stem +:+ e) = true -> ci_prefix ".png" e = Some "" ->
  swapImageExtension (stem +:+ e) = Some (stem +:+ ".gif").
Proof.
  intros Hq He. unfold swapImageExtension.
  destruct (String.eqb_spec (stem +:+ e) "") as [Hnil|_].
  - destruct stem, e; discriminate.
  - now rewrite (replace_ext_plain ".png" ".gif" stem e Hq He).
Qed.

Lemma swapImageExtension_plain_gif stem e :
  no_question (stem +:+ e) = true -> ci_prefix ".gif" e = Some "" ->
  swapImageExtension (stem +:+ e) = Some (stem +:+ ".png").
Proof.
  intros Hq He. unfold swapImageExtension.
  destruct (String.eqb_spec (stem +:+ e) "") as [Hnil|_].
  - destruct stem, e; discriminate.
  - rewrite (replace_ext_plain_None ".png" ".gif" stem e Hq).
    + now rewrite (replace_ext_plain ".gif" ".png" stem e Hq He).
    + apply ci_prefix_length in He. simpl in *. lia.
    + now apply ci_gif_not_png.
Qed.

(** X5. On a URL without a question mark that ends in .png written in any
    case, the alternative is the same URL ending in .gif in lower case, and
    the other way round; swapping twice gives the URL back with its
    extension in lower case. *)
Theorem swapImageExtension_plain (stem e : string) :
  no_question (stem +:+ e) = true ->
  (ci_prefix ".png" e = Some "" ->
   swapImageExtension (stem +:+ e) = Some (stem +:+ ".gif") /\
   swapImageExtension (stem +:+ ".gif") = Some (stem +:+ ".png")) /\
  (ci_prefix ".gif" e = Some "" ->
   swapImageExtension (stem +:+ e) = Some (stem +:+ ".png") /\
   swapImageExtension (stem +:+ ".png") = Some (stem +:+ ".gif")).
Proof.
  intros Hq.
  assert (Hstem : no_question stem = true).
  { rewrite no_question_append in Hq. now apply andb_true_iff in Hq as [Hq _]. }
  split; intros He; (split; [auto using swapImageExtension_plain_png,
                                        swapImageExtension_plain_gif|]).
  - apply swapImageExtension_plain_gif; [|reflexivity].
    rewrite no_question_append, Hstem. reflexivity.
  - apply swapImageExtension_plain_png; [|reflexivity].
    rewrite no_question_append, Hstem. reflexivity.
Qed.

Lemma swapImageExtension_plain_witness :
  no_question ("https://cdn/floor/wood-01" +:+ ".PNG") = true /\
  swapImageExtension ("https://cdn/floor/wood-01" +:+ ".PNG")
    = Some ("https://cdn/floor/wood-01" +:+ ".gif") /\
  swapImageExtension ("https://cdn/floor/wood-01" +:+ ".gif")
    = Some ("https://cdn/floor/wood-01" +:+ ".png").
Proof.
  split; [reflexivity|].
  exact (proj1 (swapImageExtension_plain "https://cdn/floor/wood-01" ".PNG" eq_refl)
           eq_refl).
Defined.

(** ** [mapWithConcurrency]: the number of calls in flight *)

Section MapWithConcurrencyBound.
Context {A B : Type}.
Variable items : list A.
Variable limit : Z.
Variable mapper : A -> nat -> exc B.

Lemma launch_bound fuel (st : pmap_state B) :
  active st <= Z.max 0 limit ->
  active (launch items limit fuel st) <= Z.max 0 limit.
Proof.
  revert st. induction fuel as [|fuel IH]; intros st Hb; simpl; [exact Hb|].
  destruct (Z.ltb_spec (active st) limit); simpl; [|exact Hb].
  destruct (index st <? length items)%nat; [|exact Hb].
  apply IH. simpl. lia.
Qed.

Lemma next_bound (st : pmap_state B) :
  active st <= Z.max 0 limit -> active (next items limit st) <= Z.max 0 limit.
Proof.
  intros Hb. unfold next.
  destruct ((length items <=? index st)%nat && (active st =? 0)); [exact Hb|].
  destruct (length items <=? index st)%nat; [exact Hb|]. now apply launch_bound.
Qed.

Lemma pmap_reachable_inv st :
  pmap_reachable items limit mapper st ->
  pmap_inv items limit mapper st /\ active st <= Z.max 0 limit.
Proof.
  unfold pmap_reachable. revert st. apply rtc_ind_r.
  - split; [apply pmap_start_inv|]. unfold pmap_start. apply next_bound. simpl. lia.
  - intros st st' _ (i & Hin & ->) [Hinv Hb].
    split; [now apply settle_inv|]. unfold settle. apply next_bound. simpl. lia.
Qed.

(** X9. At every moment of a call, the mapper calls in flight are the
    pending ones, there are never more of them than [limit] (none when
    [limit] is negative), and as long as an item has not been started
    there are no fewer than [limit]: a free slot is taken at once.  The
    items are started in the order of the list. *)
Theorem mapWithConcurrency_in_flight (st : pmap_state B) :
  pmap_reachable items limit mapper st ->
  active st = Z.of_nat (length (pending st)) /\
  active st <= Z.max 0 limit /\
  ((index st < length items)%nat -> limit <= active st) /\
  (forall i, i ∈ pending st -> (i < index st)%nat) /\
  (index st <= length items)%nat.
Proof.
  intros Hr. destruct (pmap_reachable_inv st Hr) as [(Hwf & Hfull & _) Hb].
  destruct Hwf. split_and!; auto.
Qed.

End MapWithConcurrencyBound.

Lemma mapWithConcurrency_in_flight_witness :
  pmap_reachable ["a"; "b"; "c"] 2 example_mapper
    (settle ["a"; "b"; "c"] 2 example_mapper 1 (pmap_start ["a"; "b"; "c"] 2)) /\
  pending (settle ["a"; "b"; "c"] 2 example_mapper 1 (pmap_start ["a"; "b"; "c"] 2))
    = [0; 2]%nat /\
  active (settle ["a"; "b"; "c"] 2 example_mapper 1 (pmap_start ["a"; "b"; "c"] 2))
    <= Z.max 0 2.
Proof.
  assert (Hr : pmap_reachable ["a"; "b"; "c"] 2 example_mapper
                 (settle ["a"; "b"; "c"] 2 example_mapper 1
                    (pmap_start ["a"; "b"; "c"] 2))).
  { apply rtc_once. exists 1%nat. split; [|reflexivity]. cbn. right. left. }
  split; [exact Hr|]. split; [reflexivity|].
  exact (proj1 (proj2 (mapWithConcurrency_in_flight _ _ _ _ Hr))).
Defined.

(** ** [auth] *)

Lemma skip_white_space_spec s :
  exists ws, s = ws +:+ skip_white_space s /\ all_white_space ws = true /\
    no_leading_space (skip_white_space s) = true.
Proof.
  induction s as [|c s (ws & Hs & Hws & Hno)]; [now exists ""|].
  cbn [skip_white_space]. destruct (is_white_space c) eqn:Hc.
  - exists (String c ws). rewrite append_String, <- Hs. cbn. now rewrite Hc, Hws.
  - exists "". cbn. now rewrite Hc.
Qed.

Lemma skip_white_space_no_leading s :
  no_leading_space s = true -> skip_white_space s = s.
Proof. destruct s as [|c s]; [reflexivity|]. cbn. now destruct (is_white_space c). Qed.

Lemma skip_white_space_all ws s :
  all_white_space ws = true -> skip_white_space (ws +:+ s) = skip_white_space s.
Proof.
  induction ws as [|c ws IH]; [reflexivity|]. cbn [all_white_space].
  intros Hw. apply andb_true_iff in Hw as [Hc Hw].
  rewrite append_String. cbn [skip_white_space]. rewrite Hc. auto.
Qed.

Lemma ci_prefix_split p s r :
  ci_prefix p s = Some r ->
  exists x, s = x +:+ r /\ ci_prefix p x = Some "".
Proof.
  revert s. induction p as [|a p IH]; intros s; cbn [ci_prefix].
  - intros [= ->]. now exists "".
  - destruct s as [|b s]; [discriminate|].
    destruct (ci_eqb a b) eqn:Hab; [|discriminate].
    intros Hp. destruct (IH _ Hp) as (x & -> & Hx).
    exists (String b x). split; [reflexivity|]. cbn. now rewrite Hab.
Qed.

Lemma ci_prefix_append p x r :
  ci_prefix p x = Some "" -> ci_prefix p (x +:+ r) = Some r.
Proof.
  revert x. induction p as [|a p IH]; intros x; cbn [ci_prefix].
  - now intros [= ->].
  - destruct x as [|b x]; [discriminate|]. rewrite append_String.
    destruct (ci_eqb a b); [|discriminate]. apply IH.
Qed.

(** X15. With a key configured, [auth] answers 401 to a request without
    an Authorization header or with an empty one, and lets a request
    through only when the header is the key itself, or the word Bearer in
    any case, then white space, then the key.  Without a key configured
    every request passes. *)
Theorem auth_accepts_only_key (key : string) :
  key <> "" ->
  auth (API_KEY_of (Some key)) None = Unauthorized /\
  auth (API_KEY_of (Some key)) (Some "") = Unauthorized /\
  (forall any, auth (API_KEY_of None) any = Next /\ auth (API_KEY_of (Some "")) any = Next) /\
  forall authorization,
    auth (API_KEY_of (Some key)) authorization = Next ->
    exists scheme,
      authorization = Some (scheme +:+ key) /\
      (scheme = "" \/
       exists word ws, scheme = word +:+ ws /\ ci_prefix "Bearer" word = Some "" /\
         ws <> "" /\ all_white_space ws = true).
Proof.
  intros Hkey.
  assert (Hapi : API_KEY_of (Some key) = Some key)
    by (unfold API_KEY_of; now destruct (String.eqb_spec key "")).
  rewrite !Hapi. unfold auth. destruct (String.eqb_spec key "") as [|_]; [done|].
  split; [destruct key; [done|reflexivity]|].
  split; [destruct key; [done|reflexivity]|].
  split; [intros any; split; reflexivity|].
  intros authorization.
  destruct authorization as [header|]; cycle 1.
  { intros Hnext. exfalso. destruct key; [done|discriminate]. }
  cbv beta iota zeta.
  destruct (String.eqb_spec (strip_bearer header) key) as [Htok|]; [intros _|discriminate].
  unfold strip_bearer in Htok.
  destruct (ci_prefix "Bearer" header) as [[|c rest]|] eqn:Hp;
    try (exists ""; rewrite append_empty; split; [congruence|now left]).
  destruct (is_white_space c) eqn:Hc;
    [|exists ""; rewrite append_empty; split; [congruence|now left]].
  destruct (ci_prefix_split _ _ _ Hp) as (word & -> & Hword).
  destruct (skip_white_space_spec rest) as (ws & Hrest & Hws & _).
  rewrite Htok in Hrest.
  exists (word +:+ String c ws). split.
  - rewrite append_assoc, append_String. now rewrite Hrest.
  - right. exists word, (String c ws). split; [reflexivity|]. split; [exact Hword|].
    split; [discriminate|]. cbn. now rewrite Hc, Hws.
Qed.

Lemma auth_accepts_only_key_witness :
  auth (API_KEY_of (Some "s3cret")) None = Unauthorized /\
  auth (API_KEY_of (Some "s3cret")) (Some "bearer   s3cret") = Next /\
  exists scheme, Some "bearer   s3cret" = Some (scheme +:+ "s3cret").
Proof.
  destruct (auth_accepts_only_key "s3cret" ltac:(discriminate))
    as (H401 & _ & _ & Honly).
  split; [exact H401|]. split; [reflexivity|].
  destruct (Honly (Some "bearer   s3cret") eq_refl) as (scheme & Hscheme & _).
  exists scheme. exact Hscheme.
Defined.

(** X16. The key presented with the Bearer scheme is accepted exactly
    when it does not start with white space: the white space after the
    word Bearer is removed greedily, and takes the start of such a key with
    it. *)
Theorem auth_bearer (key : string) :
  key <> "" ->
  (auth (API_KEY_of (Some key)) (Some ("Bearer " +:+ key)) = Next <->
   no_leading_space key = true) /\
  (no_leading_space key = true ->
   forall word ws, ci_prefix "Bearer" word = Some "" ->
     ws <> "" -> all_white_space ws = true ->
     auth (API_KEY_of (Some key)) (Some (word +:+ ws +:+ key)) = Next).
Proof.
  intros Hkey. unfold API_KEY_of. destruct (String.eqb_spec key "") as [|_]; [done|].
  unfold auth. destruct (String.eqb_spec key "") as [|_]; [done|].
  assert (Hstrip : forall word ws, ci_prefix "Bearer" word = Some "" ->
            ws <> "" -> all_white_space ws = true ->
            strip_bearer (word +:+ ws +:+ key) = skip_white_space key).
  { intros word ws Hword Hne Hws. unfold strip_bearer.
    rewrite (ci_prefix_append _ _ _ Hword).
    destruct ws as [|c ws]; [done|]. rewrite append_String.
    cbn [all_white_space] in Hws. apply andb_true_iff in Hws as [-> Hws].
    now apply skip_white_space_all. }
  split.
  - change ("Bearer " +:+ key) with ("Bearer" +:+ " " +:+ key).
    rewrite (Hstrip "Bearer" " " eq_refl ltac:(discriminate) eq_refl).
    destruct (String.eqb_spec (skip_white_space key) key) as [Heq|Hne].
    + split; [|reflexivity]. intros _.
      destruct (skip_white_space_spec key) as (_ & _ & _ & Hno). now rewrite Heq in Hno.
    + split; [discriminate|]. intros Hno. now rewrite skip_white_space_no_leading in Hne.
  - intros Hno word ws Hword Hne Hws. rewrite (Hstrip word ws Hword Hne Hws).
    rewrite (skip_white_space_no_leading _ Hno). now rewrite String.eqb_refl.
Qed.

Lemma auth_bearer_witness :
  auth (API_KEY_of (Some "s3cret")) (Some ("Bearer " +:+ "s3cret")) = Next /\
  auth (API_KEY_of (Some " s3cret")) (Some ("Bearer " +:+ " s3cret")) = Unauthorized.
Proof.
  split.
  - exact (proj2 (proj1 (auth_bearer "s3cret" ltac:(discriminate))) eq_refl).
  - reflexivity.
Defined.

(** ** [parseDataUrl] and [fetchBuffer] *)

Section AssetFetchFacts.
Variable base64 : string -> Buffer.
Variable CACHE_TTL_MS : Z.

Lemma until_semicolon_spec s :
  s = (until_semicolon s).1 +:+ (until_semicolon s).2 /\
  no_semicolon (until_semicolon s).1 = true /\
  ((until_semicolon s).2 = "" \/ exists r, (until_semicolon s).2 = String ";" r).
Proof.
  induction s as [|c s (Hs & Hno & Hrest)]; [now split_and!; [..|left]|].
  cbn [until_semicolon]. destruct (Ascii.eqb_spec c ";") as [->|Hc].
  - split_and!; [reflexivity..|right; eauto].
  - destruct (until_semicolon s) as [taken others]. cbn [fst snd] in *.
    split_and!; [now rewrite append_String, <- Hs| |exact Hrest].
    cbn. rewrite Hno. now destruct (Ascii.eqb_spec c ";").
Qed.

Lemma until_semicolon_append mime r :
  no_semicolon mime = true ->
  until_semicolon (mime +:+ String ";" r) = (mime, String ";" r).
Proof.
  induction mime as [|c mime IH]; [reflexivity|]. cbn [no_semicolon].
  intros Hno. apply andb_true_iff in Hno as [Hc Hno].
  rewrite append_String. cbn [until_semicolon].
  destruct (Ascii.eqb c ";"); [discriminate|]. now rewrite (IH Hno).
Qed.

Lemma parseDataUrl_accepts scheme mime marker body :
  ci_prefix "data:" scheme = Some "" ->
  mime <> "" -> no_semicolon mime = true ->
  ci_prefix ";base64," marker = Some "" ->
  no_line_terminator body = true ->
  parseDataUrl base64 (scheme +:+ mime +:+ marker +:+ body) = Some (base64 body).
Proof.
  intros Hs Hmime Hno Hm Hbody. unfold parseDataUrl.
  rewrite (ci_prefix_append _ _ _ Hs).
  destruct marker as [|m0 marker]; [discriminate|].
  assert (m0 = ";"%char) as ->.
  { cbn in Hm. unfold ci_eqb at 1 in Hm.
    destruct (Ascii.eqb_spec (upper ";") (upper m0)) as [Hu|]; [|discriminate].
    clear -Hu. revert Hu.
    destruct m0 as [[] [] [] [] [] [] [] []]; vm_compute; congruence. }
  rewrite append_String, (until_semicolon_append _ _ Hno), <- append_String.
  destruct (String.eqb_spec mime ""); [done|].
  now rewrite (ci_prefix_append _ _ _ Hm), Hbody.
Qed.

(** X17. [parseDataUrl] returns a buffer exactly for the strings made of
    the scheme data and a colon (in any case), a media type that is not
    empty and holds no semicolon, the text ;base64, (in any case) and a
    body without line terminator; the buffer is the decoded body.  A data
    URL with a parameter before base64, or without base64, gives [null]. *)
Theorem parseDataUrl_shape (dataUrl : string) (buf : Buffer) :
  parseDataUrl base64 dataUrl = Some buf <->
  exists scheme mime marker body,
    dataUrl = scheme +:+ mime +:+ marker +:+ body /\
    ci_prefix "data:" scheme = Some "" /\
    mime <> "" /\ no_semicolon mime = true /\
    ci_prefix ";base64," marker = Some "" /\
    no_line_terminator body = true /\
    buf = base64 body.
Proof.
  split.
  - unfold parseDataUrl.
    destruct (ci_prefix "data:" dataUrl) as [r|] eqn:Hscheme; [|discriminate].
    destruct (ci_prefix_split _ _ _ Hscheme) as (scheme & -> & Hs).
    destruct (until_semicolon_spec r) as (Hr & Hno & _).
    destruct (until_semicolon r) as [mime rest]. cbn [fst snd] in *.
    destruct (String.eqb_spec mime "") as [|Hmime]; [discriminate|].
    destruct (ci_prefix ";base64," rest) as [body|] eqn:Hmarker; [|discriminate].
    destruct (ci_prefix_split _ _ _ Hmarker) as (marker & -> & Hm).
    destruct (no_line_terminator body) eqn:Hbody; [|discriminate].
    intros [= <-]. exists scheme, mime, marker, body. now rewrite Hr.
  - intros (scheme & mime & marker & body & -> & Hs & Hmime & Hno & Hm & Hbody & ->).
    now apply parseDataUrl_accepts.
Qed.

Lemma prefix_append (p x : string) : String.prefix p (p +:+ x) = true.
Proof.
  induction p as [|a p IH]; [now destruct x|].
  rewrite append_String. cbn [String.prefix]. now destruct (ascii_dec a a).
Qed.

Lemma fetchBuffer_start_hit url buf ttlMs t0 t t' (c : SimpleCache.t Buffer) :
  ttlMs = 0 \/ t <= t0 + ttlMs ->
  fetchBuffer_start base64 CACHE_TTL_MS url t t'
    (SimpleCache.set ("buf:" +:+ url) buf ttlMs t0 c)
  = (Settled (Ret buf), SimpleCache.set ("buf:" +:+ url) buf ttlMs t0 c).
Proof.
  intros Hlive. unfold fetchBuffer_start, SimpleCache.get.
  assert (Hentry : assoc ("buf:" +:+ url)
                     (SimpleCache.map (SimpleCache.set ("buf:" +:+ url) buf ttlMs t0 c))
                   = Some {| SimpleCache.value := buf;
                             SimpleCache.expiresAt :=
                               if ttlMs =? 0 then 0 else t0 + ttlMs |}).
  { unfold SimpleCache.set. cbn [SimpleCache.map].
    now rewrite assoc_assoc_set, String.eqb_refl. }
  rewrite Hentry. cbn [SimpleCache.expiresAt SimpleCache.value].
  destruct (Z.eqb_spec ttlMs 0) as [->|Httl]; [reflexivity|].
  destruct Hlive as [?|Hle]; [done|].
  destruct (Z.ltb_spec (t0 + ttlMs) t); [lia|]. now rewrite andb_false_r.
Qed.

(** X18. A URL that starts with data: never reaches the network.  When
    it is well formed and not in the cache, [fetchBuffer] settles at once
    with the decoded body and stores it, and as long as the entry has not
    expired a second call is answered from the cache with the same buffer.
    When [parseDataUrl] gives [null], the promise is rejected with
    INVALID_DATA_URL and nothing is stored.  The test is on the lower-case
    scheme: written otherwise, the URL is requested from the network. *)
Theorem fetchBuffer_data_url (mime marker body : string) (now now' t t' : Z)
    (c : SimpleCache.t Buffer) :
  mime <> "" -> no_semicolon mime = true ->
  ci_prefix ";base64," marker = Some "" ->
  no_line_terminator body = true ->
  (SimpleCache.get ("buf:" +:+ "data:" +:+ mime +:+ marker +:+ body) now c).1 = None ->
  (exists c',
     fetchBuffer_start base64 CACHE_TTL_MS ("data:" +:+ mime +:+ marker +:+ body)
       now now' c = (Settled (Ret (base64 body)), c') /\
     (CACHE_TTL_MS = 0 \/ t <= now' + CACHE_TTL_MS ->
      fetchBuffer_start base64 CACHE_TTL_MS ("data:" +:+ mime +:+ marker +:+ body)
        t t' c' = (Settled (Ret (base64 body)), c'))) /\
  (forall url,
     String.prefix "data:" url = true -> parseDataUrl base64 url = None ->
     (SimpleCache.get ("buf:" +:+ url) now c).1 = None ->
     fetchBuffer_start base64 CACHE_TTL_MS url now now' c
     = (Settled (Throw "INVALID_DATA_URL"), (SimpleCache.get ("buf:" +:+ url) now c).2)) /\
  (forall url,
     String.prefix "data:" url = false ->
     (SimpleCache.get ("buf:" +:+ url) now c).1 = None ->
     fetchBuffer_start base64 CACHE_TTL_MS url now now' c
     = (Requested, (SimpleCache.get ("buf:" +:+ url) now c).2)).
Proof.
  intros Hmime Hno Hm Hbody Hmiss. split; [|split].
  - pose proof (parseDataUrl_accepts "data:" mime marker body eq_refl Hmime Hno Hm Hbody)
      as Hparse.
    unfold fetchBuffer_start at 1.
    destruct (SimpleCache.get _ now c) as [[buf|] c1]; [discriminate|].
    rewrite prefix_append, Hparse. eexists. split; [reflexivity|].
    apply fetchBuffer_start_hit.
  - intros url Hpre Hnull Hmiss'. unfold fetchBuffer_start.
    destruct (SimpleCache.get ("buf:" +:+ url) now c) as [[buf|] c1]; [discriminate|].
    now rewrite Hpre, Hnull.
  - intros url Hpre Hmiss'. unfold fetchBuffer_start.
    destruct (SimpleCache.get ("buf:" +:+ url) now c) as [[buf|] c1]; [discriminate|].
    now rewrite Hpre.
Qed.

(** X19. A response with a status below 400 (a redirection included)
    fulfils the promise with the body and stores it: as long as the entry
    has not expired, asking for the same URL again on that cache is
    answered from it, without a request.  A response with a status of 400 or
    more, or a failed request, rejects the promise and leaves the cache as
    it is. *)
Theorem fetchBuffer_caches_success (url : string) (o : http_outcome) (now : Z)
    (c : SimpleCache.t Buffer) :
  match o with
  | Response statusCode body =>
      if 400 <=? statusCode then
        fetchBuffer_settle CACHE_TTL_MS url o now c
        = (Throw ("HTTP " +:+ NumberToString statusCode +:+ " for " +:+ url), c)
      else
        (fetchBuffer_settle CACHE_TTL_MS url o now c).1 = Ret body /\
        forall t t',
          CACHE_TTL_MS = 0 \/ t <= now + CACHE_TTL_MS ->
          fetchBuffer_start base64 CACHE_TTL_MS url t t'
            (fetchBuffer_settle CACHE_TTL_MS url o now c).2
          = (Settled (Ret body), (fetchBuffer_settle CACHE_TTL_MS url o now c).2)
  | RequestError message =>
      fetchBuffer_settle CACHE_TTL_MS url o now c = (Throw message, c)
  end.
Proof.
  destruct o as [statusCode body|message]; [|reflexivity].
  unfold fetchBuffer_settle.
  destruct (Z.leb_spec 400 statusCode) as [Hge|Hlt].
  - destruct (Z.eqb_spec statusCode 0); [lia|reflexivity].
  - rewrite andb_false_r. cbn [fst snd]. split; [reflexivity|].
    intros t t' Hlive. now apply fetchBuffer_start_hit.
Qed.

End AssetFetchFacts.

Lemma parseDataUrl_shape_witness :
  parseDataUrl example_base64 "data:image/png;base64,iVBORw0KGgo=" = Some "iVBORw0KGgo=" /\
  parseDataUrl example_base64 "data:image/png;charset=utf-8;base64,iVBORw0KGgo=" = None /\
  exists scheme mime marker body,
    "data:image/png;base64,iVBORw0KGgo=" = scheme +:+ mime +:+ marker +:+ body /\
    mime <> "" /\ no_semicolon mime = true.
Proof.
  split; [reflexivity|]. split; [reflexivity|].
  destruct (proj1 (parseDataUrl_shape example_base64
                     "data:image/png;base64,iVBORw0KGgo=" "iVBORw0KGgo=") eq_refl)
    as (scheme & mime & marker & body & Hurl & _ & Hmime & Hno & _).
  exists scheme, mime, marker, body. auto.
Defined.

Lemma fetchBuffer_data_url_witness :
  (SimpleCache.get ("buf:" +:+ "data:" +:+ "image/png" +:+ ";base64," +:+ "iVBORw0KGgo=")
     1000 (SimpleCache.new (V:=Buffer) 1000)).1 = None /\
  exists c',
    fetchBuffer_start example_base64 60000
      ("data:" +:+ "image/png" +:+ ";base64," +:+ "iVBORw0KGgo=")
      1000 1000 (SimpleCache.new 1000) = (Settled (Ret (example_base64 "iVBORw0KGgo=")), c').
Proof.
  split; [reflexivity|].
  destruct (proj1 (fetchBuffer_data_url example_base64 60000
                     "image/png" ";base64," "iVBORw0KGgo=" 1000 1000 2000 2000
                     (SimpleCache.new 1000) ltac:(discriminate) eq_refl eq_refl eq_refl
                     eq_refl))
    as (c' & Hstart & _).
  exists c'. exact Hstart.
Defined.


(** ** Conversions that throw *)

Lemma json_nested_ind (P : json -> Prop) :
  P JNull -> (forall b, P (JBool b)) -> (forall z, P (JNum z)) ->
  (forall s, P (JStr s)) ->
  (forall items, Forall P items -> P (JArr items)) ->
  (forall props, P (JObj props)) ->
  forall v, P v.
Proof.
  intros Hnull Hbool Hnum Hstr Harr Hobj.
  fix IH 1. intros [| b | z | s | items | props].
  - exact Hnull.
  - apply Hbool.
  - apply Hnum.
  - apply Hstr.
  - apply Harr. induction items as [|x items IHitems]; constructor.
    + apply IH.
    + exact IHitems.
  - apply Hobj.
Qed.

Lemma throws_bind {X Y} (m : exc X) (k : X -> exc Y) :
  throws (exc_bind m k) =
  match m with
  | Ret x => throws (k x)
  | Throw _ => true
  end.
Proof. now destruct m. Qed.

Lemma throws_bind_Ret {X Y} (m : exc X) (g : X -> Y) :
  throws (exc_bind m (fun x => Ret (g x))) = throws m.
Proof. now destruct m. Qed.

Lemma throws_false {X} (m : exc X) : throws m = false -> exists x, m = Ret x.
Proof. destruct m; [eauto|discriminate]. Qed.

Lemma throws_exc_map {X Y} (f : X -> exc Y) (l : list X) :
  throws (exc_map f l) = existsb (fun x => throws (f x)) l.
Proof.
  induction l as [|x l IH]; [reflexivity|]. cbn [exc_map existsb].
  destruct (f x); cbn [exc_bind throws orb]; [|reflexivity].
  rewrite <- IH. now destruct (exc_map f l).
Qed.

(** A conversion throws on the unprintable values, with the message of a
    [TypeError], and returns on all others. *)
Lemma ToString_cases v :
  if unprintable v then ToString v = Throw "TypeError"
  else exists s, ToString v = Ret s.
Proof.
  induction v as [| [] | z | s | items IH | props] using json_nested_ind;
    cbn [unprintable ToString]; eauto.
  - induction IH as [|x items Hx _ IHitems]; cbn [existsb join_elements]; [eauto|].
    destruct (unprintable x) eqn:Ex; cbn [orb].
    + destruct x; try discriminate; now rewrite Hx.
    + assert (Hsx : exists sx, match x with JNull => Ret "" | _ => ToString x end = Ret sx)
        by (destruct x; eauto).
      destruct Hsx as [sx ->]. cbn [exc_bind].
      destruct items as [|y items]; [cbn; eauto|].
      destruct (existsb unprintable (y :: items)).
      * now rewrite IHitems.
      * destruct IHitems as [sr ->]. cbn [exc_bind]. eauto.
  - destruct (assoc "toString" props) as [x|].
    + now rewrite bool_decide_eq_true_2.
    + rewrite bool_decide_eq_false_2; [eauto|]. intros [x Hx]. discriminate.
Qed.

Lemma throws_ToString v : throws (ToString v) = unprintable v.
Proof.
  pose proof (ToString_cases v) as H. destruct (unprintable v).
  - now rewrite H.
  - now destruct H as [s ->].
Qed.

Lemma ToString_printable v : unprintable v = false -> exists s, ToString v = Ret s.
Proof. intros H. pose proof (ToString_cases v) as Hc. now rewrite H in Hc. Qed.

Lemma ToString_unprintable v : unprintable v = true -> ToString v = Throw "TypeError".
Proof. intros H. pose proof (ToString_cases v) as Hc. now rewrite H in Hc. Qed.

Lemma ToString_Throw v e : ToString v = Throw e -> e = "TypeError" /\ unprintable v = true.
Proof.
  intros He. pose proof (ToString_cases v) as Hc. destruct (unprintable v).
  - split; [congruence|reflexivity].
  - destruct Hc as [s Hs]. congruence.
Qed.

Lemma throws_String_ (v : jsval) : throws (String_ v) = unprintable_val v.
Proof. destruct v as [w|]; [apply throws_ToString|reflexivity]. Qed.

Section NumberConversion.
Context `{Runtime}.

Lemma ToNumber_cases v :
  if unprintable v then ToNumber v = Throw "TypeError"
  else exists n, ToNumber v = Ret n.
Proof.
  pose proof (ToString_cases v) as Hs.
  destruct v as [| [] | z | s | items | props]; cbn [unprintable ToNumber] in *; eauto.
  - destruct (existsb unprintable items); [now rewrite Hs|].
    destruct Hs as [s ->]. cbn. eauto.
  - destruct (bool_decide _); [now rewrite Hs|].
    destruct Hs as [s ->]. cbn. eauto.
Qed.

Lemma throws_ToNumber v : throws (ToNumber v) = unprintable v.
Proof.
  pose proof (ToNumber_cases v) as Hc. destruct (unprintable v).
  - now rewrite Hc.
  - now destruct Hc as [n ->].
Qed.

Lemma ToNumber_printable v : unprintable v = false -> exists n, ToNumber v = Ret n.
Proof. intros Hp. pose proof (ToNumber_cases v) as Hc. now rewrite Hp in Hc. Qed.

Lemma ToNumber_Throw v e : ToNumber v = Throw e -> e = "TypeError" /\ unprintable v = true.
Proof.
  intros He. pose proof (ToNumber_cases v) as Hc. destruct (unprintable v).
  - split; [congruence|reflexivity].
  - destruct Hc as [s Hs]. congruence.
Qed.

Lemma throws_Number_or (a : jsval) b : throws (Number_or a b) = unprintable_or a.
Proof.
  destruct a as [w|]; [|reflexivity]. cbn [Number_or unprintable_or].
  destruct (truthy w); [apply throws_ToNumber|reflexivity].
Qed.

End NumberConversion.

Lemma unprintable_or_else (a : jsval) (b : json) :
  unprintable b = false -> unprintable (or_else a b) = unprintable_or a.
Proof.
  intros Hb. destruct a as [w|]; [|exact Hb]. cbn [or_else unprintable_or].
  now destruct (truthy w).
Qed.

Lemma unprintable_truthy v : unprintable v = true -> truthy v = true.
Proof. now destruct v. Qed.

Lemma unprintable_or_val (a : jsval) : unprintable_or a = unprintable_val a.
Proof.
  destruct a as [w|]; [|reflexivity]. cbn.
  destruct (unprintable w) eqn:E; [|apply andb_false_r].
  now rewrite (unprintable_truthy w E).
Qed.

(** ** The fingerprint reads a payload through [payload_shape] *)

Lemma view_record fs o : view (Record_ fs) (JObj o) = JObj (view_fields o fs).
Proof. reflexivity. Qed.

Lemma shape_of_Some_elem k sh fs : shape_of k fs = Some sh -> (k, sh) ∈ fs.
Proof.
  induction fs as [|[k' s'] fs IH]; simpl; [discriminate|].
  destruct (String.eqb_spec k k') as [->|Hne].
  - intros [= ->]. left.
  - intros H. right. auto.
Qed.

Lemma shape_of_None_elem k sh fs : shape_of k fs = None -> (k, sh) ∉ fs.
Proof.
  induction fs as [|[k' s'] fs IH]; simpl; intros H Hin.
  - inversion Hin.
  - destruct (String.eqb_spec k k') as [->|Hne]; [discriminate|].
    apply elem_of_cons in Hin as [[= -> ->]|Hin]; [congruence|].
    now apply IH.
Qed.

Lemma wf_record_cons k s fs :
  wf_shape (Record_ ((k, s) :: fs)) = true ->
  shape_of k fs = None /\ wf_shape s = true /\ wf_shape (Record_ fs) = true.
Proof.
  simpl. destruct (shape_of k fs); [discriminate|].
  intros H. apply andb_true_iff in H. tauto.
Qed.

Lemma wf_shape_field k sh fs :
  wf_shape (Record_ fs) = true -> shape_of k fs = Some sh -> wf_shape sh = true.
Proof.
  induction fs as [|[k' s'] fs IH]; [discriminate|].
  intros Hwf. apply wf_record_cons in Hwf as (_ & Hs & Hfs). simpl.
  destruct (String.eqb k k'); [intros [= <-]; exact Hs|auto].
Qed.

(** The view of an object is determined by the properties the shape lists. *)
Lemma view_fields_ext o o' fs :
  (forall k s, (k, s) ∈ fs ->
     match assoc k o with Some x => [(k, view s x)] | None => [] end =
     match assoc k o' with Some x => [(k, view s x)] | None => [] end) ->
  view_fields o fs = view_fields o' fs.
Proof.
  induction fs as [|[k s] fs IH]; intros H; simpl; [reflexivity|].
  unfold view_fields in *. simpl. f_equal.
  - apply (H k s). left.
  - apply IH. intros k' s' Hin. apply H. now right.
Qed.

Lemma view_fields_same_assoc o o' fs :
  (forall k s, (k, s) ∈ fs -> assoc k o = assoc k o') ->
  view_fields o fs = view_fields o' fs.
Proof.
  intros H. apply view_fields_ext. intros k s Hin. now rewrite (H k s Hin).
Qed.

Lemma coerced_view_object o o' :
  (is_Some (assoc "toString" o) <-> is_Some (assoc "toString" o')) ->
  coerced_view (JObj o) = coerced_view (JObj o').
Proof.
  intros Hiff. cbn [coerced_view].
  destruct (assoc "toString" o) as [x|], (assoc "toString" o') as [x'|];
    try reflexivity; exfalso.
  - destruct (proj1 Hiff ltac:(eauto)) as [y Hy]. discriminate.
  - destruct (proj2 Hiff ltac:(eauto)) as [y Hy]. discriminate.
Qed.

Lemma view_differ_only sh a b :
  differ_only sh a b -> wf_shape sh = true -> view sh a = view sh b.
Proof.
  induction 1 as [sh a|sh a b _ IH|sh a b c _ IH1 _ IH2|sh o o' Hraw Hnd Hp
                  |fs k v o Hk|fs k o Hk|fs k sh v v' o Hk Ho _ IH
                  |sh l1 v v' l2 _ IH|fs l l'|sh o o'
                  |k v o Hk|k o Hk|v o Hts|l1 v v' l2 _ IH]; intros Hwf.
  - reflexivity.
  - symmetry. auto.
  - rewrite IH1, IH2; auto.
  - destruct sh as [| |fs|e]; [done| | |reflexivity].
    + apply coerced_view_object. now rewrite (assoc_perm "toString" o o' Hnd Hp).
    + rewrite !view_record. f_equal. apply view_fields_same_assoc.
      intros k s _. now apply assoc_perm.
  - rewrite !view_record. f_equal. apply view_fields_same_assoc.
    intros k' s Hin. rewrite assoc_assoc_set.
    destruct (String.eqb_spec k' k) as [->|Hne]; [|reflexivity].
    now apply shape_of_None_elem in Hin.
  - rewrite !view_record. f_equal. apply view_fields_same_assoc.
    intros k' s Hin. rewrite assoc_assoc_delete.
    destruct (String.eqb_spec k' k) as [->|Hne]; [|reflexivity].
    now apply shape_of_None_elem in Hin.
  - rewrite !view_record. f_equal. apply view_fields_ext.
    intros k' s Hin. rewrite assoc_assoc_set.
    destruct (String.eqb_spec k' k) as [->|Hne]; [|reflexivity].
    rewrite Ho.
    assert (s = sh) as ->.
    { clear -Hwf Hk Hin. induction fs as [|[k0 s0] fs IHfs]; [inversion Hin|].
      apply wf_record_cons in Hwf as (Hfresh & _ & Hfs). simpl in Hk.
      apply elem_of_cons in Hin as [[= <- <-]|Hin].
      - rewrite String.eqb_refl in Hk. congruence.
      - destruct (String.eqb_spec k k0) as [->|Hne]; [|auto].
        now apply shape_of_None_elem in Hin. }
    rewrite IH; [reflexivity|]. eapply wf_shape_field; eauto.
  - simpl. rewrite !map_app. simpl. rewrite IH; auto.
  - reflexivity.
  - reflexivity.
  - apply coerced_view_object. rewrite assoc_assoc_set.
    now destruct (String.eqb_spec "toString" k) as [<-|_].
  - apply coerced_view_object. rewrite assoc_assoc_delete.
    now destruct (String.eqb_spec "toString" k) as [<-|_].
  - apply coerced_view_object. rewrite assoc_assoc_set. cbn. split; eauto.
  - cbn [view coerced_view] in *. rewrite !map_app. cbn [map].
    now rewrite (IH eq_refl).
Qed.

Lemma assoc_view_fields k o fs :
  assoc k (view_fields o fs) =
  match shape_of k fs with
  | Some s => view s <$> assoc k o
  | None => None
  end.
Proof.
  induction fs as [|[k0 s0] fs IH]; [reflexivity|].
  unfold view_fields in *. simpl.
  destruct (assoc k0 o) as [x|] eqn:E; simpl.
  - destruct (String.eqb_spec k k0) as [->|Hne]; [now rewrite E|exact IH].
  - destruct (String.eqb_spec k k0) as [->|Hne]; [|exact IH].
    rewrite IH, E. now destruct (shape_of k0 fs).
Qed.

Lemma prop_view k fs v :
  prop k (view (Record_ fs) v) =
  match shape_of k fs with
  | Some s => view s <$> prop k v
  | None => None
  end.
Proof.
  destruct v; simpl; try (now destruct (shape_of k fs)).
  apply assoc_view_fields.
Qed.

Lemma prop_view_fields k o fs :
  prop k (JObj (view_fields o fs)) =
  match shape_of k fs with
  | Some s => view s <$> prop k (JObj o)
  | None => None
  end.
Proof. apply assoc_view_fields. Qed.

Lemma fmap_view_Raw (x : jsval) : view Raw <$> x = x.
Proof. now destruct x. Qed.

Lemma truthy_coerced_view v : truthy (coerced_view v) = truthy v.
Proof. now destruct v. Qed.

Lemma truthy_view sh v : truthy (view sh v) = truthy v.
Proof. destruct sh, v; reflexivity. Qed.

Lemma isArray_view sh (v : jsval) : sh <> Raw -> isArray (view sh <$> v) = isArray v.
Proof. intros Hsh. destruct v as [[]|]; destruct sh; try reflexivity; done. Qed.

Lemma exc_map_map {A B C} (f : B -> exc C) (g : A -> B) l :
  exc_map f (map g l) = exc_map (fun a => f (g a)) l.
Proof. induction l as [|a l IH]; simpl; [reflexivity|]. now rewrite IH. Qed.

Lemma exc_map_ext {A B} (f g : A -> exc B) l :
  (forall a, f a = g a) -> exc_map f l = exc_map g l.
Proof. intros H. induction l as [|a l IH]; simpl; [reflexivity|]. now rewrite H, IH. Qed.

Lemma exc_bind_ext {A B} (m : exc A) (k k' : A -> exc B) :
  (forall a, k a = k' a) -> exc_bind m k = exc_bind m k'.
Proof. intros Hk. destruct m; [apply Hk|reflexivity]. Qed.

Lemma exc_bind_ext' {A B} (m m' : exc A) (k : A -> exc B) :
  m = m' -> exc_bind m k = exc_bind m' k.
Proof. now intros ->. Qed.

(** *** A conversion sees a value through [coerced_view] *)

Lemma coerced_view_null v : coerced_view v = JNull -> v = JNull.
Proof. now destruct v. Qed.

Lemma ToString_coerced_view v : ToString (coerced_view v) = ToString v.
Proof.
  induction v as [| [] | z | s | items IH | props] using json_nested_ind;
    try reflexivity.
  - cbn [coerced_view ToString].
    induction IH as [|x items Hx _ IHitems]; [reflexivity|].
    cbn [map join_elements].
    assert (Hhead : match coerced_view x with
                    | JNull => Ret "" | _ => ToString (coerced_view x) end
                    = match x with JNull => Ret "" | _ => ToString x end).
    { destruct x; try reflexivity; exact Hx. }
    rewrite Hhead, IHitems. now destruct items.
  - cbn [coerced_view ToString]. now destruct (assoc "toString" props).
Qed.

Section CoercedView.
Context `{Runtime}.

Lemma ToNumber_coerced_view v : ToNumber (coerced_view v) = ToNumber v.
Proof.
  pose proof (ToString_coerced_view v) as Hs.
  destruct v; try reflexivity; cbn [coerced_view ToNumber] in *; now rewrite Hs.
Qed.

Lemma or_else_coerced (a : jsval) (b : json) :
  or_else (view Coerced <$> a) b =
  match a with
  | Some w => if truthy w then coerced_view w else b
  | None => b
  end.
Proof. destruct a as [w|]; [|reflexivity]. cbn. now rewrite truthy_coerced_view. Qed.

Lemma ToString_or_else_coerced (a : jsval) (b : json) :
  ToString (or_else (view Coerced <$> a) b) = ToString (or_else a b).
Proof.
  rewrite or_else_coerced. destruct a as [w|]; [|reflexivity]. cbn [or_else].
  destruct (truthy w); [apply ToString_coerced_view|reflexivity].
Qed.

Lemma ToNumber_or_else_coerced (a : jsval) (b : json) :
  ToNumber (or_else (view Coerced <$> a) b) = ToNumber (or_else a b).
Proof.
  rewrite or_else_coerced. destruct a as [w|]; [|reflexivity]. cbn [or_else].
  destruct (truthy w); [apply ToNumber_coerced_view|reflexivity].
Qed.

Lemma ToNumber_nullish_else_coerced (a : jsval) (b : json) :
  ToNumber (nullish_else (view Coerced <$> a) b) = ToNumber (nullish_else a b).
Proof.
  destruct a as [w|]; [|reflexivity].
  destruct w; try reflexivity; cbn [fmap option_fmap option_map view nullish_else];
    apply ToNumber_coerced_view.
Qed.

Lemma Number_or_coerced (a : jsval) (b : number) :
  Number_or (view Coerced <$> a) b = Number_or a b.
Proof.
  destruct a as [w|]; [|reflexivity]. cbn. rewrite truthy_coerced_view.
  destruct (truthy w); [apply ToNumber_coerced_view|reflexivity].
Qed.

Lemma Boolean_coerced (a : jsval) : Boolean (view Coerced <$> a) = Boolean a.
Proof. destruct a as [w|]; [|reflexivity]. apply truthy_coerced_view. Qed.

Lemma String__coerced (a : jsval) : String_ (view Coerced <$> a) = String_ a.
Proof. destruct a as [w|]; [|reflexivity]. apply ToString_coerced_view. Qed.

Lemma truthy_or_else_coerced (a : jsval) (b : json) :
  truthy (or_else (view Coerced <$> a) b) = truthy (or_else a b).
Proof.
  rewrite or_else_coerced. destruct a as [w|]; [|reflexivity]. cbn [or_else].
  destruct (truthy w); [apply truthy_coerced_view|reflexivity].
Qed.

End CoercedView.

Ltac read_view :=
  repeat (first [rewrite prop_view_fields | rewrite prop_view];
          cbn [shape_of String.eqb Ascii.eqb Bool.eqb]);
  rewrite ?fmap_view_Raw.

Ltac read_coerced :=
  rewrite ?ToString_or_else_coerced, ?ToNumber_or_else_coerced,
    ?ToNumber_nullish_else_coerced, ?Number_or_coerced, ?Boolean_coerced,
    ?String__coerced, ?truthy_or_else_coerced.

Lemma oprop_view_rect (d : jsval) :
  oprop "x" (view rect_shape <$> d) = view Coerced <$> oprop "x" d /\
  oprop "y" (view rect_shape <$> d) = view Coerced <$> oprop "y" d /\
  oprop "w" (view rect_shape <$> d) = view Coerced <$> oprop "w" d /\
  oprop "h" (view rect_shape <$> d) = view Coerced <$> oprop "h" d.
Proof.
  destruct d as [w|]; [|now repeat split].
  cbn [fmap option_fmap option_map oprop]. unfold rect_shape.
  repeat split; now read_view.
Qed.

Ltac read_rect :=
  repeat match goal with
  | |- context [oprop ?k (view rect_shape <$> ?d)] =>
      let H := fresh in
      pose proof (oprop_view_rect d) as H;
      destruct H as (-> & -> & -> & ->)
  end.

Section FingerprintView.
Context `{Runtime}.

Lemma normalize_frame_view base fr :
  normalize_frame base (view frame_shape fr) = normalize_frame base fr.
Proof.
  destruct fr; try reflexivity.
  unfold normalize_frame, frame_shape. rewrite view_record.
  read_view. read_rect. now read_coerced.
Qed.

Lemma normalize_layer_view w h l :
  normalize_layer w h (view layer_shape l) = normalize_layer w h l.
Proof.
  destruct l; try reflexivity.
  unfold normalize_layer, layer_shape. rewrite view_record.
  read_view. read_rect. read_coerced.
  do 8 (apply exc_bind_ext; intros ?).
  apply exc_bind_ext'. 
  destruct (String.eqb _ "pet_gif_frames"); [|reflexivity].
  destruct (prop "frames" (JObj props)) as [[| | | |frs|]|]; try reflexivity.
  cbn [fmap option_fmap option_map view].
  rewrite exc_map_map.
  erewrite exc_map_ext; [reflexivity|].
  intros fr. apply normalize_frame_view.
Qed.

Lemma normalize_gifOptions_view (g : jsval) :
  normalize_gifOptions (view gifOptions_shape <$> g) = normalize_gifOptions g.
Proof.
  destruct g as [g|]; [|reflexivity].
  cbn [fmap option_fmap option_map]. unfold normalize_gifOptions.
  rewrite truthy_view. destruct (truthy g); [|reflexivity].
  destruct g; try reflexivity.
  unfold gifOptions_shape. rewrite view_record.
  read_view. now read_coerced.
Qed.

Lemma normalize_view p : normalize (view payload_shape p) = normalize p.
Proof.
  destruct p; try reflexivity.
  unfold normalize, payload_shape. rewrite view_record.
  read_view.
  fold gifOptions_shape. rewrite normalize_gifOptions_view.
  set (size := prop "size" (JObj props)).
  assert (Hsz : forall k, (k = "width" \/ k = "height") ->
                oprop k (view (Record_ [("width", Raw); ("height", Raw)]) <$> size)
                = oprop k size).
  { intros k Hk. destruct size as [sz|]; [|reflexivity].
    cbn [fmap option_fmap option_map oprop].
    destruct Hk as [-> | ->]; now read_view. }
  rewrite !Hsz by auto.
  destruct (prop "layers" (JObj props)) as [ls|]; [|reflexivity].
  cbn [fmap option_fmap option_map or_else].
  rewrite truthy_view.
  destruct (truthy ls); [|reflexivity].
  destruct ls; try reflexivity.
  cbn [view]. rewrite exc_map_map.
  erewrite exc_map_ext; [reflexivity|].
  intros l. apply normalize_layer_view.
Qed.

(** C1, amended.  Two job payloads have the same fingerprint (either both
    calls of [stableHashPayload] throw, or both return the same digest)
    when they differ only in properties the normalization does not read
    (among them [guild] and [user], which [payload_shape] does not list), at
    the top level, inside [size], inside [gifOptions], inside a layer, a
    frame or a draw rectangle, or in the order of the keys of any object
    that is not inside [format], [size.width] or [size.height]. *)
Theorem stableHashPayload_differ_only (p p' : json) :
  differ_only payload_shape p p' ->
  stableHashPayload p = stableHashPayload p'.
Proof.
  intros Hd. unfold stableHashPayload.
  rewrite <- (normalize_view p), <- (normalize_view p').
  now rewrite (view_differ_only _ _ _ Hd).
Qed.

End FingerprintView.

Lemma example_payloads_differ_only :
  differ_only payload_shape example_payload example_payload'.
Proof.
  unfold example_payload, example_payload'.
  eapply differ_chain.
  { apply (differ_set_unread _ "guild" (JStr "g2")). reflexivity. }
  eapply differ_chain.
  { apply (differ_set_unread _ "user" (JStr "u2")). reflexivity. }
  eapply differ_chain.
  { apply (differ_set_unread _ "requestId" (JNum 7)). reflexivity. }
  eapply differ_chain.
  { eapply (differ_inside _ "layers"); [reflexivity|reflexivity|].
    eapply (differ_element layer_shape
             [JObj [("type", JStr "background"); ("key", JStr "default")]]
             _ _ []).
    apply (differ_set_unread _ "note" (JStr "kitchen")). reflexivity. }
  cbn [assoc_set String.eqb Ascii.eqb Bool.eqb app].
  apply differ_reorder.
  - discriminate.
  - apply (bool_decide_unpack _). vm_compute. exact I.
  - apply perm_swap.
Qed.

Lemma stableHashPayload_differ_only_witness :
  differ_only payload_shape example_payload example_payload' /\
  @stableHashPayload example_runtime example_payload =
  @stableHashPayload example_runtime example_payload'.
Proof.
  split.
  - exact example_payloads_differ_only.
  - exact (@stableHashPayload_differ_only example_runtime _ _
             example_payloads_differ_only).
Defined.

Section FingerprintFormat.
Context `{Runtime}.

(** C10. A payload that omits [format] and the same payload with [format]
    set to the string png have the same fingerprint: the normalization
    writes png for a missing format. *)
Theorem stableHashPayload_format_default (o : list (string * json)) :
  stableHashPayload (JObj (assoc_set "format" (JStr "png") o)) =
  stableHashPayload (JObj (assoc_delete "format" o)).
Proof.
  unfold stableHashPayload, normalize. cbn [prop].
  rewrite !assoc_assoc_set, !assoc_assoc_delete.
  reflexivity.
Qed.

End FingerprintFormat.

(** ** The fingerprint and the default size *)

Section FingerprintSize.
Context `{Runtime}.

(** X29. A payload without [size] has the fingerprint of the same
    payload with the size 300 by 300, and so has a payload whose width and
    height are falsy (zero, [null], the empty string): the normalization
    writes 300 for them. *)
Theorem stableHashPayload_size_default (o : list (string * json)) (w h : json) :
  truthy w = false -> truthy h = false ->
  stableHashPayload (JObj (assoc_set "size" (JObj [("width", w); ("height", h)]) o))
  = stableHashPayload (JObj (assoc_delete "size" o)) /\
  stableHashPayload
    (JObj (assoc_set "size" (JObj [("width", JNum 300); ("height", JNum 300)]) o))
  = stableHashPayload (JObj (assoc_delete "size" o)).
Proof.
  intros Hw Hh. unfold stableHashPayload, normalize. cbn [prop].
  rewrite !assoc_assoc_set, !assoc_assoc_delete. cbn [String.eqb Ascii.eqb Bool.eqb].
  cbn [oprop prop assoc String.eqb Ascii.eqb Bool.eqb or_else]. rewrite Hw, Hh.
  split; reflexivity.
Qed.

End FingerprintSize.

Lemma stableHashPayload_size_default_witness :
  @stableHashPayload example_runtime
    (JObj (assoc_set "size" (JObj [("width", JNum 0); ("height", JNull)])
             [("guild", JStr "g1"); ("user", JStr "u1"); ("layers", JArr [])]))
  = @stableHashPayload example_runtime
      (JObj (assoc_delete "size"
               [("guild", JStr "g1"); ("user", JStr "u1"); ("layers", JArr [])])).
Proof.
  exact (proj1 (@stableHashPayload_size_default example_runtime
                  [("guild", JStr "g1"); ("user", JStr "u1"); ("layers", JArr [])]
                  (JNum 0) JNull eq_refl eq_refl)).
Defined.

(** ** When the fingerprint cannot be computed *)

Lemma throws_bind_eq {X Y} (m : exc X) (k : X -> exc Y) (a b : bool) :
  throws m = a -> (forall x, throws (k x) = b) -> throws (exc_bind m k) = a || b.
Proof. intros <- Hk. destruct m; [apply Hk|reflexivity]. Qed.

Section FingerprintThrows.
Context `{Runtime}.

Ltac throws_step :=
  first [ apply throws_ToString | apply throws_ToNumber | apply throws_Number_or
        | apply throws_String_ ].

Ltac throws_frame_case :=
  cbn [is_null orb]; unfold normalize_frame;
  etransitivity;
  [do 4 (eapply throws_bind_eq; [throws_step|intros ?]);
   rewrite throws_bind_Ret; throws_step|];
  rewrite unprintable_or_else by reflexivity;
  now rewrite !orb_assoc.

Lemma throws_normalize_frame base fr :
  throws (normalize_frame base fr) = unhashable_frame fr.
Proof.
  unfold unhashable_frame. destruct fr; [reflexivity|throws_frame_case..].
Qed.

Lemma throws_normalize_frames base frs :
  throws (exc_map (normalize_frame base) frs) = existsb unhashable_frame frs.
Proof.
  rewrite throws_exc_map. induction frs as [|fr frs IH]; [reflexivity|].
  cbn [existsb]. now rewrite throws_normalize_frame, IH.
Qed.

Lemma throws_layer_url (l : json) :
  throws (if Boolean (prop "url" l)
          then exc_bind (String_ (prop "url" l)) (fun u => Ret (Some u))
          else Ret None)
  = unprintable_or (prop "url" l).
Proof.
  destruct (prop "url" l) as [w|]; [|reflexivity]. cbn [Boolean unprintable_or].
  destruct (truthy w); [|reflexivity]. rewrite throws_bind_Ret. apply throws_ToString.
Qed.

Lemma throws_layer_frames {X} (l : json) (base : Rect)
    (g : option (list NormFrame) -> X) :
  throws (exc_bind (String_ (prop "type" l)) (fun type' =>
            exc_bind
              (if String.eqb type' "pet_gif_frames" then
                 match prop "frames" l with
                 | Some (JArr frs) =>
                     exc_bind (exc_map (normalize_frame base) frs)
                              (fun fs => Ret (Some fs))
                 | _ => Ret None
                 end
               else Ret None)
              (fun frames => Ret (g frames))))
  = unprintable_val (prop "type" l) ||
    type_reads l "pet_gif_frames" &&
    match prop "frames" l with
    | Some (JArr frs) => existsb unhashable_frame frs
    | _ => false
    end.
Proof.
  unfold type_reads. rewrite <- throws_String_.
  destruct (String_ (prop "type" l)) as [type'|e]; [|reflexivity].
  cbn [exc_bind throws orb]. rewrite throws_bind_Ret.
  destruct (String.eqb type' "pet_gif_frames"); [|reflexivity]. cbn [andb].
  destruct (prop "frames" l) as [[| | | |frs|]|]; try reflexivity.
  rewrite throws_bind_Ret. apply throws_normalize_frames.
Qed.

Ltac throws_layer_case :=
  cbn [is_null orb]; unfold normalize_layer;
  etransitivity;
  [do 2 (eapply throws_bind_eq; [throws_step|intros ?]);
   eapply throws_bind_eq; [apply throws_layer_url|intros ?];
   do 4 (eapply throws_bind_eq; [throws_step|intros ?]);
   apply throws_layer_frames|];
  rewrite !unprintable_or_else by reflexivity;
  match goal with
  | |- context [unprintable_val (prop "type" ?l)] =>
      rewrite <- (unprintable_or_val (prop "type" l))
  end;
  destruct (unprintable_or (prop "type" _)); cbn [orb];
  [reflexivity|now rewrite !orb_assoc].

Lemma throws_normalize_layer w h l :
  throws (normalize_layer w h l) = unhashable_layer w h l.
Proof.
  unfold unhashable_layer. destruct l; [reflexivity|throws_layer_case..].
Qed.

Lemma throws_normalize_gifOptions (go : jsval) :
  throws (normalize_gifOptions go) = unhashable_gifOptions go.
Proof.
  destruct go as [g|]; [|reflexivity]. cbn [normalize_gifOptions unhashable_gifOptions].
  destruct (truthy g); [|reflexivity]. cbn [andb].
  etransitivity.
  { eapply throws_bind_eq; [throws_step|intros ?].
    eapply throws_bind_eq.
    { instantiate (1 := unprintable_val (prop "repeat" g)).
      destruct g; try (rewrite throws_ToNumber; reflexivity).
      - reflexivity.
      - rewrite throws_ToNumber. cbn [prop].
        destruct (assoc "repeat" props) as [[]|]; reflexivity. }
    intros ?.
    do 2 (eapply throws_bind_eq; [throws_step|intros ?]).
    rewrite throws_bind_Ret. throws_step. }
  rewrite !unprintable_or_else by reflexivity.
  now rewrite !orb_assoc.
Qed.

Lemma throws_stableHashPayload payload layers :
  prop "layers" payload = Some (JArr layers) ->
  throws (stableHashPayload payload) = unhashable payload.
Proof.
  intros Hl. destruct payload; try discriminate.
  unfold stableHashPayload, normalize, unhashable, layersIn_of. rewrite Hl.
  cbn [or_else truthy]. rewrite throws_bind_Ret.
  etransitivity.
  { eapply throws_bind_eq; [apply throws_exc_map|intros ?].
    rewrite throws_bind_Ret. apply throws_normalize_gifOptions. }
  f_equal. clear Hl.
  induction layers as [|l ls IH]; [reflexivity|].
  cbn [existsb]. now rewrite throws_normalize_layer, IH.
Qed.

(** X11. For a payload whose [layers] property is an array,
    [stableHashPayload] throws exactly when a layer is [null], a frame of a
    layer whose type reads pet_gif_frames is [null], or one of the values
    it converts with [String] or [Number] (the type, key, URL and draw
    rectangle of a layer, the URL and draw rectangle of a frame, the
    settings of [gifOptions]) is an object with a property named toString,
    or an array that holds one; on every other such payload it returns a
    digest. *)
Theorem stableHashPayload_throws_iff (payload : json) (layers : list json) :
  prop "layers" payload = Some (JArr layers) ->
  ((exists e, stableHashPayload payload = Throw e) <-> unhashable payload = true) /\
  ((exists digest, stableHashPayload payload = Ret digest) <->
   unhashable payload = false).
Proof.
  intros Hl. rewrite <- (throws_stableHashPayload payload layers Hl).
  destruct (stableHashPayload payload) as [d|e]; cbn [throws].
  - split; split; try discriminate; eauto. intros [e He]. discriminate.
  - split; split; try discriminate; eauto. intros [d Hd]. discriminate.
Qed.

End FingerprintThrows.

Lemma stableHashPayload_throws_iff_witness :
  prop "layers" example_unprintable_key_payload
    = Some (JArr [JObj [("type", JStr "floor"); ("key", JObj [("toString", JNum 1)])]]) /\
  unhashable example_unprintable_key_payload = true /\
  (exists e, @stableHashPayload example_runtime example_unprintable_key_payload = Throw e) /\
  unhashable example_null_layer_payload = true /\
  unhashable example_gif_payload = false /\
  exists digest, @stableHashPayload example_runtime example_gif_payload = Ret digest.
Proof.
  split; [reflexivity|]. split; [reflexivity|]. split.
  { exact (proj2 (proj1 (@stableHashPayload_throws_iff example_runtime
                           example_unprintable_key_payload _ eq_refl)) eq_refl). }
  split; [reflexivity|]. split; [reflexivity|].
  exact (proj2 (proj2 (@stableHashPayload_throws_iff example_runtime
                         example_gif_payload _ eq_refl)) eq_refl).
Defined.

(** C1 as stated fails: two payloads that differ only in the order of the
    keys of an object, here the value of [format], are both accepted and
    have different fingerprints; [format] goes into the hashed text as it
    is. *)
Lemma stableHashPayload_format_key_order :
  NoDup (fst <$> [("a", JNum 1); ("b", JNum 2)]) /\
  Permutation [("a", JNum 1); ("b", JNum 2)] [("b", JNum 2); ("a", JNum 1)] /\
  (@postJobs example_runtime
     (Some (example_format_payload [("a", JNum 1); ("b", JNum 2)]))
     "job-1" 0 initial).1 = Accepted "job-1" /\
  (@postJobs example_runtime
     (Some (example_format_payload [("b", JNum 2); ("a", JNum 1)]))
     "job-2" 0 initial).1 = Accepted "job-2" /\
  @stableHashPayload example_runtime
    (example_format_payload [("a", JNum 1); ("b", JNum 2)])
    = Ret "47aa1c1425095295c171c44abc5c7f0d8429ac59" /\
  @stableHashPayload example_runtime
    (example_format_payload [("b", JNum 2); ("a", JNum 1)])
    = Ret "3ac1db588f36909b2c1fce805b813ccb397d5058" /\
  @stableHashPayload example_runtime
    (example_format_payload [("a", JNum 1); ("b", JNum 2)])
  <> @stableHashPayload example_runtime
       (example_format_payload [("b", JNum 2); ("a", JNum 1)]).
Proof.
  split; [apply (bool_decide_unpack _); vm_compute; exact I|].
  split; [apply perm_swap|].
  split; [vm_compute; reflexivity|]. split; [vm_compute; reflexivity|].
  assert (Hab : @stableHashPayload example_runtime
                  (example_format_payload [("a", JNum 1); ("b", JNum 2)])
                = Ret "47aa1c1425095295c171c44abc5c7f0d8429ac59")
    by (vm_compute; reflexivity).
  assert (Hba : @stableHashPayload example_runtime
                  (example_format_payload [("b", JNum 2); ("a", JNum 1)])
                = Ret "3ac1db588f36909b2c1fce805b813ccb397d5058")
    by (vm_compute; reflexivity).
  split; [exact Hab|]. split; [exact Hba|].
  rewrite Hab, Hba. discriminate.
Qed.

(** ** [slugify] *)

Lemma is_slug_char_facts c :
  is_slug_char c = true ->
  is_white_space c = false /\ lower c = c /\ Ascii.eqb c "-" = false.
Proof.
  destruct c as [[] [] [] [] [] [] [] []]; vm_compute; intros; try discriminate;
    repeat split.
Qed.

Lemma dash_runs_dashed in_run s : dashed in_run (dash_runs in_run s) = true.
Proof.
  revert in_run. induction s as [|c s IH]; intros in_run; [reflexivity|].
  cbn [dash_runs]. destruct (is_slug_char c) eqn:Hc.
  - cbn [dashed]. rewrite Hc. apply IH.
  - destruct in_run; [apply IH|]. cbn [dashed].
    change (is_slug_char "-") with false. cbn. apply IH.
Qed.

Lemma drop_first_dash_dashed t :
  dashed false t = true -> dashed true (drop_first_dash t) = true.
Proof.
  destruct t as [|c t]; [reflexivity|]. cbn [dashed drop_first_dash].
  destruct (is_slug_char c) eqn:Hc.
  - destruct (is_slug_char_facts c Hc) as (_ & _ & ->). cbn [dashed]. now rewrite Hc.
  - destruct (Ascii.eqb c "-"); [|discriminate]. cbn. tauto.
Qed.

Lemma drop_last_dash_slug b t :
  dashed b t = true ->
  drop_last_dash t = "" \/ slug_body b (drop_last_dash t) = true.
Proof.
  revert b. induction t as [|c t IH]; intros b; [now left|].
  cbn [dashed]. destruct (is_slug_char c) eqn:Hc.
  - destruct (is_slug_char_facts c Hc) as (_ & _ & Hd). intros Ht. right.
    destruct t as [|c' t'].
    + cbn [drop_last_dash]. rewrite Hd. cbn [slug_body]. now rewrite Hc.
    + change (drop_last_dash (String c (String c' t')))
        with (String c (drop_last_dash (String c' t'))).
      cbn [slug_body]. rewrite Hc.
      destruct (IH false Ht) as [Hnil|Hs]; [|exact Hs]. now rewrite Hnil.
  - destruct (Ascii.eqb_spec c "-") as [->|]; [|discriminate].
    intros Hb. apply andb_true_iff in Hb as [Hb Ht].
    destruct t as [|c' t']; [now left|]. right.
    change (drop_last_dash (String "-" (String c' t')))
      with (String "-" (drop_last_dash (String c' t'))).
    cbn [slug_body]. change (is_slug_char "-") with false. cbn [Ascii.eqb Bool.eqb].
    rewrite Hb. cbn [andb].
    destruct (IH true Ht) as [Hnil|Hs]; [|exact Hs].
    exfalso. cbn [dashed] in Ht. destruct (is_slug_char c') eqn:Hc'.
    + destruct (is_slug_char_facts c' Hc') as (_ & _ & Hd').
      destruct t'; cbn [drop_last_dash] in Hnil; [rewrite Hd' in Hnil|]; discriminate.
    + destruct (Ascii.eqb c' "-"); discriminate.
Qed.

Lemma slugify_dashes t :
  is_slug (drop_last_dash (drop_first_dash (dash_runs false t))) = true.
Proof.
  pose proof (drop_first_dash_dashed _ (dash_runs_dashed false t)) as Hd.
  destruct (drop_last_dash_slug true _ Hd) as [-> | Hs]; [reflexivity|].
  unfold is_slug. now destruct (drop_last_dash _).
Qed.

(** X6. Whatever the key, [slugify] returns a slug: the empty string, or
    characters a to z and 0 to 9 in runs separated by single dashes, with no
    dash at either end (strings being sequences of characters below 256).
    It returns for every key but one that [String] cannot convert, a truthy
    object with a property named toString or an array that holds one, on
    which it throws. *)
Theorem slugify_is_slug (name : jsval) :
  if unprintable_or name then slugify name = Throw "TypeError"
  else exists s, slugify name = Ret s /\ is_slug s = true.
Proof.
  unfold slugify. rewrite <- (unprintable_or_else name (JStr "")) by reflexivity.
  pose proof (ToString_cases (or_else name (JStr ""))) as Hc.
  destruct (unprintable (or_else name (JStr ""))).
  - now rewrite Hc.
  - destruct Hc as [text ->]. cbn [exc_bind]. eexists. split; [reflexivity|].
    apply slugify_dashes.
Qed.

Lemma slug_body_skip b s : slug_body b s = true -> skip_white_space s = s.
Proof.
  destruct s as [|c s]; [reflexivity|]. cbn [slug_body skip_white_space].
  destruct (is_slug_char c) eqn:Hc.
  - now destruct (is_slug_char_facts c Hc) as (-> & _ & _).
  - destruct (Ascii.eqb_spec c "-") as [->|]; [reflexivity|discriminate].
Qed.

Lemma slug_body_trim_end b s : slug_body b s = true -> trim_end s = s.
Proof.
  revert b. induction s as [|c s IH]; intros b; [reflexivity|].
  cbn [slug_body trim_end]. destruct (is_slug_char c) eqn:Hc.
  - destruct (is_slug_char_facts c Hc) as (Hw & _ & _). intros Hs.
    rewrite (IH _ Hs). destruct s; [now rewrite Hw|reflexivity].
  - destruct (Ascii.eqb_spec c "-") as [->|]; [|discriminate].
    intros Hb. apply andb_true_iff in Hb as [_ Hs]. rewrite (IH _ Hs).
    destruct s; [discriminate|reflexivity].
Qed.

Lemma slug_body_lower b s : slug_body b s = true -> toLowerCase s = s.
Proof.
  revert b. induction s as [|c s IH]; intros b; [reflexivity|].
  cbn [slug_body toLowerCase]. destruct (is_slug_char c) eqn:Hc.
  - destruct (is_slug_char_facts c Hc) as (_ & -> & _). intros Hs. now rewrite (IH _ Hs).
  - destruct (Ascii.eqb_spec c "-") as [->|]; [|discriminate].
    intros Hb. apply andb_true_iff in Hb as [_ Hs]. now rewrite (IH _ Hs).
Qed.

Lemma slug_body_dash_runs b in_run s :
  slug_body b s = true -> (in_run = true -> b = true) -> dash_runs in_run s = s.
Proof.
  revert b in_run. induction s as [|c s IH]; intros b in_run; [reflexivity|].
  cbn [slug_body dash_runs]. destruct (is_slug_char c) eqn:Hc.
  - intros Hs _. now rewrite (IH false false Hs).
  - destruct (Ascii.eqb_spec c "-") as [->|]; [|discriminate].
    intros Hb Hrun. apply andb_true_iff in Hb as [Hb Hs].
    destruct in_run; [rewrite Hrun in Hb by reflexivity; discriminate|].
    now rewrite (IH true true Hs).
Qed.

Lemma slug_body_drop_last b s : slug_body b s = true -> drop_last_dash s = s.
Proof.
  revert b. induction s as [|c s IH]; intros b; [reflexivity|].
  cbn [slug_body]. destruct (is_slug_char c) eqn:Hc.
  - destruct (is_slug_char_facts c Hc) as (_ & _ & Hd). intros Hs.
    destruct s as [|c' s']; [cbn; now rewrite Hd|].
    change (drop_last_dash (String c (String c' s')))
      with (String c (drop_last_dash (String c' s'))).
    now rewrite (IH _ Hs).
  - destruct (Ascii.eqb_spec c "-") as [->|]; [|discriminate].
    intros Hb. apply andb_true_iff in Hb as [_ Hs].
    destruct s as [|c' s']; [discriminate|].
    change (drop_last_dash (String "-" (String c' s')))
      with (String "-" (drop_last_dash (String c' s'))).
    now rewrite (IH _ Hs).
Qed.

Lemma slugify_slug s : is_slug s = true -> slugify (Some (JStr s)) = Ret s.
Proof.
  intros Hs. unfold slugify.
  assert (Htext : ToString (or_else (Some (JStr s)) (JStr "")) = Ret s).
  { cbn. destruct s; reflexivity. }
  rewrite Htext. cbn [exc_bind]. f_equal. unfold slug_of.
  destruct s as [|c s]; [reflexivity|].
  unfold is_slug in Hs.
  rewrite (slug_body_skip _ _ Hs), (slug_body_trim_end _ _ Hs),
    (slug_body_lower _ _ Hs), (slug_body_dash_runs true false _ Hs) by discriminate.
  assert (Hfirst : drop_first_dash (String c s) = String c s).
  { cbn [slug_body drop_first_dash] in *. destruct (is_slug_char c) eqn:Hc.
    - now destruct (is_slug_char_facts c Hc) as (_ & _ & ->).
    - destruct (Ascii.eqb c "-"); discriminate. }
  rewrite Hfirst. apply (slug_body_drop_last true _ Hs).
Qed.

(** X7. A key that is already a slug is returned as it is, so [slugify]
    applied to what [slugify] returned gives the same again. *)
Theorem slugify_fixed_point (s : string) (name : jsval) :
  (is_slug s = true -> slugify (Some (JStr s)) = Ret s) /\
  (forall t, slugify name = Ret t -> slugify (Some (JStr t)) = Ret t) /\
  slug_of (slug_of s) = slug_of s.
Proof.
  assert (Hslug : forall text, slugify (Some (JStr (slug_of text))) = Ret (slug_of text)).
  { intros text. apply slugify_slug. apply slugify_dashes. }
  split; [apply slugify_slug|]. split.
  - unfold slugify at 1. destruct (ToString _) as [text|e]; [|discriminate].
    cbn [exc_bind]. intros t [= <-]. apply Hslug.
  - specialize (Hslug s). unfold slugify in Hslug.
    assert (Htext : ToString (or_else (Some (JStr (slug_of s))) (JStr ""))
                    = Ret (slug_of s)).
    { cbn. now destruct (slug_of s). }
    rewrite Htext in Hslug. cbn [exc_bind] in Hslug. congruence.
Qed.

Lemma slugify_fixed_point_witness :
  is_slug "wood-01" = true /\
  slugify (Some (JStr "wood-01")) = Ret "wood-01" /\
  slugify (Some (JStr "  Wood 01! ")) = Ret "wood-01".
Proof.
  split; [reflexivity|]. split; [|reflexivity].
  exact (proj1 (slugify_fixed_point "wood-01" None) eq_refl).
Defined.

(** ** [resolveCdnUrlByLayer] and the fallback *)

Lemma slug_body_no_question b s : slug_body b s = true -> no_question s = true.
Proof.
  revert b. induction s as [|c s IH]; intros b; [reflexivity|].
  cbn [slug_body no_question]. destruct (is_slug_char c) eqn:Hc.
  - intros Hs. rewrite (IH _ Hs), andb_true_r.
    revert Hc. destruct c as [[] [] [] [] [] [] [] []]; vm_compute; congruence.
  - destruct (Ascii.eqb_spec c "-") as [->|]; [|discriminate].
    intros Hb. apply andb_true_iff in Hb as [_ Hs]. now rewrite (IH _ Hs).
Qed.

Lemma is_slug_no_question s : is_slug s = true -> no_question s = true.
Proof. destruct s; [reflexivity|]. apply slug_body_no_question. Qed.

Lemma cdn_url_swap (base dir key : string) :
  no_question base = true -> no_question dir = true -> no_question key = true ->
  base +:+ dir +:+ key +:+ ".png" = (base +:+ dir +:+ key) +:+ ".png" /\
  no_question (base +:+ dir +:+ key) = true /\
  swapImageExtension (base +:+ dir +:+ key +:+ ".png")
    = Some ((base +:+ dir +:+ key) +:+ ".gif").
Proof.
  intros Hb Hd Hk.
  assert (Hassoc : base +:+ dir +:+ key +:+ ".png" = (base +:+ dir +:+ key) +:+ ".png")
    by now rewrite !append_assoc.
  assert (Hstem : no_question (base +:+ dir +:+ key) = true)
    by now rewrite !no_question_append, Hb, Hd, Hk.
  split; [exact Hassoc|]. split; [exact Hstem|]. rewrite Hassoc.
  apply swapImageExtension_plain_png; [|reflexivity].
  now rewrite no_question_append, Hstem.
Qed.

Section CdnFallback.
Context `{Runtime}.

(** X8. Every URL [resolveCdnUrlByLayer] builds ends in .png; when
    [ASSET_BASE_URL] holds no question mark and the request for that URL
    fails, [fetchImageWithFallback] asks once more, for the same path ending
    in .gif, and the outcome of that request is the outcome of the call. *)
Theorem resolveCdnUrlByLayer_fallback (layer : json) (url : string)
    (fetchBuffer : string -> exc Buffer) (e : string) :
  no_question ASSET_BASE_URL = true ->
  resolveCdnUrlByLayer layer = Ret (Some url) ->
  fetchBuffer url = Throw e ->
  exists stem,
    url = stem +:+ ".png" /\
    swapImageExtension url = Some (stem +:+ ".gif") /\
    fetchImageWithFallback fetchBuffer url
      = ([url; stem +:+ ".gif"], fetchBuffer (stem +:+ ".gif")).
Proof.
  intros Hbase Hurl Hfail.
  assert (Hswap : exists stem,
            url = stem +:+ ".png" /\ swapImageExtension url = Some (stem +:+ ".gif")).
  { unfold resolveCdnUrlByLayer, slugify in Hurl.
    destruct (ToString (or_else (prop "key" layer) (JStr ""))) as [text|e0];
      [|discriminate].
    cbn [exc_bind] in Hurl. injection Hurl as Hurl.
    assert (Hkey : no_question (slug_of text) = true).
    { apply is_slug_no_question. apply slugify_dashes. }
    destruct (prop "type" layer) as [[| | |ty| |]|]; try discriminate.
    repeat match type of Hurl with
    | (if ?b then _ else _) = _ => destruct b
    end; try discriminate; injection Hurl as <-.
    - destruct (String.eqb (slug_of text) "").
      + destruct (cdn_url_swap ASSET_BASE_URL "/backgrounds/" "default"
                    Hbase eq_refl eq_refl) as (Ha & _ & Hs). eauto.
      + destruct (cdn_url_swap ASSET_BASE_URL "/backgrounds/" _
                    Hbase eq_refl Hkey) as (Ha & _ & Hs). eauto.
    - destruct (cdn_url_swap ASSET_BASE_URL "/backgrounds/" "default"
                  Hbase eq_refl eq_refl) as (Ha & _ & Hs).
      exists (ASSET_BASE_URL +:+ "/backgrounds/" +:+ "default"). split; [exact Ha|exact Hs].
    - destruct (cdn_url_swap ASSET_BASE_URL "/floor/" _ Hbase eq_refl Hkey)
        as (Ha & _ & Hs). eauto.
    - destruct (cdn_url_swap ASSET_BASE_URL "/furniture/" _ Hbase eq_refl Hkey)
        as (Ha & _ & Hs). eauto.
    - destruct (cdn_url_swap ASSET_BASE_URL "/wallpaper/left/" _ Hbase eq_refl Hkey)
        as (Ha & _ & Hs). eauto.
    - destruct (cdn_url_swap ASSET_BASE_URL "/wallpaper/right/" _ Hbase eq_refl Hkey)
        as (Ha & _ & Hs). eauto. }
  destruct Hswap as (stem & Hstem & Hs). exists stem.
  split; [exact Hstem|]. split; [exact Hs|].
  unfold fetchImageWithFallback. now rewrite Hfail, Hs.
Qed.

End CdnFallback.

Lemma resolveCdnUrlByLayer_fallback_witness :
  @resolveCdnUrlByLayer example_runtime
     (JObj [("type", JStr "floor"); ("key", JStr "Wood 01")])
    = Ret (Some "https://cdn.jsdelivr.net/gh/Earth-J/cdn-files@main/floor/wood-01.png") /\
  exists stem,
    "https://cdn.jsdelivr.net/gh/Earth-J/cdn-files@main/floor/wood-01.png"
      = stem +:+ ".png" /\
    swapImageExtension "https://cdn.jsdelivr.net/gh/Earth-J/cdn-files@main/floor/wood-01.png"
      = Some (stem +:+ ".gif") /\
    fetchImageWithFallback failing_cdn
      "https://cdn.jsdelivr.net/gh/Earth-J/cdn-files@main/floor/wood-01.png"
      = (["https://cdn.jsdelivr.net/gh/Earth-J/cdn-files@main/floor/wood-01.png";
          stem +:+ ".gif"], failing_cdn (stem +:+ ".gif")).
Proof.
  split; [reflexivity|].
  exact (@resolveCdnUrlByLayer_fallback example_runtime
           (JObj [("type", JStr "floor"); ("key", JStr "Wood 01")]) _
           failing_cdn _ eq_refl eq_refl eq_refl).
Defined.


(** ** [mapWithConcurrency]: when the promise settles *)

Lemma mapWithConcurrency_nil {A B} (limit : Z) (mapper : A -> nat -> exc B) :
  mapWithConcurrency [] limit mapper = Some [].
Proof. reflexivity. Qed.

(** With a limit below one and an item to map, no mapper call is started
    and the promise never settles. *)
Lemma mapWithConcurrency_stalls {A B} (items : list A) (limit : Z)
    (mapper : A -> nat -> exc B) :
  limit <= 0 -> items <> [] -> mapWithConcurrency items limit mapper = None.
Proof.
  intros Hlimit Hne. destruct items as [|a items]; [done|].
  unfold mapWithConcurrency, pmap_start, next.
  cbn [length index active Nat.leb andb Nat.sub launch Nat.ltb].
  destruct (Z.ltb_spec 0 limit) as [Hlt|_]; [lia|].
  reflexivity.
Qed.

Lemma mapWithConcurrency_cases {A B} (items : list A) (limit : Z)
    (mapper : A -> nat -> exc B) :
  mapWithConcurrency items limit mapper =
  if bool_decide (1 <= limit \/ items = []) then
    Some (imap (fun i a => match mapper a i with Ret b => Some b | Throw _ => None end)
               items)
  else None.
Proof.
  case_bool_decide as Hc.
  - destruct Hc as [Hlimit| ->]; [now apply mapWithConcurrency_Some|reflexivity].
  - apply mapWithConcurrency_stalls; [lia|]. intros ->. apply Hc. now right.
Qed.

(** ** [composePng] and [composeGif] *)

Section Compose.
Context `{Runtime}.
Variable net : Network.
Variables width height : json.

Lemma filterBoolean_imap {X} (f : X -> option Sprite) (l : list X) :
  filterBoolean (imap (fun _ x => Some (f x)) l) = omap f l.
Proof.
  unfold filterBoolean.
  induction l as [|x l IH]; simpl; [reflexivity|].
  destruct (f x); simpl; [f_equal|]; exact IH.
Qed.

Lemma animatedFrames_nonempty layer frs : animatedFrames layer = Some frs -> frs <> [].
Proof.
  unfold animatedFrames. destruct (strict_eq_string _ _); [|discriminate].
  destruct (prop "frames" layer) as [[| | | |[|fr frs']|]|]; try discriminate.
  now intros [= <-].
Qed.

Lemma decodeLayer_resolveLayer layer :
  1 <= FRAME_FETCH_CONCURRENCY ->
  decodeLayer net width height layer = Some (resolveLayer net width height layer).
Proof.
  intros Hlimit. unfold decodeLayer, resolveLayer.
  destruct (negb (truthy layer)); [reflexivity|].
  destruct (animatedFrames layer) as [frs|].
  - rewrite mapWithConcurrency_Some by lia.
    cbn [mbind option_bind].
    rewrite (filterBoolean_imap (loadFrame net width height layer)).
    now destruct (omap _ _).
  - destruct (Boolean (prop "url" layer)); [|reflexivity].
    now destruct (loadImage net _).
Qed.

(** With a frame limit below one the loop stops for ever at the first
    animated layer. *)
Lemma decodeLayer_stalls layer frs :
  FRAME_FETCH_CONCURRENCY <= 0 -> truthy layer = true ->
  animatedFrames layer = Some frs ->
  decodeLayer net width height layer = None.
Proof.
  intros Hlimit Ht Han. unfold decodeLayer. rewrite Ht, Han. cbn [negb].
  rewrite mapWithConcurrency_stalls; [reflexivity|lia|].
  eapply animatedFrames_nonempty; eauto.
Qed.


Lemma maxFrameCount_cons l decoded m :
  Nat.max (Nat.max m (frameCount l)) (maxFrameCount decoded)
  = Nat.max m (maxFrameCount (l :: decoded)).
Proof. unfold maxFrameCount. simpl. lia. Qed.

Lemma decodeLayers_resolveLayer layers acc m :
  1 <= FRAME_FETCH_CONCURRENCY ->
  decodeLayers net width height layers acc m =
  Some (acc ++ omap (resolveLayer net width height) layers,
        Nat.max m (maxFrameCount (omap (resolveLayer net width height) layers))).
Proof.
  intros Hlimit.
  revert acc m. induction layers as [|layer layers IH]; intros acc m; simpl.
  - rewrite app_nil_r. f_equal. f_equal. unfold maxFrameCount. simpl. lia.
  - rewrite decodeLayer_resolveLayer by done. cbn [mbind option_bind].
    destruct (resolveLayer net width height layer) as [l|]; rewrite IH.
    + rewrite <- app_assoc. simpl. now rewrite maxFrameCount_cons.
    + reflexivity.
Qed.


Lemma decodeLayers_stalls layers layer frs acc m :
  FRAME_FETCH_CONCURRENCY <= 0 -> layer ∈ layers -> truthy layer = true ->
  animatedFrames layer = Some frs ->
  decodeLayers net width height layers acc m = None.
Proof.
  intros Hlimit Hin Ht Han. revert acc m.
  induction layers as [|x layers IH]; intros acc m; [inversion Hin|].
  simpl. apply elem_of_cons in Hin as [<-|Hin].
  - now rewrite (decodeLayer_stalls layer frs).
  - destruct (decodeLayer net width height x) as [[l|]|]; cbn [mbind option_bind];
      [apply IH|apply IH|reflexivity]; exact Hin.
Qed.

Lemma frameLoop_frames backgroundHex decoded todo i frames :
  frameLoop width height backgroundHex decoded todo i [] frames =
  frames ++
  map (fun j => fillBackground width height backgroundHex ++
                flat_map (drawLayer width height j) decoded)
      (seq i todo).
Proof.
  revert i frames. induction todo as [|todo IH]; intros i frames; simpl.
  - now rewrite app_nil_r.
  - rewrite IH. now rewrite <- app_assoc.
Qed.

Lemma flat_map_drawDecoded (layers : list json) :
  flat_map (drawDecoded width height)
    (imap (fun _ layer => Some (loadLayer net width height layer)) layers)
  = map (fun sp => drawImage width height (sp_img sp) (sp_draw sp))
        (omap (loadLayer net width height) layers).
Proof.
  induction layers as [|layer layers IH]; [reflexivity|].
  change (omap (loadLayer net width height) (layer :: layers))
    with (match loadLayer net width height layer with
          | Some sp => sp :: omap (loadLayer net width height) layers
          | None => omap (loadLayer net width height) layers
          end).
  cbn [imap flat_map]. unfold compose. rewrite IH.
  now destruct (loadLayer net width height layer).
Qed.

(** [composePng] settles when the limit of its bounded map is at least
    one, or there is no layer; it never settles otherwise. *)
Lemma composePng_cases layers backgroundHex :
  composePng net width height layers backgroundHex =
  if bool_decide (1 <= STATIC_FETCH_CONCURRENCY \/ layers = []) then
    Some (fillBackground width height backgroundHex ++
          map (fun sp => drawImage width height (sp_img sp) (sp_draw sp))
              (omap (loadLayer net width height) layers))
  else None.
Proof.
  unfold composePng. rewrite mapWithConcurrency_cases.
  case_bool_decide; [|reflexivity].
  cbn [mbind option_bind]. now rewrite flat_map_drawDecoded.
Qed.

Lemma composePng_settles layers backgroundHex :
  1 <= STATIC_FETCH_CONCURRENCY ->
  composePng net width height layers backgroundHex =
  Some (fillBackground width height backgroundHex ++
        map (fun sp => drawImage width height (sp_img sp) (sp_draw sp))
            (omap (loadLayer net width height) layers)).
Proof.
  intros Hlimit. rewrite composePng_cases.
  rewrite bool_decide_eq_true_2; [reflexivity|now left].
Qed.

(** An animated entry of [decodedLayers] holds the frames of its layer
    that could be loaded, in their order, and at least one. *)
Lemma resolveLayer_Frames layer frames :
  resolveLayer net width height layer = Some (Frames frames) ->
  truthy layer = true /\
  exists frs, animatedFrames layer = Some frs /\
    frames = omap (loadFrame net width height layer) frs /\ frames <> [].
Proof.
  unfold resolveLayer. destruct (truthy layer); [|discriminate]. cbn [negb].
  destruct (animatedFrames layer) as [frs|].
  - destruct (omap _ frs) as [|f fs] eqn:Hom; [discriminate|].
    intros [= <-]. split; [done|]. exists frs. now rewrite Hom.
  - destruct (Boolean _); [|discriminate]. now destruct (loadImage net _).
Qed.

Lemma maxFrameCount_bound decoded l :
  l ∈ decoded -> (frameCount l <= maxFrameCount decoded)%nat.
Proof.
  induction decoded as [|x decoded IH]; intros Hin; [inversion Hin|].
  unfold maxFrameCount in *. simpl.
  apply elem_of_cons in Hin as [->|Hin]; [lia|]. specialize (IH Hin). lia.
Qed.

Lemma maxFrameCount_attained decoded :
  (0 < maxFrameCount decoded)%nat ->
  exists l, l ∈ decoded /\ frameCount l = maxFrameCount decoded.
Proof.
  induction decoded as [|x decoded IH]; unfold maxFrameCount in *; simpl; [lia|].
  intros Hpos.
  destruct (Nat.max_spec (frameCount x) (foldr (fun l acc => Nat.max (frameCount l) acc)
                                               0%nat decoded)) as [[Hlt ->]|[Hle ->]].
  - destruct IH as (l & Hin & Heq); [lia|]. exists l. split; [now right|done].
  - exists x. split; [left|done].
Qed.

Lemma decoded_Frames (layers : list json) frames :
  Frames frames ∈ omap (resolveLayer net width height) layers ->
  exists layer frs, layer ∈ layers /\ truthy layer = true /\
    animatedFrames layer = Some frs /\
    frames = omap (loadFrame net width height layer) frs /\ frames <> [].
Proof.
  intros Hin. apply list_elem_of_omap in Hin as (layer & Hl & Hres).
  apply resolveLayer_Frames in Hres as (Ht & frs & Han & Hfr & Hne).
  now exists layer, frs.
Qed.

(** The rectangle of a frame that was loaded is an object or another
    truthy value: the last alternative of [fr.draw || layer.draw || {...}]
    is an object. *)
Lemma truthy_or_else a b : truthy b = true -> truthy (or_else a b) = true.
Proof.
  intros Hb. destruct a as [w|]; [|exact Hb]. simpl.
  now destruct (truthy w) eqn:E.
Qed.

Lemma loadFrame_draw layer fr f :
  loadFrame net width height layer fr = Some f -> truthy (sp_draw f) = true.
Proof.
  unfold loadFrame. destruct (Boolean _); [|discriminate].
  destruct (loadImage net _); [|discriminate]. intros [= <-]. cbn [sp_draw].
  apply truthy_or_else. now apply truthy_or_else.
Qed.

Lemma fillBackground_string (s : string) :
  fillBackground width height (JStr s) =
  if String.eqb s "" then [] else [FillRect (JStr s) width height].
Proof. unfold fillBackground. simpl. now destruct (String.eqb s ""). Qed.

(** What one entry of [decodedLayers] draws in frame [i]. *)
Lemma drawLayer_Forall2 (layers : list json) (i : nat) :
  Forall2
    (fun l op =>
       match l with
       | Static s =>
           op = DrawImage (sp_img s)
                  (or_else (prop "x" (sp_draw s)) (JNum 0))
                  (or_else (prop "y" (sp_draw s)) (JNum 0))
                  (or_else (prop "w" (sp_draw s)) width)
                  (or_else (prop "h" (sp_draw s)) height)
       | Frames frames =>
           exists f, frames !! (i mod length frames)%nat = Some f /\
             op = DrawImage (sp_img f)
                    (or_else (prop "x" (sp_draw f)) (JNum 0))
                    (or_else (prop "y" (sp_draw f)) (JNum 0))
                    (or_else (prop "w" (sp_draw f)) width)
                    (or_else (prop "h" (sp_draw f)) height)
       end)
    (omap (resolveLayer net width height) layers)
    (flat_map (drawLayer width height i) (omap (resolveLayer net width height) layers)).
Proof.
  assert (Hall : forall l, l ∈ omap (resolveLayer net width height) layers ->
            match l with
            | Static _ => True
            | Frames frames =>
                frames <> [] /\ forall f, f ∈ frames -> truthy (sp_draw f) = true
            end).
  { intros [s|frames] Hin; [exact I|].
    apply decoded_Frames in Hin as (layer & frs & _ & _ & _ & -> & Hne).
    split; [exact Hne|]. intros f Hf.
    apply list_elem_of_omap in Hf as (fr & _ & Hf). eapply loadFrame_draw; eauto. }
  induction (omap (resolveLayer net width height) layers) as [|l decoded IH];
    [constructor|].
  cbn [flat_map].
  assert (Hl := Hall l ltac:(left)).
  assert (Hrest : Forall2 _ decoded (flat_map (drawLayer width height i) decoded))
    by (apply IH; intros l' Hin; apply Hall; now right).
  destruct l as [s|frames]; cbn [drawLayer].
  - constructor; [reflexivity|exact Hrest].
  - destruct Hl as [Hne Hdraw].
    assert (Hlt : (i mod length frames < length frames)%nat).
    { apply Nat.mod_upper_bound. now destruct frames. }
    apply lookup_lt_is_Some_2 in Hlt as [f Hf]. rewrite Hf.
    constructor; [|exact Hrest].
    exists f. split; [done|]. unfold drawImage.
    assert (Hd : or_else (Some (sp_draw f)) (default_draw width height) = sp_draw f).
    { cbn [or_else]. rewrite Hdraw; [done|]. eapply list_elem_of_lookup_2; eauto. }
    now rewrite Hd.
Qed.

(** C2. When at least one animated layer keeps a decoded frame,
    [composeGif] resolves with a GIF whose number of frames is the largest
    number of surviving frames among the animated layers, the surviving
    frames of a layer being those of its frames that could be loaded, in
    their order; frame [i] is the background fill, if any, followed by one
    draw per decoded layer in the order of the input layers, where a static
    layer draws its image into its rectangle and an animated layer draws
    its surviving frame number [i mod] (its number of surviving frames)
    into the rectangle of that frame.  This is so when the limit of the
    bounded map over the frames is at least one; below one, no frame is
    ever fetched and the composition never settles. *)
Theorem composeGif_animated (layers : list json) (options : json) (settings : GifSettings) :
  let decoded := omap (resolveLayer net width height) layers in
  let fill :=
    if String.eqb (s_backgroundHex settings) "" then []
    else [FillRect (JStr (s_backgroundHex settings)) width height] in
  gifSettings options = Ret settings ->
  (exists frames, Frames frames ∈ decoded) ->
  if bool_decide (1 <= FRAME_FETCH_CONCURRENCY) then
    exists encoder,
      composeGif net width height layers options
        = Some (Ret {| c_format := "gif"; c_buffer := GifBuffer encoder |}) /\
      length (g_frames encoder) = maxFrameCount decoded /\
      (forall frames, Frames frames ∈ decoded ->
         (length frames <= length (g_frames encoder))%nat /\
         exists layer frs, layer ∈ layers /\ animatedFrames layer = Some frs /\
           frames = omap (loadFrame net width height layer) frs) /\
      (exists frames, Frames frames ∈ decoded /\
         length frames = length (g_frames encoder)) /\
      forall i, (i < length (g_frames encoder))%nat ->
        exists ops,
          g_frames encoder !! i = Some (fill ++ ops) /\
          Forall2
            (fun l op =>
               match l with
               | Static s =>
                   op = DrawImage (sp_img s)
                          (or_else (prop "x" (sp_draw s)) (JNum 0))
                          (or_else (prop "y" (sp_draw s)) (JNum 0))
                          (or_else (prop "w" (sp_draw s)) width)
                          (or_else (prop "h" (sp_draw s)) height)
               | Frames frames =>
                   exists f, frames !! (i mod length frames)%nat = Some f /\
                     op = DrawImage (sp_img f)
                            (or_else (prop "x" (sp_draw f)) (JNum 0))
                            (or_else (prop "y" (sp_draw f)) (JNum 0))
                            (or_else (prop "w" (sp_draw f)) width)
                            (or_else (prop "h" (sp_draw f)) height)
               end)
            decoded ops
  else composeGif net width height layers options = None.
Proof.
  intros decoded fill Hsettings [frames0 Hin0].
  destruct (decoded_Frames layers frames0 Hin0)
    as (layer0 & frs0 & Hl0 & Ht0 & Han0 & _ & Hne0).
  unfold composeGif. rewrite Hsettings.
  case_bool_decide as Hlimit.
  2: { rewrite (decodeLayers_stalls layers layer0 frs0); [reflexivity|lia|done..]. }
  pose proof (maxFrameCount_bound decoded _ Hin0) as Hbound. simpl in Hbound.
  assert (Hpos : (0 < maxFrameCount decoded)%nat).
  { destruct frames0; [done|]. simpl in Hbound. lia. }
  rewrite decodeLayers_resolveLayer by done.
  cbn [mbind option_bind app]. fold decoded. rewrite Nat.max_0_l.
  destruct (Nat.eqb_spec (maxFrameCount decoded) 0) as [Hz|_]; [lia|].
  eexists. split; [reflexivity|]. cbn [g_frames].
  rewrite frameLoop_frames. cbn [app]. rewrite length_map, length_seq.
  split; [reflexivity|]. split.
  { intros frames Hin. split; [apply (maxFrameCount_bound decoded _ Hin)|].
    destruct (decoded_Frames layers frames Hin) as (layer & frs & Hl & _ & Han & Hfr & _).
    now exists layer, frs. }
  split.
  { destruct (maxFrameCount_attained decoded Hpos) as (l & Hin & Heq).
    destruct l as [s|frames]; [simpl in Heq; lia|]. now exists frames. }
  intros i Hi. exists (flat_map (drawLayer width height i) decoded). split.
  - rewrite list_lookup_fmap, lookup_seq_lt by done. cbn [fmap option_fmap option_map].
    now rewrite fillBackground_string.
  - apply drawLayer_Forall2.
Qed.

(** When no animated layer keeps a decoded frame and both limits are at
    least one, [composeGif] resolves with the PNG that [composePng] gives
    for the same layers. *)
Lemma composeGif_fallback (layers : list json) (options : json) (settings : GifSettings) :
  gifSettings options = Ret settings ->
  1 <= FRAME_FETCH_CONCURRENCY ->
  (forall frames, Frames frames ∉ omap (resolveLayer net width height) layers) ->
  composeGif net width height layers options =
  (canvas ← composePng net width height layers (JStr (s_backgroundHex settings));
   Some (Ret {| c_format := "png"; c_buffer := PngBuffer canvas |})).
Proof.
  intros Hsettings Hlimit Hnone. unfold composeGif. rewrite Hsettings.
  rewrite decodeLayers_resolveLayer by done. cbn [mbind option_bind app].
  rewrite Nat.max_0_l.
  destruct (Nat.eqb_spec (maxFrameCount (omap (resolveLayer net width height) layers)) 0)
    as [_|Hnz]; [reflexivity|].
  destruct (maxFrameCount_attained (omap (resolveLayer net width height) layers))
    as (l & Hin & Heq); [lia|].
  destruct l as [s|frames]; [simpl in Heq; lia|]. now destruct (Hnone frames).
Qed.

End Compose.

Lemma composeGif_animated_witness :
  @gifSettings example_runtime (JObj [])
    = Ret {| s_delayMs := Fin 180; s_repeat := Fin 0; s_quality := Fin 10;
             s_wantTransparent := false; s_transparentInt := Fin 16711935;
             s_backgroundHex := "" |} /\
  (exists frames,
     Frames frames ∈ omap (resolveLayer example_net (JNum 300) (JNum 300)) example_layers) /\
  exists encoder,
    @composeGif example_runtime example_net (JNum 300) (JNum 300) example_layers (JObj [])
      = Some (Ret {| c_format := "gif"; c_buffer := GifBuffer encoder |}) /\
    g_frames encoder =
      [[DrawImage (Bitmap "https://cdn.example/backgrounds/default.png")
          (JNum 0) (JNum 0) (JNum 300) (JNum 300);
        DrawImage (Bitmap "https://cdn.example/pet/1.png")
          (JNum 0) (JNum 0) (JNum 300) (JNum 300)];
       [DrawImage (Bitmap "https://cdn.example/backgrounds/default.png")
          (JNum 0) (JNum 0) (JNum 300) (JNum 300);
        DrawImage (Bitmap "https://cdn.example/pet/3.png")
          (JNum 0) (JNum 0) (JNum 300) (JNum 300)]].
Proof.
  assert (Hin : exists frames,
     Frames frames ∈ omap (resolveLayer example_net (JNum 300) (JNum 300)) example_layers).
  { eexists. cbn. right. left. }
  split; [reflexivity|]. split; [exact Hin|].
  destruct (@composeGif_animated example_runtime example_net (JNum 300) (JNum 300)
              example_layers (JObj []) _ eq_refl Hin) as (encoder & Hc & _).
  exists encoder. split; [exact Hc|].
  assert (Hv : exists e,
            @composeGif example_runtime example_net (JNum 300) (JNum 300)
              example_layers (JObj [])
            = Some (Ret {| c_format := "gif"; c_buffer := GifBuffer e |}) /\
            g_frames e =
            [[DrawImage (Bitmap "https://cdn.example/backgrounds/default.png")
                (JNum 0) (JNum 0) (JNum 300) (JNum 300);
              DrawImage (Bitmap "https://cdn.example/pet/1.png")
                (JNum 0) (JNum 0) (JNum 300) (JNum 300)];
             [DrawImage (Bitmap "https://cdn.example/backgrounds/default.png")
                (JNum 0) (JNum 0) (JNum 300) (JNum 300);
              DrawImage (Bitmap "https://cdn.example/pet/3.png")
                (JNum 0) (JNum 0) (JNum 300) (JNum 300)]])
    by (eexists; split; vm_compute; reflexivity).
  destruct Hv as (e & He & Hframes). rewrite Hc in He.
  injection He as <-. exact Hframes.
Defined.

(** ** A layer that cannot be loaded *)

Section ComposeSkip.
Context `{Runtime}.
Variable net : Network.
Variables width height : json.

(** X13. A layer that cannot be loaded (it has no URL, or fetching or
    decoding it fails) is left out: [composePng] gives the picture it gives
    for the list without that layer, and so does [composeGif] when the
    layer contributes no decoded entry either.  The limits of the two
    bounded maps are at least one, without which a composition with a
    layer to load never settles. *)
Theorem compose_skips_failed_layer (l1 l2 : list json) (bad : json)
    (backgroundHex options : json) :
  1 <= STATIC_FETCH_CONCURRENCY ->
  1 <= FRAME_FETCH_CONCURRENCY ->
  loadLayer net width height bad = None ->
  composePng net width height (l1 ++ bad :: l2) backgroundHex
    = composePng net width height (l1 ++ l2) backgroundHex /\
  (resolveLayer net width height bad = None ->
   composeGif net width height (l1 ++ bad :: l2) options
     = composeGif net width height (l1 ++ l2) options).
Proof.
  intros Hstatic Hframe Hbad.
  assert (Hpng : forall bg,
            composePng net width height (l1 ++ bad :: l2) bg
            = composePng net width height (l1 ++ l2) bg).
  { intros bg. rewrite !composePng_settles by done. f_equal. f_equal.
    rewrite !omap_app. cbn [omap list_omap]. now rewrite Hbad. }
  split; [apply Hpng|]. intros Hres.
  unfold composeGif. destruct (gifSettings options) as [settings|e]; [|reflexivity].
  rewrite !decodeLayers_resolveLayer by done.
  rewrite !omap_app. cbn [omap list_omap]. rewrite Hres.
  cbn [mbind option_bind]. now rewrite Hpng.
Qed.

End ComposeSkip.

Lemma compose_skips_failed_layer_witness :
  1 <= @STATIC_FETCH_CONCURRENCY example_runtime /\
  1 <= @FRAME_FETCH_CONCURRENCY example_runtime /\
  loadLayer example_net (JNum 300) (JNum 300) example_missing_layer = None /\
  @composePng example_runtime example_net (JNum 300) (JNum 300)
    ([example_floor_layer] ++ example_missing_layer :: [example_floor_layer]) (JStr "")
  = @composePng example_runtime example_net (JNum 300) (JNum 300)
    ([example_floor_layer] ++ [example_floor_layer]) (JStr "").
Proof.
  assert (Hs : 1 <= @STATIC_FETCH_CONCURRENCY example_runtime) by (vm_compute; discriminate).
  assert (Hf : 1 <= @FRAME_FETCH_CONCURRENCY example_runtime) by (vm_compute; discriminate).
  split; [exact Hs|]. split; [exact Hf|]. split; [reflexivity|].
  exact (proj1 (@compose_skips_failed_layer example_runtime example_net
                  (JNum 300) (JNum 300) [example_floor_layer] [example_floor_layer]
                  example_missing_layer (JStr "") (JObj []) Hs Hf eq_refl)).
Defined.

(** ** [composePng]: what is drawn *)

Section ComposePngOrder.
Context `{Runtime}.
Variable net : Network.
Variables width height : json.

(** X28. [composePng] never rejects, whatever the network answers (the
    calls on the canvas being taken not to throw).  It settles when the
    limit of its bounded map is at least one or there is no layer, and its
    picture is then the background fill, when a background colour is
    given, followed by one draw for each layer that could be loaded, in the
    order of the layers; with a limit below one and a layer to load it
    never settles. *)
Theorem composePng_draws_in_order (layers : list json) (backgroundHex : json) :
  composePng net width height layers backgroundHex =
  if bool_decide (1 <= STATIC_FETCH_CONCURRENCY \/ layers = []) then
    Some ((if truthy backgroundHex then [FillRect backgroundHex width height] else []) ++
          map (fun sp =>
                 DrawImage (sp_img sp)
                   (or_else (prop "x" (sp_draw sp)) (JNum 0))
                   (or_else (prop "y" (sp_draw sp)) (JNum 0))
                   (or_else (prop "w" (sp_draw sp)) width)
                   (or_else (prop "h" (sp_draw sp)) height))
              (omap (loadLayer net width height) layers))
  else None.
Proof. apply composePng_cases. Qed.

End ComposePngOrder.

(** ** [POST /jobs]: validation *)

Section Validation.
Context `{Runtime}.

Lemma declaredFrames_nonneg l : 0 <= declaredFrames l.
Proof.
  unfold declaredFrames. destruct (type_reads _ _); [|lia].
  destruct (prop "frames" l) as [[]|]; lia.
Qed.

Lemma maxDeclaredFrames_nonneg layers : 0 <= maxDeclaredFrames layers.
Proof. unfold maxDeclaredFrames. induction layers; simpl; lia. Qed.

Lemma throws_frameCountEstimate layers estimate :
  throws (frameCountEstimate layers estimate)
  = existsb (fun l => unprintable_val (prop "type" l)) layers.
Proof.
  revert estimate. induction layers as [|l layers IH]; intros estimate; [reflexivity|].
  cbn [frameCountEstimate existsb]. rewrite throws_bind, <- throws_String_.
  destruct (String_ (prop "type" l)); [apply IH|reflexivity].
Qed.

Lemma frameCountEstimate_max layers estimate result :
  0 <= estimate ->
  frameCountEstimate layers estimate = Ret result ->
  result = Z.max estimate (maxDeclaredFrames layers).
Proof.
  revert estimate. induction layers as [|l layers IH]; intros estimate Hpos; simpl.
  - intros [= <-]. unfold maxDeclaredFrames. simpl. lia.
  - pose proof (declaredFrames_nonneg l) as Hl.
    unfold maxDeclaredFrames in *. simpl. unfold declaredFrames, type_reads in *.
    destruct (String_ (prop "type" l)) as [type|e]; [|discriminate].
    cbn [exc_bind]. intros Hrest. apply IH in Hrest.
    + rewrite Hrest. destruct (String.eqb type _); [|lia].
      destruct (prop "frames" l) as [[]|]; lia.
    + destruct (String.eqb type _); [|lia].
      destruct (prop "frames" l) as [[]|]; lia.
Qed.

Lemma truthy_request_payload body : truthy (request_payload body) = true.
Proof.
  unfold request_payload, or_else. destruct body as [w|]; [|reflexivity].
  now destruct (truthy w) eqn:E.
Qed.

Lemma isArray_Boolean (v : jsval) : isArray v = true -> Boolean v = true.
Proof. destruct v as [[]|]; simpl; congruence. Qed.

Lemma Boolean_prop_falsy k payload :
  truthy payload = false -> Boolean (prop k payload) = false.
Proof. now destruct payload. Qed.

(** The answer 400 is given only when a rule is violated. *)
Lemma validate_Some payload e :
  validate payload = Ret (Some e) -> violates_rule_or_falsy payload.
Proof.
  unfold validate, violates_rule_or_falsy, over_limits, payload_width, payload_height.
  destruct (truthy payload) eqn:Ht; cbn [negb orb];
    [|intros _; left; now apply Boolean_prop_falsy].
  destruct (Boolean (prop "guild" payload)); cbn [negb orb]; [|auto].
  destruct (Boolean (prop "user" payload)); cbn [negb orb]; [|auto].
  destruct (isArray (prop "layers" payload)) eqn:Harr; [|auto].
  rewrite (isArray_Boolean _ Harr). cbn [negb orb].
  destruct (ToNumber (or_else (oprop "width" _) _)) as [width|]; [|discriminate].
  destruct (ToNumber (or_else (oprop "height" _) _)) as [height|]; [|discriminate].
  cbn [exc_bind].
  destruct (number_gt width MAX_WIDTH) eqn:Hw; cbn [orb].
  { intros _. right. right. right. left. eauto. }
  destruct (number_gt height MAX_HEIGHT) eqn:Hh; cbn [orb].
  { intros _. right. right. right. right. left. eauto. }
  destruct (prop "layers" payload) as [[| | | |layers|]|]; try discriminate.
  destruct (Z.ltb_spec MAX_LAYERS (Z.of_nat (length layers))) as [Hl|Hl].
  { intros _. right. right. right. right. right. eauto. }
  destruct (frameCountEstimate layers 0) as [estimate|] eqn:Hest; [|discriminate].
  apply frameCountEstimate_max in Hest as ->; [|lia].
  pose proof (maxDeclaredFrames_nonneg layers) as Hnn.
  rewrite Z.max_r by lia. cbn [exc_bind].
  destruct (Z.ltb_spec MAX_FRAMES (maxDeclaredFrames layers)) as [Hf|Hf]; [|discriminate].
  intros _. right. right. right. right. right. eauto.
Qed.

(** A payload passes only when no rule is violated, and the conversions
    of the checks have then all returned. *)
Lemma validate_None payload :
  validate payload = Ret None ->
  ~ violates_rule_or_falsy payload /\
  unprintable (or_else (oprop "width" (prop "size" payload)) (JNum 300)) = false /\
  unprintable (or_else (oprop "height" (prop "size" payload)) (JNum 300)) = false /\
  exists layers, prop "layers" payload = Some (JArr layers) /\
    forallb (fun l => negb (unprintable_val (prop "type" l))) layers = true /\
    Z.of_nat (length layers) <= MAX_LAYERS /\ maxDeclaredFrames layers <= MAX_FRAMES.
Proof.
  unfold validate, violates_rule_or_falsy, over_limits, payload_width, payload_height.
  destruct (truthy payload) eqn:Ht; cbn [negb orb]; [|discriminate].
  destruct (Boolean (prop "guild" payload)); cbn [negb orb]; [|discriminate].
  destruct (Boolean (prop "user" payload)); cbn [negb orb]; [|discriminate].
  destruct (isArray (prop "layers" payload)) eqn:Harr;
    [|rewrite orb_true_r; discriminate].
  rewrite (isArray_Boolean _ Harr). cbn [negb orb].
  rewrite <- (throws_ToNumber (or_else (oprop "width" _) _)).
  rewrite <- (throws_ToNumber (or_else (oprop "height" _) _)).
  destruct (ToNumber (or_else (oprop "width" _) _)) as [width|]; [|discriminate].
  destruct (ToNumber (or_else (oprop "height" _) _)) as [height|]; [|discriminate].
  cbn [exc_bind throws].
  destruct (number_gt width MAX_WIDTH) eqn:Hw; cbn [orb]; [discriminate|].
  destruct (number_gt height MAX_HEIGHT) eqn:Hh; cbn [orb]; [discriminate|].
  destruct (prop "layers" payload) as [[| | | |layers|]|]; try discriminate.
  destruct (Z.ltb_spec MAX_LAYERS (Z.of_nat (length layers))) as [Hl|Hl]; [discriminate|].
  pose proof (throws_frameCountEstimate layers 0) as Hthrows.
  destruct (frameCountEstimate layers 0) as [estimate|] eqn:Hest; [|discriminate].
  apply frameCountEstimate_max in Hest as ->; [|lia].
  pose proof (maxDeclaredFrames_nonneg layers) as Hnn.
  rewrite Z.max_r by lia. cbn [exc_bind].
  destruct (Z.ltb_spec MAX_FRAMES (maxDeclaredFrames layers)) as [Hf|Hf]; [discriminate|].
  intros _. split.
  { intros [?|[?|[?|[(w & [= <-] & ?)|[(h & [= <-] & ?)|(layers' & [= <-] & [?|?])]]]]];
      try discriminate; try congruence; lia. }
  split; [done|]. split; [done|]. exists layers. split; [done|]. split; [|lia].
  cbn [throws] in Hthrows. symmetry in Hthrows.
  apply forallb_forall. intros l Hin. apply negb_true_iff.
  destruct (unprintable_val (prop "type" l)) eqn:E; [|done].
  assert (Hex : existsb (fun l => unprintable_val (prop "type" l)) layers = true)
    by (apply existsb_exists; eauto).
  congruence.
Qed.

(** The checks come to an end when the conversions they make return. *)
Lemma validate_returns payload :
  unprintable (or_else (oprop "width" (prop "size" payload)) (JNum 300)) = false ->
  unprintable (or_else (oprop "height" (prop "size" payload)) (JNum 300)) = false ->
  forallb (fun l => negb (unprintable_val (prop "type" l))) (layersIn_of payload) = true ->
  exists answer, validate payload = Ret answer.
Proof.
  intros Hw Hh Hl. unfold validate.
  destruct (_ || _ || _ || _ || _); [eauto|].
  destruct (ToNumber_printable _ Hw) as [width ->].
  destruct (ToNumber_printable _ Hh) as [height ->]. cbn [exc_bind].
  destruct (_ || _); [eauto|].
  unfold layersIn_of in Hl.
  destruct (prop "layers" payload) as [[| | | |layers|]|]; eauto.
  destruct (_ <? _); [eauto|].
  assert (Hest : throws (frameCountEstimate layers 0) = false).
  { rewrite throws_frameCountEstimate.
    destruct (existsb _ layers) eqn:E; [|done].
    apply existsb_exists in E as (l & Hin & Hu).
    rewrite forallb_forall in Hl. specialize (Hl l Hin). now rewrite Hu in Hl. }
  apply throws_false in Hest as [estimate ->]. cbn [exc_bind].
  destruct (_ <? _); eauto.
Qed.

Lemma coercible_split payload :
  coercible payload = true ->
  unprintable (or_else (oprop "width" (prop "size" payload)) (JNum 300)) = false /\
  unprintable (or_else (oprop "height" (prop "size" payload)) (JNum 300)) = false /\
  forallb (fun l => negb (unprintable_val (prop "type" l))) (layersIn_of payload) = true /\
  unprintable (or_else (prop "format" payload) (JStr "")) = false.
Proof.
  unfold coercible. rewrite !andb_true_iff, !negb_true_iff. tauto.
Qed.

(** C4, amended.  For a payload on which the conversions of the handler
    return, the handler answers with status 400 exactly when [guild] or
    [user] is missing or falsy ([null], [false], zero or the empty
    string), [layers] is missing or not an array, the width exceeds
    [MAX_WIDTH], the height exceeds [MAX_HEIGHT], there are more than
    [MAX_LAYERS] layers, or the longest [frames] list of a pet_gif_frames
    layer has more than [MAX_FRAMES] elements; it then leaves the state
    unchanged.  Every other such payload is accepted: the answer is the job
    identifier, the registry holds a pending record for it and its task is
    spawned.  A payload on which a conversion throws (the width, the
    height, the type of a layer or the format is an object with a property
    named toString, or an array that holds one) is never accepted: it is
    answered with status 400 only when a rule is violated, the state then
    being unchanged, and otherwise the handler throws without having sent
    a response. *)
Theorem postJobs_validation (body : jsval) (jobId : string) (now : Z) (s : system) :
  let payload := request_payload body in
  let answer := postJobs body jobId now s in
  (coercible payload = true ->
   ((exists e, answer.1 = Status400 e) <-> violates_rule_or_falsy payload) /\
   (violates_rule_or_falsy payload -> answer.2 = s) /\
   (~ violates_rule_or_falsy payload ->
    answer.1 = Accepted jobId /\
    jobs answer.2 !! jobId = Some (job_pending payload now) /\
    tasks answer.2 !! jobId = Some Spawned)) /\
  (coercible payload = false ->
   match answer.1 with
   | Status400 _ => violates_rule_or_falsy payload /\ answer.2 = s
   | HandlerThrew message => message = "TypeError"
   | _ => False
   end).
Proof.
  intros payload answer. subst answer. unfold postJobs. fold payload.
  split.
  - intros Hc. apply coercible_split in Hc as (Hw & Hh & Hl & Hf).
    destruct (validate_returns payload Hw Hh Hl) as [[e|] Hv]; rewrite Hv.
    + pose proof (validate_Some payload e Hv) as Hviol. cbn [fst snd].
      split; [split; eauto|]. split; [done|]. tauto.
    + destruct (validate_None payload Hv) as [Hok _].
      destruct (ToString_printable _ Hf) as [format ->]. cbn [fst snd jobs tasks].
      split; [split; [intros [e He]; discriminate|tauto]|].
      split; [tauto|]. intros _. split; [reflexivity|].
      split; apply lookup_insert_eq.
  - intros Hc.
    destruct (validate payload) as [[e|]|e] eqn:Hv; cbn [fst snd].
    + split; [|reflexivity]. eapply validate_Some; eauto.
    + destruct (validate_None payload Hv) as (_ & Hw & Hh & layers & Hl & Hty & _).
      destruct (ToString (or_else (prop "format" payload) (JStr ""))) as [format|e]
        eqn:Hf; cbn [fst].
      * assert (Hcoercible : coercible payload = true); [|congruence].
        unfold coercible, layersIn_of. rewrite Hw, Hh, Hl, Hty.
        pose proof (ToString_cases (or_else (prop "format" payload) (JStr ""))) as Hcase.
        destruct (unprintable (or_else (prop "format" payload) (JStr "")));
          [congruence|reflexivity].
      * now apply ToString_Throw in Hf.
    + revert Hv. unfold validate.
      destruct (_ || _ || _ || _ || _); [discriminate|].
      destruct (ToNumber (or_else (oprop "width" _) _)) as [width|e1] eqn:Hw;
        [|intros [= <-]; now apply ToNumber_Throw in Hw].
      destruct (ToNumber (or_else (oprop "height" _) _)) as [height|e1] eqn:Hh;
        [|intros [= <-]; now apply ToNumber_Throw in Hh].
      cbn [exc_bind]. destruct (_ || _); [discriminate|].
      destruct (prop "layers" payload) as [[| | | |layers|]|]; try discriminate.
      destruct (_ <? _); [discriminate|].
      assert (Hest : forall estimate e1,
                frameCountEstimate layers estimate = Throw e1 -> e1 = "TypeError").
      { clear. induction layers as [|l layers IH]; intros estimate e1; [discriminate|].
        cbn [frameCountEstimate].
        destruct (String_ (prop "type" l)) as [type|e2] eqn:Hty; cbn [exc_bind].
        - apply IH.
        - intros [= <-]. destruct (prop "type" l) as [w|]; [|discriminate].
          now apply ToString_Throw in Hty. }
      destruct (frameCountEstimate layers 0) as [estimate|e1] eqn:Hfc; cbn [exc_bind].
      * destruct (_ <? _); discriminate.
      * intros [= <-]. eapply Hest; eauto.
Qed.

End Validation.

(** Scenario S6: a width of 2048 is rejected. *)
Example postJobs_width_2048 :
  (@postJobs example_runtime
     (Some (JObj [("guild", JStr "g"); ("user", JStr "u");
                  ("size", JObj [("width", JNum 2048)]); ("layers", JArr [])]))
     "job-1" 0 initial).1 = Status400 "Size too large".
Proof. reflexivity. Qed.

(** A width of exactly [MAX_WIDTH] is accepted. *)
Example postJobs_width_1024 :
  (@postJobs example_runtime
     (Some (JObj [("guild", JStr "g"); ("user", JStr "u");
                  ("size", JObj [("width", JNum 1024)]); ("layers", JArr [])]))
     "job-1" 0 initial).1 = Accepted "job-1".
Proof. reflexivity. Qed.

(** C4 as stated fails twice over.  A payload whose [guild] is the empty
    string is rejected with status 400 although [guild] and [user] are
    present, [layers] is an array and no limit is exceeded.  And a payload
    that violates no rule is not accepted when a conversion throws: with a
    width that is an object with a property named toString the handler
    throws without having sent a response; with such a format it throws
    after the record has been stored, and the job stays pending for
    ever. *)
Lemma postJobs_rejects_empty_guild :
  ((@postJobs example_runtime
      (Some (JObj [("guild", JStr ""); ("user", JStr "u1"); ("layers", JArr [])]))
      "job-1" 0 initial).1 = Status400 "Invalid payload" /\
   ~ @violates_rule example_runtime
       (JObj [("guild", JStr ""); ("user", JStr "u1"); ("layers", JArr [])])) /\
  ((@postJobs example_runtime (Some example_unprintable_width_payload)
      "job-1" 0 initial) = (HandlerThrew "TypeError", initial) /\
   ~ @violates_rule_or_falsy example_runtime example_unprintable_width_payload) /\
  ((@postJobs example_runtime (Some example_unprintable_format_payload)
      "job-1" 0 initial).1 = HandlerThrew "TypeError" /\
   jobs (@postJobs example_runtime (Some example_unprintable_format_payload)
           "job-1" 0 initial).2 !! "job-1"
     = Some (job_pending example_unprintable_format_payload 0) /\
   tasks (@postJobs example_runtime (Some example_unprintable_format_payload)
            "job-1" 0 initial).2 = ∅ /\
   ~ @violates_rule_or_falsy example_runtime example_unprintable_format_payload).
Proof.
  split; [|split].
  - split; [reflexivity|].
    intros [Hg|[Hu|[Ha|[(w & [= <-] & Hw)|[(h & [= <-] & Hh)|(layers & [= <-] & [Hl|Hf])]]]]];
      try discriminate; cbn in *; lia.
  - split; [reflexivity|].
    intros [Hg|[Hu|[Ha|[(w & Hw & _)|[(h & [= <-] & Hh)|(layers & [= <-] & [Hl|Hf])]]]]];
      try discriminate; cbn in *; lia.
  - split; [reflexivity|]. split; [reflexivity|]. split; [reflexivity|].
    intros [Hg|[Hu|[Ha|[(w & [= <-] & Hw)|[(h & [= <-] & Hh)|(layers & [= <-] & [Hl|Hf])]]]]];
      try discriminate; cbn in *; lia.
Qed.

(** ** The job registry *)

Section Registry.
Context `{Runtime}.

Lemma registry_step_same s s' : jobs s' = jobs s -> registry_step s s'.
Proof.
  intros Heq id. rewrite Heq. destruct (jobs s !! id) as [j|]; [|congruence].
  exists j. auto.
Qed.

Lemma tasks_pending_same s s' :
  jobs s' = jobs s -> tasks s' = tasks s -> tasks_pending s -> tasks_pending s'.
Proof. intros Hj Ht Hinv id t. rewrite Hj, Ht. apply Hinv. Qed.

Lemma tasks_pending_insert s s' jobId t :
  jobs s' = jobs s -> tasks s' = <[jobId := t]> (tasks s) ->
  (exists j, jobs s !! jobId = Some j /\ j_status j = SPending) ->
  tasks_pending s -> tasks_pending s'.
Proof.
  intros Hj Ht Hpend Hinv id t'. rewrite Hj, Ht.
  destruct (decide (jobId = id)) as [->|Hne].
  - now rewrite lookup_insert_eq.
  - rewrite lookup_insert_ne by done. apply Hinv.
Qed.

Lemma set_job_terminal s jobId jnew :
  (exists j, jobs s !! jobId = Some j /\ j_status j = SPending) ->
  j_status jnew = SDone \/ j_status jnew = SError ->
  tasks_pending s ->
  tasks_pending (set_job jobId jnew s) /\ registry_step s (set_job jobId jnew s).
Proof.
  intros (j & Hj & Hst) Hnew Hinv. split.
  - intros id t. simpl. destruct (decide (jobId = id)) as [->|Hne].
    + now rewrite lookup_delete_eq.
    + rewrite lookup_delete_ne, lookup_insert_ne by done. apply Hinv.
  - intros id. simpl. destruct (decide (jobId = id)) as [->|Hne].
    + rewrite Hj, lookup_insert_eq. exists jnew. split; [done|]. split; [congruence|].
      right. auto.
    + rewrite lookup_insert_ne by done. destruct (jobs s !! id) as [j0|]; [|congruence].
      exists j0. auto.
Qed.

Lemma acquire_jobs p r s : jobs (acquire p r s) = jobs s.
Proof. unfold acquire. now destruct (lt_fraction _ _). Qed.

Lemma acquire_tasks p r s : tasks (acquire p r s) = tasks s.
Proof. unfold acquire. now destruct (lt_fraction _ _). Qed.

Lemma release_jobs s : jobs (release s) = jobs s.
Proof.
  unfold release. destruct (waitQueue s) as [|p q]; [reflexivity|].
  destruct (promises s !! p) as [[]|]; try reflexivity. now rewrite acquire_jobs.
Qed.

Lemma release_tasks s : tasks (release s) = tasks s.
Proof.
  unfold release. destruct (waitQueue s) as [|p q]; [reflexivity|].
  destruct (promises s !! p) as [[]|]; try reflexivity. now rewrite acquire_tasks.
Qed.

Lemma finish_error_ok jobId e now s :
  (exists j, jobs s !! jobId = Some j /\ j_status j = SPending) ->
  tasks_pending s ->
  tasks_pending (finish_error jobId e now s) /\
  registry_step s (finish_error jobId e now s).
Proof. intros. apply set_job_terminal; auto. Qed.

Lemma start_render_ok jobId payload wantsGif cacheKey now s :
  (exists j, jobs s !! jobId = Some j /\ j_status j = SPending) ->
  tasks_pending s ->
  tasks_pending (start_render jobId payload wantsGif cacheKey now s) /\
  registry_step s (start_render jobId payload wantsGif cacheKey now s).
Proof.
  intros Hpend Hinv. unfold start_render.
  destruct (resolvedLayers_of (layersIn_of payload)) as [resolvedLayers|e];
    [|now apply finish_error_ok].
  match goal with |- tasks_pending ?s1 /\ _ =>
    assert (Hj : jobs s1 = jobs s) by (simpl; apply acquire_jobs) end.
  split; [|now apply registry_step_same].
  eapply tasks_pending_insert; [exact Hj| |exact Hpend|exact Hinv].
  simpl. now rewrite acquire_tasks.
Qed.

Lemma finish_done_ok jobId url format now payload s :
  (exists j, jobs s !! jobId = Some j /\ j_status j = SPending) ->
  tasks_pending s ->
  tasks_pending (finish_done jobId url format now payload s) /\
  registry_step s (finish_done jobId url format now payload s).
Proof.
  intros Hpend Hinv. unfold finish_done.
  destruct Hpend as (j & Hj & Hst). rewrite Hj.
  apply set_job_terminal; eauto.
Qed.

Lemma run_task_ok jobId now mkdir s :
  (exists j, jobs s !! jobId = Some j /\ j_status j = SPending) ->
  tasks_pending s ->
  tasks_pending (run_task jobId now mkdir s) /\
  registry_step s (run_task jobId now mkdir s).
Proof.
  intros Hpend Hinv. unfold run_task.
  destruct Hpend as (j & Hj & Hst). rewrite Hj.
  assert (Hpend : exists j, jobs s !! jobId = Some j /\ j_status j = SPending)
    by eauto.
  destruct j as [st u f e c fin [payload|]]; try (now apply finish_error_ok).
  destruct (wantsGif_of payload (layersIn_of payload)) as [wantsGif|e0];
    [|now apply finish_error_ok].
  destruct (stableHashPayload payload) as [cacheKey|e1];
    [|now apply finish_error_ok].
  destruct mkdir as [[]|e2]; [|now apply finish_error_ok].
  cbn [exc_bind].
  case_bool_decide; [now apply finish_done_ok|].
  case_bool_decide; [now apply finish_done_ok|].
  destruct (inFlightByKey s !! cacheKey) as [p|]; [|now apply start_render_ok].
  split; [|now apply registry_step_same].
  apply (tasks_pending_insert s _ jobId (AwaitDedup p payload wantsGif cacheKey));
    [reflexivity|reflexivity|exact Hpend|exact Hinv].
Qed.

Lemma postJobs_ok body jobId now s :
  jobs s !! jobId = None -> tasks_pending s ->
  tasks_pending (postJobs body jobId now s).2 /\
  registry_step s (postJobs body jobId now s).2.
Proof.
  intros Hfresh Hinv. unfold postJobs.
  destruct (validate (request_payload body)) as [[e|]|e]; cbn [snd];
    try (split; [done|now apply registry_step_same]).
  assert (Hreg : forall spawned,
            registry_step s
              {| jobs := <[jobId := job_pending (request_payload body) now]> (jobs s);
                 inFlightByKey := inFlightByKey s; promises := promises s;
                 nextPromise := nextPromise s; out := out s; tasks := spawned;
                 activeRenders := activeRenders s; waitQueue := waitQueue s |}).
  { intros spawned id. simpl. destruct (decide (jobId = id)) as [->|Hne].
    - rewrite Hfresh, lookup_insert_eq. now intros j' [= <-].
    - rewrite lookup_insert_ne by done.
      destruct (jobs s !! id) as [j0|]; [|congruence]. exists j0. auto. }
  destruct (ToString _) as [format|e]; cbn [snd]; (split; [|apply Hreg]).
  - intros id t. simpl. destruct (decide (jobId = id)) as [->|Hne].
    + rewrite !lookup_insert_eq. intros _. eauto.
    + rewrite !lookup_insert_ne by done. apply Hinv.
  - intros id t. simpl. destruct (decide (jobId = id)) as [->|Hne].
    + rewrite !lookup_insert_eq. intros _. eauto.
    + rewrite !lookup_insert_ne by done. apply Hinv.
Qed.

Lemma compose_render_jobs p net opened s s' :
  compose_render p net opened s = Some s' -> jobs s' = jobs s /\ tasks s' = tasks s.
Proof.
  unfold compose_render.
  destruct (promises s !! p) as [[r|r|r name content|u|m]|]; try discriminate.
  destruct (render_compose net r) as [[[name content]|e]|]; try discriminate;
    cbn [mbind option_bind]; [destruct opened as [[]|e]|]; intros [= <-];
    rewrite ?release_jobs, ?release_tasks; split; reflexivity.
Qed.

Lemma write_settled_jobs p written s s' :
  write_settled p written s = Some s' -> jobs s' = jobs s /\ tasks s' = tasks s.
Proof.
  unfold write_settled.
  destruct (promises s !! p) as [[r|r|r name content|u|m]|]; try discriminate.
  destruct written as [[]|e]; intros [= <-];
    rewrite ?release_jobs, ?release_tasks; split; reflexivity.
Qed.

Lemma step_ok e s s' :
  tasks_pending s -> step e s = Some s' ->
  tasks_pending s' /\ registry_step s s'.
Proof.
  intros Hinv Hstep. destruct e as [body jobId now|jobId now mkdir|p net opened
                                   |p written|jobId now|jobId]; simpl in Hstep.
  - destruct (jobs s !! jobId) eqn:Hfresh; [discriminate|].
    injection Hstep as <-. now apply postJobs_ok.
  - destruct (tasks s !! jobId) as [[]|] eqn:Ht; try discriminate.
    injection Hstep as <-. apply run_task_ok; [|done]. eapply Hinv; eauto.
  - destruct (compose_render_jobs _ _ _ _ _ Hstep) as [Hj Ht].
    split; [now apply (tasks_pending_same s)|now apply registry_step_same].
  - destruct (write_settled_jobs _ _ _ _ Hstep) as [Hj Ht].
    split; [now apply (tasks_pending_same s)|now apply registry_step_same].
  - unfold resume_task in Hstep.
    destruct (tasks s !! jobId) as [[|p payload wg key|p payload key]|] eqn:Ht;
      try discriminate;
      pose proof (Hinv _ _ Ht) as Hpend;
      destruct (promises s !! p) as [[r|r|r name content|url|m]|]; try discriminate.
    + destruct (String.eqb url ""); injection Hstep as <-;
        [now apply start_render_ok|now apply finish_done_ok].
    + injection Hstep as <-. now apply start_render_ok.
    + injection Hstep as <-.
      destruct (finish_done_ok jobId url (format_of_url url) now payload
                  (delete_inFlight key s) Hpend Hinv) as [H1 H2].
      split; [done|]. intros id. specialize (H2 id). exact H2.
    + injection Hstep as <-. now apply finish_error_ok.
  - injection Hstep as <-. split; [done|now apply registry_step_same].
Qed.

Lemma run_ok events s s' :
  tasks_pending s -> run events s = Some s' -> tasks_pending s'.
Proof.
  revert s. induction events as [|e events IH]; intros s Hinv; simpl.
  - now intros [= <-].
  - destruct (step e s) as [s1|] eqn:Hstep; [|discriminate]. simpl.
    apply IH. now apply (step_ok e s s1).
Qed.

Lemma reachable_tasks_pending s : reachable s -> tasks_pending s.
Proof.
  intros [events Hrun]. eapply run_ok; [|exact Hrun].
  intros id t. unfold initial. simpl. now rewrite lookup_empty.
Qed.

Lemma run_registry events s s' id j :
  tasks_pending s -> run events s = Some s' -> jobs s !! id = Some j ->
  exists j', jobs s' !! id = Some j' /\
    (j_status j <> SPending -> j' = j) /\
    (j_status j' = j_status j \/
     j_status j = SPending /\ (j_status j' = SDone \/ j_status j' = SError)).
Proof.
  revert s j. induction events as [|e events IH]; intros s j Hinv; simpl.
  - intros [= <-] Hj. exists j. auto.
  - destruct (step e s) as [s1|] eqn:Hstep; [|discriminate]. simpl.
    intros Hrun Hj.
    destruct (step_ok e s s1 Hinv Hstep) as [Hinv1 Hreg].
    specialize (Hreg id). rewrite Hj in Hreg.
    destruct Hreg as (j1 & Hj1 & Hsame1 & Hst1).
    destruct (IH s1 j1 Hinv1 Hrun Hj1) as (j' & Hj' & Hsame & Hst).
    exists j'. split; [done|]. split.
    + intros Hterm. rewrite <- (Hsame1 Hterm). apply Hsame.
      now rewrite (Hsame1 Hterm).
    + destruct Hst1 as [Heq|[Hp Hterm1]].
      * rewrite <- Heq. exact Hst.
      * right. split; [done|].
        rewrite (Hsame ltac:(destruct Hterm1 as [-> | ->]; discriminate)).
        exact Hterm1.
Qed.

(** C9. From any reachable state: a record that enters the registry is
    pending; and along every later sequence of events (registry updates
    and polls) a record keeps its status or goes from pending to done or
    to error, a done or error record being left exactly as it is. *)
Theorem job_status_monotone (s : system) (id : string) :
  reachable s ->
  (forall e s', step e s = Some s' -> jobs s !! id = None ->
     forall j', jobs s' !! id = Some j' -> j_status j' = SPending) /\
  (forall events s' j, run events s = Some s' -> jobs s !! id = Some j ->
     exists j', jobs s' !! id = Some j' /\
       (j_status j <> SPending -> j' = j) /\
       (j_status j' = j_status j \/
        j_status j = SPending /\ (j_status j' = SDone \/ j_status j' = SError))).
Proof.
  intros Hreach. pose proof (reachable_tasks_pending s Hreach) as Hinv. split.
  - intros e s' Hstep Hnone.
    destruct (step_ok e s s' Hinv Hstep) as [_ Hreg].
    specialize (Hreg id). now rewrite Hnone in Hreg.
  - intros events s' j Hrun Hj. eapply run_registry; eauto.
Qed.

End Registry.


(** ** The render task and the fallback to PNG *)

Lemma endsWith_png_not_gif (a : string) : endsWith (a +:+ ".png") ".gif" = false.
Proof.
  induction a as [|x a IH]; [reflexivity|].
  rewrite append_String. cbn [endsWith]. rewrite IH, orb_false_r.
  apply String.eqb_neq. intros Heq.
  apply (f_equal String.length) in Heq. simpl in Heq.
  rewrite length_append in Heq. simpl in Heq. lia.
Qed.

Lemma format_of_url_png (a : string) : format_of_url (a +:+ ".png") = "png".
Proof. unfold format_of_url. now rewrite endsWith_png_not_gif. Qed.

Section RenderTask.
Context `{Runtime}.

Lemma acquire_promise p r s q v :
  promises s !! q = Some v -> p <> q -> promises (acquire p r s) !! q = Some v.
Proof.
  intros Hq Hne. unfold acquire. destruct (lt_fraction _ _); simpl;
    now rewrite lookup_insert_ne.
Qed.

Lemma acquire_out p r s : out (acquire p r s) = out s.
Proof. unfold acquire. now destruct (lt_fraction _ _). Qed.

Lemma acquire_inFlight p r s : inFlightByKey (acquire p r s) = inFlightByKey s.
Proof. unfold acquire. now destruct (lt_fraction _ _). Qed.

Lemma acquire_nextPromise p r s : nextPromise (acquire p r s) = nextPromise s.
Proof. unfold acquire. now destruct (lt_fraction _ _). Qed.

(** [release()] leaves a promise that is not waiting as it is. *)
Lemma release_settled s p v :
  promises s !! p = Some v -> (forall r, v <> Waiting r) ->
  promises (release s) !! p = Some v.
Proof.
  intros Hp Hv. unfold release. destruct (waitQueue s) as [|q rest]; [done|].
  destruct (promises s !! q) as [[r| | | |]|] eqn:Hq; try done.
  apply acquire_promise; [done|]. intros ->. rewrite Hp in Hq.
  injection Hq as ->. now apply (Hv r).
Qed.

Lemma release_out s : out (release s) = out s.
Proof.
  unfold release. destruct (waitQueue s) as [|q rest]; [done|].
  destruct (promises s !! q) as [[]|]; try done. now rewrite acquire_out.
Qed.

Lemma release_inFlight s : inFlightByKey (release s) = inFlightByKey s.
Proof.
  unfold release. destruct (waitQueue s) as [|q rest]; [done|].
  destruct (promises s !! q) as [[]|]; try done. now rewrite acquire_inFlight.
Qed.

Lemma release_nextPromise s : nextPromise (release s) = nextPromise s.
Proof.
  unfold release. destruct (waitQueue s) as [|q rest]; [done|].
  destruct (promises s !! q) as [[]|]; try done. now rewrite acquire_nextPromise.
Qed.

End RenderTask.

Lemma default_Some {X : Type} (o : option X) (d : X) :
  o <> None -> o = Some (default d o).
Proof. now destruct o. Qed.

Lemma run_default_reachable (R : Runtime) (events : list event) :
  @run R events initial <> None ->
  @reachable R (default initial (@run R events initial)).
Proof. intros Hrun. exists events. now apply default_Some. Qed.

Lemma default_run_reachable events :
  @run example_runtime events initial <> None ->
  @reachable example_runtime (default initial (@run example_runtime events initial)).
Proof.
  intros Hrun. exists events. now destruct (run events initial).
Qed.

Lemma job_status_monotone_witness :
  @reachable example_runtime (example_state example_net (Ret tt)) /\
  (forall e s',
     @step example_runtime e (example_state example_net (Ret tt)) = Some s' ->
     jobs (example_state example_net (Ret tt)) !! "job-1" = None ->
     forall j', jobs s' !! "job-1" = Some j' -> j_status j' = SPending) /\
  (forall events s' j,
     @run example_runtime events (example_state example_net (Ret tt)) = Some s' ->
     jobs (example_state example_net (Ret tt)) !! "job-1" = Some j ->
     exists j', jobs s' !! "job-1" = Some j' /\
       (j_status j <> SPending -> j' = j) /\
       (j_status j' = j_status j \/
        j_status j = SPending /\ (j_status j' = SDone \/ j_status j' = SError))).
Proof.
  assert (Hreach : @reachable example_runtime (example_state example_net (Ret tt)))
    by (apply default_run_reachable; vm_compute; discriminate).
  split; [exact Hreach|].
  exact (@job_status_monotone example_runtime _ "job-1" Hreach).
Defined.


(** ** The route of a render *)

Section RenderRoute.
Context `{Runtime}.

Lemma reads_frames_type_reads l b :
  reads_frames l = Ret b -> type_reads l "pet_gif_frames" = b.
Proof.
  unfold reads_frames, type_reads.
  destruct (String_ (prop "type" l)) as [type|e]; [|discriminate]. now intros [= <-].
Qed.

(** A layer that the loop pushes reads as a layer of frames exactly when
    the layer it was made from is animated. *)
Lemma resolve_layer_animated l pushed :
  resolve_layer l = Ret pushed ->
  match pushed with
  | Some l' => reads_frames l' = Ret (is_animated l)
  | None => is_animated l = false
  end.
Proof.
  unfold resolve_layer, is_animated.
  destruct (truthy l); cbn [negb andb]; [|now intros [= <-]].
  destruct (reads_frames l) as [b|e] eqn:Hb; [|discriminate]. cbn [exc_bind].
  rewrite (reads_frames_type_reads l b Hb).
  destruct b; cbn [andb].
  - destruct (isArray (prop "frames" l)); [now intros [= <-]|].
    destruct (if Boolean (prop "url" l) then _ else _) as [directUrl|e]; [|discriminate].
    cbn [exc_bind].
    destruct (match directUrl with Some _ => _ | None => _ end) as [url|e];
      [|discriminate].
    cbn [exc_bind]. intros [= <-].
    destruct url as [u|]; [|reflexivity]. now destruct (String.eqb u "").
  - destruct (if Boolean (prop "url" l) then _ else _) as [directUrl|e]; [|discriminate].
    cbn [exc_bind].
    destruct (match directUrl with Some _ => _ | None => _ end) as [url|e];
      [|discriminate].
    cbn [exc_bind]. intros [= <-].
    destruct url as [u|]; [|reflexivity]. now destruct (String.eqb u "").
Qed.

Lemma hasFrames_resolved layersIn resolvedLayers :
  resolvedLayers_of layersIn = Ret resolvedLayers ->
  hasFrames_of resolvedLayers = Ret (existsb is_animated layersIn).
Proof.
  unfold hasFrames_of, resolvedLayers_of. revert resolvedLayers.
  induction layersIn as [|l ls IH]; intros resolvedLayers; [now intros [= <-]|].
  cbn [exc_omap existsb].
  destruct (resolve_layer l) as [pushed|e] eqn:Hl; [|discriminate].
  apply resolve_layer_animated in Hl. cbn [exc_bind].
  destruct (exc_omap resolve_layer ls) as [rest|e]; [|discriminate].
  cbn [exc_bind]. intros [= <-]. specialize (IH rest eq_refl).
  destruct pushed as [l'|].
  - cbn [exc_some]. rewrite Hl. cbn [exc_bind]. now destruct (is_animated l).
  - now rewrite Hl.
Qed.

Lemma exc_some_true {X} (f : X -> exc bool) (l : list X) (x : X) (w : bool) :
  exc_some f l = Ret w -> x ∈ l -> f x = Ret true -> w = true.
Proof.
  intros Hw Hin Hx. induction l as [|a l IH]; [inversion Hin|].
  cbn [exc_some] in Hw. destruct (f a) as [b|e] eqn:Ha; [|discriminate].
  cbn [exc_bind] in Hw. destruct b; [congruence|].
  apply elem_of_cons in Hin as [->|Hin]; [congruence|]. now apply IH.
Qed.

Lemma wantsGif_animated payload layersIn w :
  wantsGif_of payload layersIn = Ret w ->
  existsb is_animated layersIn = true -> w = true.
Proof.
  unfold wantsGif_of. destruct (ToString _) as [format|e]; [|discriminate].
  cbn [exc_bind]. destruct (String.eqb _ "gif"); [congruence|].
  intros Hw Han. apply existsb_exists in Han as (l & Hin & Hl).
  unfold is_animated in Hl. apply andb_true_iff in Hl as [Hl _].
  apply andb_true_iff in Hl as [Ht Hty].
  eapply exc_some_true; [exact Hw|apply list_elem_of_In; exact Hin|].
  cbn beta. rewrite Ht. unfold reads_frames, type_reads in *.
  destruct (String_ (prop "type" l)); [|discriminate]. cbn [exc_bind]. now rewrite Hty.
Qed.

(** X10. Which of [composeGif] and [composePng] a render calls depends
    on the layers alone: the test [wantsGif && hasFrames] is true exactly
    when some layer is an object whose type reads pet_gif_frames and whose
    frames are an array.  The [format] of the payload plays no part in
    it.  (A render is started only when the conversions that give
    [wantsGif] and the resolved layers have returned.) *)
Theorem render_route_by_layers (payload : json) (layersIn resolvedLayers : list json)
    (wantsGif : bool) :
  wantsGif_of payload layersIn = Ret wantsGif ->
  resolvedLayers_of layersIn = Ret resolvedLayers ->
  exists hasFrames,
    hasFrames_of resolvedLayers = Ret hasFrames /\
    wantsGif && hasFrames = existsb is_animated layersIn.
Proof.
  intros Hw Hr. exists (existsb is_animated layersIn).
  split; [now apply hasFrames_resolved|].
  destruct (existsb is_animated layersIn) eqn:Han; [|apply andb_false_r].
  now rewrite (wantsGif_animated payload layersIn wantsGif Hw Han).
Qed.

End RenderRoute.

Lemma render_route_by_layers_witness :
  wantsGif_of example_gif_payload (layersIn_of example_gif_payload) = Ret true /\
  @resolvedLayers_of example_runtime (layersIn_of example_gif_payload)
    = Ret (r_layers example_render) /\
  exists hasFrames,
    hasFrames_of (r_layers example_render) = Ret hasFrames /\
    true && hasFrames = existsb is_animated (layersIn_of example_gif_payload).
Proof.
  assert (Hr : @resolvedLayers_of example_runtime (layersIn_of example_gif_payload)
               = Ret (r_layers example_render)) by (vm_compute; reflexivity).
  split; [reflexivity|]. split; [exact Hr|].
  exact (@render_route_by_layers example_runtime example_gif_payload
           (layersIn_of example_gif_payload) (r_layers example_render) true
           eq_refl Hr).
Defined.

(** ** A payload with a [null] layer *)

Section NullLayer.
Context `{Runtime}.

Lemma null_frame_unhashable frs :
  existsb is_null frs = true -> existsb unhashable_frame frs = true.
Proof.
  intros Hn. apply existsb_exists in Hn as (fr & Hin & Hfr).
  apply existsb_exists. exists fr. split; [done|].
  unfold unhashable_frame. now rewrite Hfr.
Qed.

Lemma null_entry_unhashable size_w size_h l :
  null_entry l = true -> unhashable_layer size_w size_h l = true.
Proof.
  unfold null_entry, unhashable_layer. intros Hn.
  apply orb_true_iff in Hn as [Hn|Hn]; [now rewrite Hn|].
  apply andb_true_iff in Hn as [Hty Hfr]. rewrite Hty.
  destruct (prop "frames" l) as [[| | | |frs|]|]; try discriminate.
  rewrite (null_frame_unhashable frs Hfr). cbn [andb]. apply orb_true_r.
Qed.

Lemma null_entry_throws payload layers :
  prop "layers" payload = Some (JArr layers) ->
  existsb null_entry layers = true ->
  exists e, stableHashPayload payload = Throw e.
Proof.
  intros Hl Hn.
  pose proof (throws_stableHashPayload payload layers Hl) as Ht.
  assert (Hu : unhashable payload = true).
  { unfold unhashable, layersIn_of. rewrite Hl.
    apply existsb_exists in Hn as (l & Hin & Hnull).
    apply orb_true_iff. left. apply existsb_exists. exists l. split; [done|].
    now apply null_entry_unhashable. }
  rewrite Hu in Ht. destruct (stableHashPayload payload) as [d|e]; [discriminate|eauto].
Qed.

(** X12. The validation of [POST /jobs] lets a payload with a [null]
    layer, or a [null] frame in a layer of frames, through, and the job is
    then lost: it is accepted (its format being a value that [String]
    converts), and when its task runs the fingerprint throws, the task
    records the status error, and nothing is rendered or written. *)
Theorem postJobs_null_layer_errors (body : jsval) (layers : list json)
    (jobId : string) (now now' : Z) (mkdir : exc unit) (s : system) :
  validate (request_payload body) = Ret None ->
  unprintable (or_else (prop "format" (request_payload body)) (JStr "")) = false ->
  prop "layers" (request_payload body) = Some (JArr layers) ->
  existsb null_entry layers = true ->
  jobs s !! jobId = None ->
  (postJobs body jobId now s).1 = Accepted jobId /\
  exists s',
    run [Submit body jobId now; RunTask jobId now' mkdir] s = Some s' /\
    j_status <$> jobs s' !! jobId = Some SError /\
    tasks s' !! jobId = None /\
    promises s' = promises s /\ out s' = out s /\
    inFlightByKey s' = inFlightByKey s.
Proof.
  intros Hv Hf Hl Hnull Hfresh.
  destruct (null_entry_throws _ _ Hl Hnull) as [e He].
  destruct (ToString_printable _ Hf) as [format Hformat].
  cbn [run step]. rewrite Hfresh. unfold postJobs. rewrite Hv, Hformat.
  cbn [mbind option_bind fst snd tasks]. rewrite lookup_insert_eq.
  split; [reflexivity|]. eexists. split; [reflexivity|].
  unfold run_task. cbn [jobs]. rewrite lookup_insert_eq. cbn [job_pending j_payload].
  rewrite He.
  destruct (wantsGif_of _ _) as [wantsGif|e0]; cbn [exc_bind];
    cbn; rewrite lookup_insert_eq, lookup_delete_eq; auto.
Qed.

End NullLayer.

Lemma postJobs_null_layer_errors_witness :
  @validate example_runtime (request_payload (Some example_null_layer_payload)) = Ret None /\
  (@postJobs example_runtime (Some example_null_layer_payload) "job-1" 1000 initial).1
    = Accepted "job-1" /\
  exists s',
    @run example_runtime
      [Submit (Some example_null_layer_payload) "job-1" 1000;
       RunTask "job-1" 1001 (Ret tt)] initial = Some s' /\
    j_status <$> jobs s' !! "job-1" = Some SError /\
    tasks s' !! "job-1" = None /\
    promises s' = promises initial /\ out s' = out initial /\
    inFlightByKey s' = inFlightByKey initial.
Proof.
  split; [reflexivity|].
  exact (@postJobs_null_layer_errors example_runtime (Some example_null_layer_payload)
           [JNull] "job-1" 1000 1001 (Ret tt) initial
           eq_refl eq_refl eq_refl eq_refl eq_refl).
Defined.

(** ** The in-flight table after a rejected render *)

Section InFlightCleanup.
Context `{Runtime}.

(** When the render promise is fulfilled, the task removes the entry of
    its fingerprint from the in-flight table. *)
Lemma resume_task_fulfilled_deletes jobId now s p payload cacheKey url :
  tasks s !! jobId = Some (AwaitRender p payload cacheKey) ->
  promises s !! p = Some (Fulfilled url) ->
  exists s', resume_task jobId now s = Some s' /\
    inFlightByKey s' !! cacheKey = None.
Proof.
  intros Ht Hp. unfold resume_task. rewrite Ht, Hp. eexists. split; [reflexivity|].
  unfold finish_done. cbn [delete_inFlight jobs].
  destruct (jobs s !! jobId); simpl; apply lookup_delete_eq.
Qed.

(** When it is rejected, the task leaves the in-flight table as it is. *)
Lemma resume_task_rejected_keeps jobId now s p payload cacheKey e :
  tasks s !! jobId = Some (AwaitRender p payload cacheKey) ->
  promises s !! p = Some (Rejected e) ->
  exists s', resume_task jobId now s = Some s' /\
    inFlightByKey s' = inFlightByKey s /\
    j_status <$> jobs s' !! jobId = Some SError.
Proof.
  intros Ht Hp. unfold resume_task. rewrite Ht, Hp. eexists. split; [reflexivity|].
  split; [reflexivity|]. simpl. now rewrite lookup_insert_eq.
Qed.

End InFlightCleanup.

(** C6 fails on the code.  A job is submitted and its task starts a
    render; [fsp.writeFile] fails, so the render promise is rejected; the
    task resumes in its [catch] clause and marks the job as an error.
    Afterwards the task is over, and the in-flight table still maps the
    fingerprint to the rejected promise. *)
Theorem inFlight_entry_stale_after_rejection :
  @run example_runtime
    (example_events example_net (Throw "ENOSPC: no space left on device, write")
     ++ [ResumeTask "job-1" 1002]) initial = Some example_failed_state /\
  @stableHashPayload example_runtime example_gif_payload = Ret example_cacheKey /\
  j_status <$> jobs example_failed_state !! "job-1" = Some SError /\
  tasks example_failed_state !! "job-1" = None /\
  promises example_failed_state !! 0%nat
    = Some (Rejected "ENOSPC: no space left on device, write") /\
  inFlightByKey example_failed_state !! example_cacheKey = Some 0%nat.
Proof.
  split.
  { unfold example_failed_state.
    destruct (run _ initial) as [s|] eqn:Hrun; [reflexivity|].
    vm_compute in Hrun. discriminate. }
  split_and!; vm_compute; reflexivity.
Qed.


(** ** The render semaphore *)

Lemma lt_fraction_mono (m n : Z) (x : fraction) :
  m <= n -> lt_fraction n x = true -> lt_fraction m x = true.
Proof.
  intros Hle. destruct x as [|negative|num den]; cbn; [done..|].
  rewrite !Z.ltb_lt. nia.
Qed.

Section Semaphore.
Context `{Runtime}.

Lemma semaphore_inv_same s s' holders :
  promises s' = promises s -> activeRenders s' = activeRenders s ->
  waitQueue s' = waitQueue s -> nextPromise s' = nextPromise s ->
  semaphore_inv s holders -> semaphore_inv s' holders.
Proof. unfold semaphore_inv. intros -> -> -> ->. tauto. Qed.

Lemma semaphore_inv_initial : semaphore_inv initial [].
Proof.
  unfold semaphore_inv, initial. cbn. split_and!; try done; try lia.
  - apply NoDup_nil_2.
  - intros p. rewrite lookup_empty. split; [intros Hin; inversion Hin|].
    intros (pr & Hpr & _). discriminate.
  - apply NoDup_nil_2.
  - intros p. rewrite lookup_empty. split; [intros Hin; inversion Hin|].
    intros [r Hr]. discriminate.
  - intros p. rewrite lookup_empty. intros [x Hx]. discriminate.
Qed.

(** A promise in progress goes on to its next stage with its permit. *)
Lemma semaphore_inv_stage s s' p pr v holders :
  semaphore_inv s holders ->
  promises s !! p = Some pr -> holds_permit pr = true -> holds_permit v = true ->
  promises s' = <[p := v]> (promises s) -> activeRenders s' = activeRenders s ->
  waitQueue s' = waitQueue s -> nextPromise s' = nextPromise s ->
  semaphore_inv s' holders.
Proof.
  intros (Hnd & Hhold & Hact & Hmax & Hndq & Hwait & Hfull & Hfresh)
         Hp Hpr Hv Hprom Hactive Hqueue Hnext.
  unfold semaphore_inv. rewrite Hprom, Hactive, Hqueue, Hnext. split_and!; try done.
  - intros x. rewrite Hhold. destruct (decide (x = p)) as [->|Hne].
    + rewrite lookup_insert_eq, Hp. split; intros _; eauto.
    + now rewrite lookup_insert_ne by done.
  - intros x. rewrite Hwait. destruct (decide (x = p)) as [->|Hne].
    + rewrite lookup_insert_eq, Hp.
      split; intros [r' [= Hr']]; subst; discriminate.
    + now rewrite lookup_insert_ne by done.
  - intros x. destruct (decide (x = p)) as [->|Hne].
    + intros _. apply Hfresh. now rewrite Hp.
    + rewrite lookup_insert_ne by done. apply Hfresh.
Qed.

Lemma acquire_semaphore (r : render) s s1 holders :
  semaphore_inv s holders ->
  jobs s1 = jobs (acquire (nextPromise s) r s) ->
  promises s1 = promises (acquire (nextPromise s) r s) ->
  activeRenders s1 = activeRenders (acquire (nextPromise s) r s) ->
  waitQueue s1 = waitQueue (acquire (nextPromise s) r s) ->
  nextPromise s1 = S (nextPromise s) ->
  exists holders', semaphore_inv s1 holders'.
Proof.
  intros (Hnd & Hhold & Hact & Hmax & Hndq & Hwait & Hfull & Hfresh)
         _ Hprom Hactive Hqueue Hnext.
  assert (Hnew : promises s !! nextPromise s = None).
  { destruct (promises s !! nextPromise s) eqn:E; [|reflexivity].
    assert (nextPromise s < nextPromise s)%nat by (apply Hfresh; eauto). lia. }
  assert (Hnh : nextPromise s ∉ holders).
  { intros Hin. apply Hhold in Hin as (pr & Hpr & _). congruence. }
  assert (Hnq : nextPromise s ∉ waitQueue s).
  { intros Hin. apply Hwait in Hin as [r' Hr']. congruence. }
  unfold semaphore_inv. rewrite Hprom, Hactive, Hqueue, Hnext. unfold acquire.
  destruct (lt_fraction (activeRenders s) MAX_CONCURRENCY) eqn:Hroom;
    cbn [promises activeRenders waitQueue nextPromise].
  - exists (holders ++ [nextPromise s]). split_and!.
    + apply NoDup_app. split_and!; [done| |apply NoDup_singleton].
      intros x Hx Hx'. apply list_elem_of_singleton in Hx'. now subst.
    + intros p. rewrite elem_of_app, list_elem_of_singleton, Hhold.
      destruct (decide (p = nextPromise s)) as [->|Hne].
      * rewrite lookup_insert_eq. split; eauto.
      * rewrite lookup_insert_ne by done. split; [intros [?|?]; [done|congruence]|auto].
    + rewrite length_app. simpl. lia.
    + intros _. now replace (activeRenders s + 1 - 1) with (activeRenders s) by lia.
    + done.
    + intros p. rewrite Hwait. destruct (decide (p = nextPromise s)) as [->|Hne].
      * rewrite lookup_insert_eq, Hnew. split; intros [r' Hr']; discriminate.
      * now rewrite lookup_insert_ne by done.
    + intros Hq. specialize (Hfull Hq). congruence.
    + intros p. destruct (decide (p = nextPromise s)) as [->|Hne]; [lia|].
      rewrite lookup_insert_ne by done. intros Hp. specialize (Hfresh p Hp). lia.
  - exists holders. split_and!.
    + done.
    + intros p. rewrite Hhold. destruct (decide (p = nextPromise s)) as [->|Hne].
      * rewrite lookup_insert_eq, Hnew.
        split; intros (pr & [= <-] & Hpr); discriminate.
      * now rewrite lookup_insert_ne by done.
    + done.
    + done.
    + apply NoDup_app. split_and!; [done| |apply NoDup_singleton].
      intros x Hx Hx'. apply list_elem_of_singleton in Hx'. now subst.
    + intros p. rewrite elem_of_app, list_elem_of_singleton, Hwait.
      destruct (decide (p = nextPromise s)) as [->|Hne].
      * rewrite lookup_insert_eq. split; eauto.
      * rewrite lookup_insert_ne by done. split; [intros [?|?]; [done|congruence]|auto].
    + intros _. exact Hroom.
    + intros p. destruct (decide (p = nextPromise s)) as [->|Hne]; [lia|].
      rewrite lookup_insert_ne by done. intros Hp. specialize (Hfresh p Hp). lia.
Qed.

Lemma finish_error_semaphore jobId e now s holders :
  semaphore_inv s holders -> semaphore_inv (finish_error jobId e now s) holders.
Proof. now apply semaphore_inv_same. Qed.

Lemma finish_done_semaphore jobId url format now payload s holders :
  semaphore_inv s holders ->
  semaphore_inv (finish_done jobId url format now payload s) holders.
Proof.
  unfold finish_done. destruct (jobs s !! jobId); [now apply semaphore_inv_same|].
  apply finish_error_semaphore.
Qed.

Lemma start_render_semaphore jobId payload wantsGif cacheKey now s holders :
  semaphore_inv s holders ->
  exists holders',
    semaphore_inv (start_render jobId payload wantsGif cacheKey now s) holders'.
Proof.
  intros Hinv. unfold start_render.
  destruct (resolvedLayers_of (layersIn_of payload)) as [resolvedLayers|e];
    [|exists holders; now apply finish_error_semaphore].
  eapply acquire_semaphore; [exact Hinv|reflexivity..].
Qed.

(** The promise [p], which holds a permit, settles as [v] and [release()]
    runs. *)
Lemma release_semaphore s p pr v holders :
  semaphore_inv s holders ->
  promises s !! p = Some pr -> holds_permit pr = true ->
  settled v = true ->
  exists holders', semaphore_inv (release (set_promise p v s)) holders'.
Proof.
  intros (Hnd & Hhold & Hact & Hmax & Hndq & Hwait & Hfull & Hfresh) Hp Hpr Hv.
  assert (Hin : p ∈ holders) by (apply Hhold; eauto).
  pose proof (length_filter_remove holders p Hnd Hin) as Hlen.
  set (hs2 := filter (fun x => x <> p) holders) in *.
  assert (Hnd2 : NoDup hs2) by now apply NoDup_filter.
  assert (Hpos : 0 < activeRenders s).
  { destruct holders; [inversion Hin|]. simpl in Hact. lia. }
  set (s2 := set_promise p v s).
  assert (Hhold2 : forall x, x ∈ hs2 <->
            exists pr', promises s2 !! x = Some pr' /\ holds_permit pr' = true).
  { intros x. unfold hs2. rewrite list_elem_of_filter, Hhold. cbn [s2 set_promise promises].
    destruct (decide (x = p)) as [->|Hne].
    - rewrite lookup_insert_eq. split; [tauto|]. intros (pr' & [= <-] & Hpr').
      destruct v; discriminate.
    - rewrite lookup_insert_ne by done. tauto. }
  assert (Hwait2 : forall x, x ∈ waitQueue s <->
                     exists r', promises s2 !! x = Some (Waiting r')).
  { intros x. rewrite Hwait. cbn [s2 set_promise promises].
    destruct (decide (x = p)) as [->|Hne].
    - rewrite lookup_insert_eq, Hp. split; intros [r' [= Hr']]; subst; discriminate.
    - now rewrite lookup_insert_ne by done. }
  assert (Hfresh2 : forall x, is_Some (promises s2 !! x) -> (x < nextPromise s)%nat).
  { intros x. cbn [s2 set_promise promises]. destruct (decide (x = p)) as [->|Hne].
    - intros _. apply Hfresh. now rewrite Hp.
    - rewrite lookup_insert_ne by done. apply Hfresh. }
  unfold release. cbn [s2 set_promise waitQueue activeRenders jobs inFlightByKey
                       nextPromise out tasks].
  fold s2. change (promises (set_promise p v s)) with (promises s2).
  destruct (waitQueue s) as [|q rest] eqn:Hq.
  - exists hs2. unfold semaphore_inv.
    cbn [promises activeRenders waitQueue nextPromise tail].
    split_and!; try done; try lia.
    intros Hpos'. apply (lt_fraction_mono _ (activeRenders s - 1)); [lia|auto].
  - assert (Hqw : exists r', promises s2 !! q = Some (Waiting r'))
      by (apply Hwait2; left).
    destruct Hqw as [r' Hqw]. rewrite Hqw. unfold acquire.
    cbn [promises activeRenders waitQueue nextPromise tail].
    replace (Z.max 0 (activeRenders s - 1)) with (activeRenders s - 1) by lia.
    rewrite (Hmax Hpos).
    apply NoDup_cons in Hndq as [Hqrest Hndrest].
    exists (hs2 ++ [q]). unfold semaphore_inv.
    cbn [promises activeRenders waitQueue nextPromise]. split_and!.
    + apply NoDup_app. split_and!; [done| |apply NoDup_singleton].
      intros x Hx Hx'. apply list_elem_of_singleton in Hx'. subst x.
      apply Hhold2 in Hx as (pr0 & Hpr0 & Hh0). rewrite Hqw in Hpr0.
      injection Hpr0 as <-. discriminate.
    + intros x. rewrite elem_of_app, list_elem_of_singleton, Hhold2.
      destruct (decide (x = q)) as [->|Hne].
      * rewrite lookup_insert_eq. split; eauto.
      * rewrite lookup_insert_ne by done. split; [intros [?|?]; [done|congruence]|auto].
    + rewrite length_app. simpl. lia.
    + intros _. replace (activeRenders s - 1 + 1 - 1) with (activeRenders s - 1) by lia.
      auto.
    + done.
    + intros x. destruct (decide (x = q)) as [->|Hne].
      * rewrite lookup_insert_eq. split; [done|]. intros [r0 Hr0]. discriminate.
      * rewrite lookup_insert_ne by done. rewrite <- Hwait2, elem_of_cons. tauto.
    + intros _. replace (activeRenders s - 1 + 1) with (activeRenders s) by lia.
      now apply Hfull.
    + intros x. destruct (decide (x = q)) as [->|Hne].
      * intros _. apply Hfresh2. now rewrite Hqw.
      * rewrite lookup_insert_ne by done. apply Hfresh2.
Qed.

Lemma compose_render_semaphore p net opened s s' holders :
  semaphore_inv s holders -> compose_render p net opened s = Some s' ->
  exists holders', semaphore_inv s' holders'.
Proof.
  intros Hinv. unfold compose_render.
  destruct (promises s !! p) as [[r|r|r name content|u|m]|] eqn:Hp; try discriminate.
  destruct (render_compose net r) as [[[name content]|e]|]; try discriminate;
    cbn [mbind option_bind]; [destruct opened as [[]|e]|]; intros [= <-].
  - exists holders.
    now apply (semaphore_inv_stage s _ p (Rendering r) (Writing r name content)).
  - now apply (release_semaphore s p (Rendering r) (Rejected e) holders).
  - now apply (release_semaphore s p (Rendering r) (Rejected e) holders).
Qed.

Lemma write_settled_semaphore p written s s' holders :
  semaphore_inv s holders -> write_settled p written s = Some s' ->
  exists holders', semaphore_inv s' holders'.
Proof.
  intros Hinv. unfold write_settled.
  destruct (promises s !! p) as [[r|r|r name content|u|m]|] eqn:Hp; try discriminate.
  destruct written as [[]|e]; intros [= <-].
  - now apply (release_semaphore s p (Writing r name content) (Fulfilled _) holders).
  - now apply (release_semaphore s p (Writing r name content) (Rejected e) holders).
Qed.

Lemma step_semaphore e s s' holders :
  semaphore_inv s holders -> step e s = Some s' ->
  exists holders', semaphore_inv s' holders'.
Proof.
  intros Hinv Hstep. destruct e as [body jobId now|jobId now mkdir|p net opened
                                   |p written|jobId now|jobId]; simpl in Hstep.
  - destruct (jobs s !! jobId); [discriminate|]. injection Hstep as <-.
    exists holders. unfold postJobs.
    destruct (validate _) as [[e|]|e]; cbn [snd]; try exact Hinv.
    destruct (ToString _); cbn [snd]; now apply (semaphore_inv_same s).
  - destruct (tasks s !! jobId) as [[]|]; try discriminate. injection Hstep as <-.
    unfold run_task.
    destruct (jobs s !! jobId) as [[st u f er c fin [payload|]]|];
      try (exists holders; now apply finish_error_semaphore).
    destruct (wantsGif_of payload (layersIn_of payload)) as [wantsGif|e0];
      [|exists holders; now apply finish_error_semaphore].
    destruct (stableHashPayload payload) as [cacheKey|e1];
      [|exists holders; now apply finish_error_semaphore].
    destruct mkdir as [[]|e2]; [|exists holders; now apply finish_error_semaphore].
    cbn [exc_bind].
    case_bool_decide; [exists holders; now apply finish_done_semaphore|].
    case_bool_decide; [exists holders; now apply finish_done_semaphore|].
    destruct (inFlightByKey s !! cacheKey) as [p|];
      [|now apply start_render_semaphore with holders].
    exists holders. now apply (semaphore_inv_same s).
  - eapply compose_render_semaphore; eauto.
  - eapply write_settled_semaphore; eauto.
  - unfold resume_task in Hstep.
    destruct (tasks s !! jobId) as [[|p payload wg key|p payload key]|];
      try discriminate;
      destruct (promises s !! p) as [[r|r|r name content|url|m]|]; try discriminate.
    + destruct (String.eqb url ""); injection Hstep as <-.
      * now apply start_render_semaphore with holders.
      * exists holders. now apply finish_done_semaphore.
    + injection Hstep as <-. now apply start_render_semaphore with holders.
    + injection Hstep as <-. exists holders.
      apply finish_done_semaphore. now apply (semaphore_inv_same s).
    + injection Hstep as <-. exists holders. now apply finish_error_semaphore.
  - injection Hstep as <-. eauto.
Qed.

Lemma run_semaphore events s s' holders :
  semaphore_inv s holders -> run events s = Some s' ->
  exists holders', semaphore_inv s' holders'.
Proof.
  revert s holders. induction events as [|e events IH]; intros s holders Hinv; simpl.
  - intros [= <-]. eauto.
  - destruct (step e s) as [s1|] eqn:Hstep; [|discriminate]. simpl.
    destruct (step_semaphore e s s1 holders Hinv Hstep) as [holders1 Hinv1]. eauto.
Qed.

(** X20. In every state the service can reach, [activeRenders] counts the
    render promises that are between [acquire()] and [release()], composing
    or writing their file; it is never negative, and the render that took a
    permit last found fewer than [MAX_CONCURRENCY] renders in progress: so
    [activeRenders] stays below [MAX_CONCURRENCY + 1], which for a whole
    [MAX_CONCURRENCY] means that it never exceeds it, and it stays zero
    when [MAX_CONCURRENCY] is not positive or not a number.  The wait queue
    holds exactly the promises that wait for a permit, each once, and none
    of them waits while [activeRenders < MAX_CONCURRENCY]. *)
Theorem render_semaphore_bound (s : system) :
  reachable s ->
  exists holders,
    NoDup holders /\
    (forall p, p ∈ holders <->
       exists pr, promises s !! p = Some pr /\ holds_permit pr = true) /\
    activeRenders s = Z.of_nat (length holders) /\
    0 <= activeRenders s /\
    match MAX_CONCURRENCY with
    | FNaN | FInfinity true => activeRenders s = 0
    | FInfinity false => True
    | Frac num den => activeRenders s * Z.pos den < Z.max 0 num + Z.pos den
    end /\
    (forall n, MAX_CONCURRENCY = Frac n 1 -> activeRenders s <= Z.max 0 n) /\
    NoDup (waitQueue s) /\
    (forall p, p ∈ waitQueue s <-> exists r, promises s !! p = Some (Waiting r)) /\
    (waitQueue s <> [] -> lt_fraction (activeRenders s) MAX_CONCURRENCY = false).
Proof.
  intros [events Hrun].
  destruct (run_semaphore events initial s [] semaphore_inv_initial Hrun)
    as (holders & Hnd & Hhold & Hact & Hmax & Hndq & Hwait & Hfull & _).
  assert (Hnn : 0 <= activeRenders s) by lia.
  assert (Hbound :
    match MAX_CONCURRENCY with
    | FNaN | FInfinity true => activeRenders s = 0
    | FInfinity false => True
    | Frac num den => activeRenders s * Z.pos den < Z.max 0 num + Z.pos den
    end).
  { destruct (Z.eq_dec (activeRenders s) 0) as [Hz|Hnz].
    - rewrite Hz. destruct MAX_CONCURRENCY as [|[]|num den]; try done. lia.
    - specialize (Hmax ltac:(lia)).
      destruct MAX_CONCURRENCY as [|[]|num den]; try done; cbn in Hmax.
      apply Z.ltb_lt in Hmax. nia. }
  exists holders. split_and!; try done.
  intros n Hn. rewrite Hn in Hbound. lia.
Qed.

(** X26. The permits are handed over in the order of arrival: when a
    render settles while others wait (its write settles, or its
    composition or the opening of its file fails), [release()] wakes the
    promise at the head of the wait queue, which takes the permit at once;
    the rest of the queue is unchanged, and so is the number of renders in
    progress. *)
Theorem release_wakes_first_waiter (s s' : system) (p : nat) (net : Network)
    (opened written : exc unit) (q : nat) (rest : list nat) :
  reachable s -> waitQueue s = q :: rest ->
  write_settled p written s = Some s' \/
  compose_render p net opened s = Some s' /\
  (exists message, promises s' !! p = Some (Rejected message)) ->
  (exists r, promises s !! q = Some (Waiting r) /\
             promises s' !! q = Some (Rendering r)) /\
  waitQueue s' = rest /\ activeRenders s' = activeRenders s.
Proof.
  intros [events Hrun] Hq Hsettle.
  destruct (run_semaphore events initial s [] semaphore_inv_initial Hrun)
    as (holders & Hnd & Hhold & Hact & Hmax & Hndq & Hwait & Hfull & _).
  assert (Hqw : exists r', promises s !! q = Some (Waiting r'))
    by (apply Hwait; rewrite Hq; left).
  destruct Hqw as [r' Hqw].
  assert (Hrel : forall pr v,
            promises s !! p = Some pr -> holds_permit pr = true ->
            promises (release (set_promise p v s)) !! q = Some (Rendering r') /\
            waitQueue (release (set_promise p v s)) = rest /\
            activeRenders (release (set_promise p v s)) = activeRenders s).
  { intros pr v Hp Hpr.
    assert (Hne : p <> q) by (intros ->; rewrite Hp in Hqw; now injection Hqw as ->).
    assert (Hin : p ∈ holders) by (apply Hhold; eauto).
    assert (Hpos : 0 < activeRenders s).
    { destruct holders; [inversion Hin|]. simpl in Hact. lia. }
    unfold release.
    cbn [set_promise promises activeRenders waitQueue nextPromise tail]. rewrite Hq.
    rewrite lookup_insert_ne by done. rewrite Hqw. unfold acquire.
    cbn [promises activeRenders waitQueue nextPromise tail].
    replace (Z.max 0 (activeRenders s - 1)) with (activeRenders s - 1) by lia.
    rewrite (Hmax Hpos).
    cbn [promises activeRenders waitQueue]. rewrite lookup_insert_eq.
    split_and!; [reflexivity|reflexivity|lia]. }
  assert (Hgoal : forall pr v,
            promises s !! p = Some pr -> holds_permit pr = true ->
            s' = release (set_promise p v s) ->
            (exists r, promises s !! q = Some (Waiting r) /\
                       promises s' !! q = Some (Rendering r)) /\
            waitQueue s' = rest /\ activeRenders s' = activeRenders s).
  { intros pr v Hp Hpr ->. destruct (Hrel pr v Hp Hpr) as (Hq' & Hrest & Hsame).
    split; [exists r'; split; [exact Hqw|exact Hq']|]. split; [exact Hrest|exact Hsame]. }
  destruct Hsettle as [Hwrite|[Hcompose [message Hrej]]].
  - unfold write_settled in Hwrite.
    destruct (promises s !! p) as [[r|r|r name content|u|m]|] eqn:Hp; try discriminate.
    destruct written as [[]|e]; injection Hwrite as <-;
      eapply Hgoal; reflexivity.
  - unfold compose_render in Hcompose.
    destruct (promises s !! p) as [[r|r|r name content|u|m]|] eqn:Hp; try discriminate.
    destruct (render_compose net r) as [[[name content]|e]|]; try discriminate;
      cbn [mbind option_bind] in Hcompose; [destruct opened as [[]|e]|];
      injection Hcompose as <-;
      try (eapply Hgoal; reflexivity).
    cbn [open_file set_promise promises] in Hrej.
    rewrite lookup_insert_eq in Hrej. discriminate.
Qed.

End Semaphore.

Lemma render_semaphore_bound_witness :
  @reachable fractional_runtime example_fractional_state /\
  @MAX_CONCURRENCY fractional_runtime = Frac 5 2 /\
  activeRenders example_fractional_state = 3 /\
  waitQueue example_fractional_state = [3%nat] /\
  exists holders,
    (forall p, p ∈ holders <->
       exists pr, promises example_fractional_state !! p = Some pr /\
                  holds_permit pr = true) /\
    activeRenders example_fractional_state = Z.of_nat (length holders) /\
    activeRenders example_fractional_state * 2 < Z.max 0 5 + 2.
Proof.
  assert (Hreach : @reachable fractional_runtime example_fractional_state)
    by (apply run_default_reachable; vm_compute; discriminate).
  assert (Hact : activeRenders example_fractional_state = 3)
    by (vm_compute; reflexivity).
  assert (Hq : waitQueue example_fractional_state = [3%nat])
    by (vm_compute; reflexivity).
  split; [exact Hreach|]. split; [reflexivity|]. split; [exact Hact|].
  split; [exact Hq|].
  destruct (@render_semaphore_bound fractional_runtime _ Hreach)
    as (holders & _ & Hhold & Hlen & _ & Hmax & _).
  exists holders. split; [exact Hhold|]. split; [exact Hlen|exact Hmax].
Defined.

(** ** What the registry, the promises and the output directory agree on *)

Lemma endsWith_append (a suffix : string) : endsWith (a +:+ suffix) suffix = true.
Proof.
  induction a as [|x a IH].
  - rewrite append_empty. destruct suffix; cbn [endsWith]; now rewrite String.eqb_refl.
  - rewrite append_String. cbn [endsWith]. rewrite IH. apply orb_true_r.
Qed.

Lemma format_of_url_gif (a : string) : format_of_url (a +:+ ".gif") = "gif".
Proof. unfold format_of_url. now rewrite endsWith_append. Qed.

Lemma gif_name_not_png (key key' : string) : key +:+ ".gif" <> key' +:+ ".png".
Proof.
  intros Heq. apply append_inj_r_length in Heq; [discriminate|reflexivity].
Qed.

Section ServiceInvariant.
Context `{Runtime}.

Lemma format_of_out_url_gif key : format_of_url (out_url (key +:+ ".gif")) = "gif".
Proof. unfold out_url. rewrite <- !append_assoc. apply format_of_url_gif. Qed.

Lemma format_of_out_url_png key : format_of_url (out_url (key +:+ ".png")) = "png".
Proof. unfold out_url. rewrite <- !append_assoc. apply format_of_url_png. Qed.

Lemma file_for_mono s s' key url :
  (forall name, name ∈ out s -> name ∈ out s') ->
  file_for s key url -> file_for s' key url.
Proof. intros Hout [[-> Hf]|[-> Hf]]; [left|right]; auto. Qed.

Lemma extends_same s s' :
  out s' = out s -> promises s' = promises s -> extends s s'.
Proof.
  intros Hout Hprom. split.
  - intros name. now rewrite Hout.
  - intros key p. unfold promise_for, file_for. now rewrite Hprom, Hout.
Qed.

Lemma promise_for_out s s' key p :
  promises s' = promises s -> (forall name, name ∈ out s -> name ∈ out s') ->
  promise_for s key p -> promise_for s' key p.
Proof.
  intros Hprom Hout. unfold promise_for. rewrite Hprom.
  destruct (promises s !! p) as [[r|r|r name content|url|m]|]; try done.
  - intros (Hr & Hw & Hn). auto.
  - now apply file_for_mono.
Qed.

Lemma extends_trans s1 s2 s3 : extends s1 s2 -> extends s2 s3 -> extends s1 s3.
Proof. intros [Ho1 Hp1] [Ho2 Hp2]. split; auto. Qed.

Lemma file_for_extends s s' key url :
  extends s s' -> file_for s key url -> file_for s' key url.
Proof. intros [Hout _]. now apply file_for_mono. Qed.

Lemma task_ok_extends s s' t : extends s s' -> task_ok s t -> task_ok s' t.
Proof.
  intros [_ Hprom]. destruct t as [|p payload wg key|p payload key]; simpl;
    [done|intros [Hp Hh]; auto..].
Qed.

Lemma job_ok_extends s s' j : extends s s' -> job_ok s j -> job_ok s' j.
Proof.
  intros Hext. unfold job_ok. destruct (j_status j); [done| |done].
  intros (payload & key & url & Hp & Hh & Hu & Hf & Hrest).
  destruct Hrest as (Hfmt & Herr & Hfin).
  exists payload, key, url. split_and!; try assumption. eapply file_for_extends; eauto.
Qed.

(** The invariant carries over to a state whose files and promises extend
    those of the old one, when the new entries of the three maps are in
    order. *)
Lemma service_inv_next s s' :
  service_inv s -> extends s s' ->
  (forall p, is_Some (promises s' !! p) -> (p < nextPromise s')%nat) ->
  (forall key p, inFlightByKey s' !! key = Some p ->
     inFlightByKey s !! key = Some p \/ promise_for s' key p) ->
  (forall id t, tasks s' !! id = Some t -> tasks s !! id = Some t \/ task_ok s' t) ->
  (forall id j, jobs s' !! id = Some j -> jobs s !! id = Some j \/ job_ok s' j) ->
  service_inv s'.
Proof.
  intros (_ & Hfl & Htk & Hjb) Hext Hfresh Hfl' Htk' Hjb'.
  split_and!; [exact Hfresh|..].
  - intros key p Hp. destruct (Hfl' _ _ Hp) as [Hold|Hnew]; [|exact Hnew].
    destruct Hext as [_ Hprom]. apply Hprom. eauto.
  - intros id t Ht. destruct (Htk' _ _ Ht) as [Hold|Hnew]; [|exact Hnew].
    eapply task_ok_extends; eauto.
  - intros id j Hj. destruct (Hjb' _ _ Hj) as [Hold|Hnew]; [|exact Hnew].
    eapply job_ok_extends; eauto.
Qed.

Lemma set_job_inv jobId j s :
  service_inv s -> job_ok s j -> service_inv (set_job jobId j s).
Proof.
  intros Hinv Hj.
  assert (Hext : extends s (set_job jobId j s)) by now apply extends_same.
  apply (service_inv_next s); [exact Hinv|exact Hext|apply Hinv|auto| |].
  - intros id t. cbn [set_job tasks]. intros Ht.
    apply lookup_delete_Some in Ht as [_ Ht]. auto.
  - intros id j'. cbn [set_job jobs]. destruct (decide (jobId = id)) as [->|Hne].
    + rewrite lookup_insert_eq. intros [= <-]. right. eapply job_ok_extends; eauto.
    + rewrite lookup_insert_ne by done. auto.
Qed.

Lemma finish_error_inv jobId e now s :
  service_inv s -> service_inv (finish_error jobId e now s).
Proof.
  intros Hinv. apply set_job_inv; [done|]. unfold job_ok. cbn. split_and!; eauto.
Qed.

Lemma finish_done_inv jobId url now payload key s :
  service_inv s -> stableHashPayload payload = Ret key -> file_for s key url ->
  service_inv (finish_done jobId url (format_of_url url) now payload s).
Proof.
  intros Hinv Hh Hf. unfold finish_done.
  destruct (jobs s !! jobId) as [j|]; [|now apply finish_error_inv].
  apply set_job_inv; [done|]. unfold job_ok. cbn.
  exists payload, key, url. split_and!; eauto.
Qed.

Lemma acquire_lookup p r s q :
  q <> p -> promises (acquire p r s) !! q = promises s !! q.
Proof.
  intros Hne. unfold acquire. destruct (lt_fraction _ _); cbn; now rewrite lookup_insert_ne.
Qed.

Lemma acquire_lookup_eq p r s :
  promises (acquire p r s) !! p = Some (Waiting r) \/
  promises (acquire p r s) !! p = Some (Rendering r).
Proof. unfold acquire. destruct (lt_fraction _ _); cbn; rewrite lookup_insert_eq; auto. Qed.

(** A promise that retries [acquire()] keeps its render. *)
Lemma acquire_extends p r s :
  promises s !! p = None \/ promises s !! p = Some (Waiting r) ->
  extends s (acquire p r s).
Proof.
  intros Hp. split.
  - intros name. now rewrite acquire_out.
  - intros key q. unfold promise_for, file_for. rewrite acquire_out.
    destruct (decide (q = p)) as [->|Hne]; [|now rewrite acquire_lookup].
    destruct Hp as [-> | ->]; [done|].
    now destruct (acquire_lookup_eq p r s) as [-> | ->].
Qed.

Lemma start_render_inv jobId payload wantsGif cacheKey now s :
  service_inv s -> stableHashPayload payload = Ret cacheKey ->
  service_inv (start_render jobId payload wantsGif cacheKey now s).
Proof.
  intros Hinv Hh. unfold start_render.
  destruct (resolvedLayers_of (layersIn_of payload)) as [resolvedLayers|e] eqn:Hres;
    [|now apply finish_error_inv].
  destruct Hinv as (Hfresh & Hfl & Htk & Hjb).
  assert (Hnew : promises s !! nextPromise s = None).
  { destruct (promises s !! nextPromise s) eqn:E; [|reflexivity].
    assert (nextPromise s < nextPromise s)%nat by (apply Hfresh; eauto). lia. }
  match goal with |- context [acquire _ ?r0 s] => set (r := r0) end.
  assert (Hr : render_for cacheKey r) by (split_and!; [reflexivity|exact Hh|exact Hres]).
  assert (Hext : extends s (acquire (nextPromise s) r s))
    by (apply acquire_extends; auto).
  match goal with |- service_inv ?st => set (s' := st) end.
  assert (Hext' : extends s s').
  { eapply extends_trans; [exact Hext|]. now apply extends_same. }
  assert (Hfor : promise_for s' cacheKey (nextPromise s)).
  { unfold promise_for. subst s'. cbn [promises].
    now destruct (acquire_lookup_eq (nextPromise s) r s) as [-> | ->]. }
  apply (service_inv_next s); try done.
  - subst s'. cbn [promises nextPromise]. intros p.
    destruct (decide (p = nextPromise s)) as [->|Hne]; [lia|].
    rewrite acquire_lookup by done. intros Hp. specialize (Hfresh p Hp). lia.
  - subst s'. cbn [inFlightByKey]. rewrite acquire_inFlight. intros key p.
    destruct (decide (cacheKey = key)) as [->|Hne].
    + rewrite lookup_insert_eq. intros [= <-]. now right.
    + rewrite lookup_insert_ne by done. auto.
  - subst s'. cbn [tasks]. rewrite acquire_tasks. intros id t.
    destruct (decide (jobId = id)) as [->|Hne].
    + rewrite lookup_insert_eq. intros [= <-]. right. split; [exact Hfor|exact Hh].
    + rewrite lookup_insert_ne by done. auto.
  - subst s'. cbn [jobs]. rewrite acquire_jobs. auto.
Qed.

Lemma release_extends s :
  (forall p, is_Some (promises s !! p) -> (p < nextPromise s)%nat) ->
  extends s (release s) /\
  (forall p, is_Some (promises (release s) !! p) -> (p < nextPromise (release s))%nat).
Proof.
  intros Hfresh. unfold release.
  match goal with |- context [acquire _ _ ?st] => set (s1 := st) end.
  assert (Hs1 : extends s s1) by now apply extends_same.
  destruct (waitQueue s) as [|q rest]; [now split|].
  destruct (promises s !! q) as [[r| | | |]|] eqn:Hq; try (now split).
  split.
  - eapply extends_trans; [exact Hs1|]. apply acquire_extends. now right.
  - intros p. rewrite acquire_nextPromise. cbn [nextPromise s1].
    destruct (decide (p = q)) as [->|Hne].
    + intros _. apply Hfresh. now rewrite Hq.
    + rewrite acquire_lookup by done. apply Hfresh.
Qed.

Lemma composeGif_format net width height layers options c :
  composeGif net width height layers options = Some (Ret c) ->
  (c_format c = "gif" /\ exists encoder, c_buffer c = GifBuffer encoder) \/
  (c_format c = "png" /\ exists canvas, c_buffer c = PngBuffer canvas).
Proof.
  unfold composeGif. destruct (gifSettings options) as [settings|e]; [|discriminate].
  destruct (decodeLayers net width height layers [] 0%nat) as [[decoded maxFrames]|];
    [|discriminate].
  cbn [mbind option_bind]. destruct (maxFrames =? 0)%nat.
  - destruct (composePng _ _ _ _ _) as [canvas|]; [|discriminate].
    intros [= <-]. right. eauto.
  - intros [= <-]. left. eauto.
Qed.

(** The file a render writes is named after its fingerprint and the kind
    of its buffer. *)
Lemma render_compose_Ret net r name content :
  render_compose net r = Some (Ret (name, content)) ->
  written_as (r_cacheKey r) name content.
Proof.
  unfold render_compose, written_as.
  destruct (hasFrames_of (r_layers r)) as [hasFrames|e]; [|discriminate].
  destruct (r_wantsGif r && hasFrames).
  - destruct (composeGif _ _ _ _ _) as [[c|e]|] eqn:Hc; try discriminate.
    cbn [mbind option_bind]. intros [= <- <-].
    destruct (composeGif_format _ _ _ _ _ _ Hc) as [[-> [enc ->]]|[-> [canvas ->]]];
      [left|right]; eauto.
  - destruct (composePng _ _ _ _ _) as [canvas|]; [|discriminate].
    cbn [mbind option_bind]. intros [= <- <-]. right. eauto.
Qed.

Lemma set_promise_fresh p pr v s :
  promises s !! p = Some pr ->
  (forall q, is_Some (promises s !! q) -> (q < nextPromise s)%nat) ->
  forall q, is_Some (promises (set_promise p v s) !! q) ->
    (q < nextPromise (set_promise p v s))%nat.
Proof.
  intros Hp Hfresh q. cbn [set_promise promises nextPromise].
  destruct (decide (q = p)) as [->|Hne].
  - intros _. apply Hfresh. now rewrite Hp.
  - rewrite lookup_insert_ne by done. apply Hfresh.
Qed.

(** A promise that holds a permit is rejected. *)
Lemma reject_extends p pr e s :
  promises s !! p = Some pr -> extends s (set_promise p (Rejected e) s).
Proof.
  intros Hp. split; [auto|]. intros key q. unfold promise_for, file_for.
  cbn [set_promise promises out]. destruct (decide (q = p)) as [->|Hne].
  - now rewrite lookup_insert_eq.
  - now rewrite lookup_insert_ne by done.
Qed.

Lemma release_inv s0 s :
  service_inv s0 -> extends s0 s ->
  (forall q, is_Some (promises s !! q) -> (q < nextPromise s)%nat) ->
  inFlightByKey s = inFlightByKey s0 -> tasks s = tasks s0 -> jobs s = jobs s0 ->
  service_inv (release s).
Proof.
  intros Hinv Hext Hfresh Hfl Htk Hjb.
  destruct (release_extends s Hfresh) as [Hext' Hfresh'].
  apply (service_inv_next s0); try done.
  - eapply extends_trans; eauto.
  - rewrite release_inFlight, Hfl. auto.
  - rewrite release_tasks, Htk. auto.
  - rewrite release_jobs, Hjb. auto.
Qed.

Lemma compose_render_inv p net opened s s' :
  service_inv s -> compose_render p net opened s = Some s' -> service_inv s'.
Proof.
  intros Hinv Hstep. unfold compose_render in Hstep.
  destruct (promises s !! p) as [[r|r|r name content|u|m]|] eqn:Hp; try discriminate.
  assert (Hreject : forall e, service_inv (release (set_promise p (Rejected e) s))).
  { intros e. apply (release_inv s); try done.
    - eapply reject_extends; eauto.
    - eapply set_promise_fresh; [eauto|apply Hinv]. }
  destruct (render_compose net r) as [[[name content]|e]|] eqn:Hbody;
    try discriminate; cbn [mbind option_bind] in Hstep;
    [destruct opened as [[]|e]|]; injection Hstep as <-; try apply Hreject.
  apply render_compose_Ret in Hbody.
  apply (service_inv_next s); try done.
  - split; [cbn [open_file set_promise out]; set_solver|].
    intros key q. unfold promise_for. cbn [open_file set_promise promises out].
    destruct (decide (q = p)) as [->|Hne].
    + rewrite lookup_insert_eq, Hp. intros Hr. split; [exact Hr|].
      destruct Hr as (<- & _). split; [exact Hbody|set_solver].
    + rewrite lookup_insert_ne by done.
      destruct (promises s !! q) as [[r1|r1|r1 name1 content1|url|m]|]; try done.
      * intros (Hr & Hw & Hn). split_and!; try done. set_solver.
      * apply file_for_mono. set_solver.
  - apply (set_promise_fresh p (Rendering r) _ s Hp). apply Hinv.
  - cbn. auto.
  - cbn. auto.
  - cbn. auto.
Qed.

Lemma write_settled_inv p written s s' :
  service_inv s -> write_settled p written s = Some s' -> service_inv s'.
Proof.
  intros Hinv Hstep. unfold write_settled in Hstep.
  destruct (promises s !! p) as [[r|r|r name content|u|m]|] eqn:Hp; try discriminate.
  destruct written as [[]|e]; injection Hstep as <-.
  - apply (release_inv s); try done.
    + split; [auto|]. intros key q. unfold promise_for.
      cbn [set_promise promises out]. destruct (decide (q = p)) as [->|Hne].
      * rewrite lookup_insert_eq, Hp. intros (_ & Hw & Hn).
        destruct Hw as [[-> _]|[-> _]]; [left|right]; split; done.
      * now rewrite lookup_insert_ne by done.
    + eapply set_promise_fresh; [eauto|apply Hinv].
  - apply (release_inv s); try done.
    + eapply reject_extends; eauto.
    + eapply set_promise_fresh; [eauto|apply Hinv].
Qed.

Lemma delete_inFlight_inv key s :
  service_inv s -> service_inv (delete_inFlight key s).
Proof.
  intros Hinv.
  apply (service_inv_next s);
    [exact Hinv|now apply extends_same|apply Hinv| |auto|auto].
  intros k p. cbn [delete_inFlight inFlightByKey]. intros Hk.
  apply lookup_delete_Some in Hk as [_ Hk]. auto.
Qed.

Lemma run_task_inv jobId now mkdir s :
  service_inv s -> service_inv (run_task jobId now mkdir s).
Proof.
  intros Hinv. unfold run_task.
  destruct (jobs s !! jobId) as [[st u f er c fin [payload|]]|];
    try (now apply finish_error_inv).
  destruct (wantsGif_of payload (layersIn_of payload)) as [wantsGif|e0];
    [|now apply finish_error_inv].
  destruct (stableHashPayload payload) as [cacheKey|e1] eqn:Hh;
    [|now apply finish_error_inv].
  destruct mkdir as [[]|e2]; [|now apply finish_error_inv].
  cbn [exc_bind].
  case_bool_decide as Hgif.
  { pose proof (finish_done_inv jobId (out_url (cacheKey +:+ ".gif")) now payload
                  cacheKey s Hinv Hh) as Hdone.
    rewrite format_of_out_url_gif in Hdone. apply Hdone. left. auto. }
  case_bool_decide as Hpng.
  { pose proof (finish_done_inv jobId (out_url (cacheKey +:+ ".png")) now payload
                  cacheKey s Hinv Hh) as Hdone.
    rewrite format_of_out_url_png in Hdone. apply Hdone. right. auto. }
  destruct (inFlightByKey s !! cacheKey) as [p|] eqn:Hfl;
    [|now apply start_render_inv].
  apply (service_inv_next s);
    [exact Hinv|now apply extends_same|apply Hinv|auto| |auto].
  intros id t. cbn [tasks]. destruct (decide (jobId = id)) as [->|Hne].
  - rewrite lookup_insert_eq. intros [= <-]. right. split; [|exact Hh].
    destruct Hinv as (_ & Hin & _). exact (Hin _ _ Hfl).
  - rewrite lookup_insert_ne by done. auto.
Qed.

Lemma postJobs_inv body jobId now s :
  service_inv s -> service_inv (postJobs body jobId now s).2.
Proof.
  intros Hinv. unfold postJobs.
  destruct (validate _) as [[e|]|e]; cbn [snd]; try exact Hinv.
  assert (Hjob : forall (s' : system) id j,
            jobs s' = <[jobId := job_pending (request_payload body) now]> (jobs s) ->
            jobs s' !! id = Some j -> jobs s !! id = Some j \/ job_ok s' j).
  { intros s' id j ->. destruct (decide (jobId = id)) as [->|Hne].
    - rewrite lookup_insert_eq. intros [= <-]. right. unfold job_ok. cbn.
      split_and!; eauto.
    - rewrite lookup_insert_ne by done. auto. }
  destruct (ToString _) as [format|e]; cbn [snd];
    (apply (service_inv_next s);
       [exact Hinv|now apply extends_same|apply Hinv|auto|
       |intros id j; now apply Hjob]).
  - intros id t. cbn [tasks]. destruct (decide (jobId = id)) as [->|Hne].
    + rewrite lookup_insert_eq. intros [= <-]. now right.
    + rewrite lookup_insert_ne by done. auto.
  - cbn [tasks]. auto.
Qed.

Lemma step_inv e s s' : service_inv s -> step e s = Some s' -> service_inv s'.
Proof.
  intros Hinv Hstep. destruct e as [body jobId now|jobId now mkdir|p net opened
                                   |p written|jobId now|jobId]; simpl in Hstep.
  - destruct (jobs s !! jobId); [discriminate|]. injection Hstep as <-.
    now apply postJobs_inv.
  - destruct (tasks s !! jobId) as [[]|]; try discriminate. injection Hstep as <-.
    now apply run_task_inv.
  - eapply compose_render_inv; eauto.
  - eapply write_settled_inv; eauto.
  - unfold resume_task in Hstep.
    destruct (tasks s !! jobId) as [[|p payload wg key|p payload key]|] eqn:Ht;
      try discriminate;
      (assert (Htask : promise_for s key p /\ stableHashPayload payload = Ret key)
         by (destruct Hinv as (_ & _ & Htk & _); exact (Htk _ _ Ht)));
      destruct Htask as [Hfor Hh]; unfold promise_for in Hfor;
      destruct (promises s !! p) as [[r|r|r name content|url|m]|]; try discriminate.
    + destruct (String.eqb url ""); injection Hstep as <-.
      * now apply start_render_inv.
      * now apply finish_done_inv with key.
    + injection Hstep as <-. now apply start_render_inv.
    + injection Hstep as <-.
      apply finish_done_inv with key; [now apply delete_inFlight_inv|exact Hh|].
      exact Hfor.
    + injection Hstep as <-. now apply finish_error_inv.
  - now injection Hstep as <-.
Qed.

Lemma run_inv events s s' : service_inv s -> run events s = Some s' -> service_inv s'.
Proof.
  revert s. induction events as [|e events IH]; intros s Hinv; simpl.
  - now intros [= <-].
  - destruct (step e s) as [s1|] eqn:Hstep; [|discriminate]. simpl.
    apply IH. eapply step_inv; eauto.
Qed.

Lemma reachable_inv s : reachable s -> service_inv s.
Proof.
  intros [events Hrun]. eapply run_inv; [|exact Hrun].
  unfold service_inv, initial. cbn.
  split_and!; intros *; rewrite lookup_empty; try discriminate.
  intros [x Hx]. discriminate.
Qed.


(** X21. In every state the service can reach from an empty registry and
    an empty output directory, a record with the status done carries the
    URL of a file that exists in the output directory and is named after
    the fingerprint of the payload of the record, with the extension gif or
    png; the format of the record is that extension, and the record has a
    finishing time and no error message.  (The file exists from the moment
    a render opened it for writing.) *)
Theorem done_job_has_artifact (s : system) (id : string) (j : job) :
  reachable s -> jobs s !! id = Some j -> j_status j = SDone ->
  exists payload key ext,
    j_payload j = Some payload /\ stableHashPayload payload = Ret key /\
    (ext = "gif" \/ ext = "png") /\
    j_url j = Some (BASE_URL +:+ "/out/" +:+ key +:+ "." +:+ ext) /\
    key +:+ "." +:+ ext ∈ out s /\
    j_format j = Some ext /\
    j_error j = None /\ is_Some (j_finishedAt j).
Proof.
  intros Hreach Hj Hdone.
  destruct (reachable_inv s Hreach) as (_ & _ & _ & Hjobs).
  specialize (Hjobs id j Hj). unfold job_ok in Hjobs. rewrite Hdone in Hjobs.
  destruct Hjobs as (payload & key & url & Hp & Hh & Hurl & Hfile & Hfmt & Herr & Hfin).
  destruct Hfile as [[-> Hin]|[-> Hin]].
  - exists payload, key, "gif". split_and!; try done; [auto|].
    now rewrite Hfmt, format_of_out_url_gif.
  - exists payload, key, "png". split_and!; try done; [auto|].
    now rewrite Hfmt, format_of_out_url_png.
Qed.

(** X22. What a record holds, by status, in every state the service can
    reach: a pending record has its payload and neither URL, format, error
    nor finishing time; an error record has a message and a finishing time,
    and neither URL, format nor payload. *)
Theorem job_record_shape (s : system) (id : string) (j : job) :
  reachable s -> jobs s !! id = Some j ->
  (j_status j = SPending ->
   is_Some (j_payload j) /\ j_url j = None /\ j_format j = None /\
   j_error j = None /\ j_finishedAt j = None) /\
  (j_status j = SError ->
   is_Some (j_error j) /\ is_Some (j_finishedAt j) /\
   j_url j = None /\ j_format j = None /\ j_payload j = None).
Proof.
  intros Hreach Hj.
  destruct (reachable_inv s Hreach) as (_ & _ & _ & Hjobs).
  specialize (Hjobs id j Hj). unfold job_ok in Hjobs.
  split; intros Hst; rewrite Hst in Hjobs; tauto.
Qed.


(** X24. A job that found a render of its fingerprint in flight and
    waited for it is served by that render: once the promise is fulfilled,
    the URL is not empty, and the task marks the job done with that URL and
    creates no render promise of its own. *)
Theorem dedup_job_shares_render (s : system) (id : string) (p : nat)
    (payload : json) (wantsGif : bool) (key url : string) (now : Z) :
  reachable s ->
  tasks s !! id = Some (AwaitDedup p payload wantsGif key) ->
  promises s !! p = Some (Fulfilled url) ->
  url <> "" /\
  exists s' j',
    step (ResumeTask id now) s = Some s' /\
    jobs s' !! id = Some j' /\ j_status j' = SDone /\ j_url j' = Some url /\
    promises s' = promises s /\ nextPromise s' = nextPromise s /\
    tasks s' !! id = None.
Proof.
  intros Hreach Ht Hp.
  destruct (reachable_inv s Hreach) as (_ & _ & Htasks & _).
  destruct (Htasks _ _ Ht) as [Hfor _]. unfold promise_for in Hfor.
  rewrite Hp in Hfor.
  destruct (reachable_tasks_pending s Hreach _ _ Ht) as (j0 & Hj0 & _).
  assert (Hurl : url <> "").
  { destruct Hfor as [[-> _]|[-> _]]; unfold out_url; intros Heq;
      apply (f_equal String.length) in Heq; rewrite !length_append in Heq;
      simpl in Heq; lia. }
  split; [exact Hurl|].
  cbn [step]. unfold resume_task. rewrite Ht, Hp.
  destruct (String.eqb_spec url ""); [done|].
  unfold finish_done. rewrite Hj0.
  eexists _, _. split; [reflexivity|]. cbn. rewrite lookup_insert_eq, lookup_delete_eq.
  split_and!; reflexivity.
Qed.

(** X25. The in-flight table maps a fingerprint only to a promise of a
    render for that fingerprint: the promise exists; while it waits,
    composes or writes, its render carries that fingerprint, and the file
    it writes is named after it and exists; once fulfilled, its URL is that
    of a file named after the fingerprint, which exists. *)
Theorem inFlight_promise_for_key (s : system) (key : string) (p : nat) :
  reachable s -> inFlightByKey s !! key = Some p ->
  exists pr,
    promises s !! p = Some pr /\
    match pr with
    | Waiting r | Rendering r => r_cacheKey r = key
    | Writing r name _ =>
        r_cacheKey r = key /\
        (name = key +:+ ".gif" \/ name = key +:+ ".png") /\ name ∈ out s
    | Fulfilled url =>
        (url = BASE_URL +:+ "/out/" +:+ key +:+ ".gif" /\ key +:+ ".gif" ∈ out s) \/
        (url = BASE_URL +:+ "/out/" +:+ key +:+ ".png" /\ key +:+ ".png" ∈ out s)
    | Rejected _ => True
    end.
Proof.
  intros Hreach Hfl.
  destruct (reachable_inv s Hreach) as (_ & Hin & _).
  specialize (Hin key p Hfl). unfold promise_for in Hin.
  destruct (promises s !! p) as [pr|]; [|done]. exists pr. split; [reflexivity|].
  destruct pr as [r|r|r name content|url|m]; try exact Hin; try apply Hin.
  destruct Hin as ((Hk & _) & Hw & Hn). split; [exact Hk|]. split; [|exact Hn].
  destruct Hw as [[-> _]|[-> _]]; auto.
Qed.

End ServiceInvariant.

(** ** The creation time of a record *)

Section CreatedAt.
Context `{Runtime}.

Lemma created_kept_same s s' : jobs s' = jobs s -> created_kept s s'.
Proof. intros Heq id j Hj. exists j. now rewrite Heq. Qed.

Lemma set_job_created jobId jnew s :
  (forall j, jobs s !! jobId = Some j ->
     j_createdAt j <> 0 -> j_createdAt jnew = j_createdAt j) ->
  created_kept s (set_job jobId jnew s).
Proof.
  intros Hnew id j Hj. cbn [set_job jobs].
  destruct (decide (jobId = id)) as [->|Hne].
  - rewrite lookup_insert_eq. exists jnew. split; [reflexivity|]. now apply Hnew.
  - rewrite lookup_insert_ne by done. exists j. auto.
Qed.

Lemma finish_error_created jobId e now s :
  created_kept s (finish_error jobId e now s).
Proof.
  unfold finish_error. apply set_job_created. intros j Hj Hnz. rewrite Hj. cbn.
  now destruct (Z.eqb_spec (j_createdAt j) 0).
Qed.

Lemma finish_done_created jobId url format now payload s :
  created_kept s (finish_done jobId url format now payload s).
Proof.
  unfold finish_done. destruct (jobs s !! jobId) as [j0|] eqn:Hj0;
    [|apply finish_error_created].
  apply set_job_created. intros j Hj _. rewrite Hj0 in Hj. now injection Hj as <-.
Qed.

Lemma start_render_created jobId payload wantsGif cacheKey now s :
  created_kept s (start_render jobId payload wantsGif cacheKey now s).
Proof.
  unfold start_render. destruct (resolvedLayers_of _); [|apply finish_error_created].
  apply created_kept_same. cbn. apply acquire_jobs.
Qed.

Lemma step_created e s s' : step e s = Some s' -> created_kept s s'.
Proof.
  intros Hstep. destruct e as [body jobId now|jobId now mkdir|p net opened
                              |p written|jobId now|jobId]; simpl in Hstep.
  - destruct (jobs s !! jobId) eqn:Hfresh; [discriminate|]. injection Hstep as <-.
    unfold postJobs.
    destruct (validate _) as [[e|]|e]; cbn [snd]; try (now apply created_kept_same).
    destruct (ToString _); cbn [snd]; intros id j Hj; cbn [jobs]; exists j;
      rewrite lookup_insert_ne by congruence; auto.
  - destruct (tasks s !! jobId) as [[]|]; try discriminate. injection Hstep as <-.
    unfold run_task.
    destruct (jobs s !! jobId) as [[st u f er c fin [payload|]]|] eqn:Hj0;
      try apply finish_error_created.
    destruct (wantsGif_of payload (layersIn_of payload)) as [wantsGif|e0];
      [|apply finish_error_created].
    destruct (stableHashPayload payload) as [cacheKey|e1];
      [|apply finish_error_created].
    destruct mkdir as [[]|e2]; [|apply finish_error_created].
    cbn [exc_bind].
    case_bool_decide; [apply finish_done_created|].
    case_bool_decide; [apply finish_done_created|].
    destruct (inFlightByKey s !! cacheKey) as [p|];
      [now apply created_kept_same|apply start_render_created].
  - apply created_kept_same. now apply (compose_render_jobs p net opened).
  - apply created_kept_same. now apply (write_settled_jobs p written).
  - unfold resume_task in Hstep.
    destruct (tasks s !! jobId) as [[|p payload wg key|p payload key]|];
      try discriminate;
      destruct (promises s !! p) as [[r|r|r name content|url|m]|]; try discriminate.
    + destruct (String.eqb url ""); injection Hstep as <-;
        [apply start_render_created|apply finish_done_created].
    + injection Hstep as <-. apply start_render_created.
    + injection Hstep as <-.
      exact (finish_done_created jobId url (format_of_url url) now payload
               (delete_inFlight key s)).
    + injection Hstep as <-. apply finish_error_created.
  - injection Hstep as <-. now apply created_kept_same.
Qed.

(** X27. A record never leaves the registry, and its creation time, set
    by [POST /jobs] from the clock, is the one every later version of the
    record carries, whether the job ends done or in error (a creation time
    of zero apart, which the [catch] clause replaces by the current
    time). *)
Theorem job_createdAt_kept (events : list event) (s s' : system) (id : string) (j : job) :
  run events s = Some s' -> jobs s !! id = Some j ->
  exists j', jobs s' !! id = Some j' /\
    (j_createdAt j <> 0 -> j_createdAt j' = j_createdAt j).
Proof.
  revert s j. induction events as [|e events IH]; intros s j; simpl.
  - intros [= <-] Hj. exists j. auto.
  - destruct (step e s) as [s1|] eqn:Hstep; [|discriminate]. simpl.
    intros Hrun Hj.
    destruct (step_created e s s1 Hstep id j Hj) as (j1 & Hj1 & Hc1).
    destruct (IH s1 j1 Hrun Hj1) as (j' & Hj' & Hc').
    exists j'. split; [exact Hj'|]. intros Hnz.
    rewrite <- (Hc1 Hnz). apply Hc'. now rewrite (Hc1 Hnz).
Qed.

End CreatedAt.

(** ** A semaphore without permits *)

Section NoPermit.
Context `{Runtime}.
Hypothesis no_permit : lt_fraction 0 MAX_CONCURRENCY = false.

Lemma all_waiting_same s s' :
  promises s' = promises s -> activeRenders s' = activeRenders s ->
  all_waiting s -> all_waiting s'.
Proof. unfold all_waiting. intros -> ->. tauto. Qed.

Lemma finish_error_all_waiting jobId e now s :
  all_waiting s -> all_waiting (finish_error jobId e now s).
Proof. now apply all_waiting_same. Qed.

Lemma start_render_all_waiting jobId payload wantsGif cacheKey now s :
  all_waiting s -> all_waiting (start_render jobId payload wantsGif cacheKey now s).
Proof.
  intros Hinv. unfold start_render.
  destruct (resolvedLayers_of _); [|now apply finish_error_all_waiting].
  destruct Hinv as [Hact Hall]. unfold acquire. rewrite Hact, no_permit.
  split; [cbn [activeRenders]; reflexivity|]. cbn [promises]. intros p pr.
  destruct (decide (p = nextPromise s)) as [->|Hne].
  - rewrite lookup_insert_eq. intros [= <-]. eauto.
  - rewrite lookup_insert_ne by done. apply Hall.
Qed.

Lemma finish_done_all_waiting jobId url format now payload s :
  all_waiting s -> all_waiting (finish_done jobId url format now payload s).
Proof.
  unfold finish_done. destruct (jobs s !! jobId); [now apply all_waiting_same|].
  apply finish_error_all_waiting.
Qed.

Lemma step_all_waiting e s s' : all_waiting s -> step e s = Some s' -> all_waiting s'.
Proof.
  intros Hinv Hstep. destruct e as [body jobId now|jobId now mkdir|p net opened
                                   |p written|jobId now|jobId]; simpl in Hstep.
  - destruct (jobs s !! jobId); [discriminate|]. injection Hstep as <-.
    unfold postJobs. destruct (validate _) as [[e|]|e]; cbn [snd]; try exact Hinv.
    destruct (ToString _); cbn [snd]; now apply (all_waiting_same s).
  - destruct (tasks s !! jobId) as [[]|]; try discriminate. injection Hstep as <-.
    unfold run_task.
    destruct (jobs s !! jobId) as [[st u f er c fin [payload|]]|];
      try (now apply finish_error_all_waiting).
    destruct (wantsGif_of payload (layersIn_of payload)) as [wantsGif|e0];
      [|now apply finish_error_all_waiting].
    destruct (stableHashPayload payload) as [cacheKey|e1];
      [|now apply finish_error_all_waiting].
    destruct mkdir as [[]|e2]; [|now apply finish_error_all_waiting].
    cbn [exc_bind].
    case_bool_decide; [now apply finish_done_all_waiting|].
    case_bool_decide; [now apply finish_done_all_waiting|].
    destruct (inFlightByKey s !! cacheKey) as [p|];
      [now apply (all_waiting_same s)|now apply start_render_all_waiting].
  - unfold compose_render in Hstep. destruct Hinv as [_ Hall].
    destruct (promises s !! p) as [pr|] eqn:Hp; [|discriminate].
    destruct (Hall _ _ Hp) as [r ->]. discriminate.
  - unfold write_settled in Hstep. destruct Hinv as [_ Hall].
    destruct (promises s !! p) as [pr|] eqn:Hp; [|discriminate].
    destruct (Hall _ _ Hp) as [r ->]. discriminate.
  - unfold resume_task in Hstep. destruct Hinv as [Hact Hall].
    destruct (tasks s !! jobId) as [[|p payload wg key|p payload key]|];
      try discriminate;
      (destruct (promises s !! p) as [pr|] eqn:Hp; [|discriminate]);
      destruct (Hall _ _ Hp) as [r ->]; discriminate.
  - now injection Hstep as <-.
Qed.

Lemma run_all_waiting events s s' :
  all_waiting s -> run events s = Some s' -> all_waiting s'.
Proof.
  revert s. induction events as [|e events IH]; intros s Hinv; simpl.
  - now intros [= <-].
  - destruct (step e s) as [s1|] eqn:Hstep; [|discriminate]. simpl.
    apply IH. eapply step_all_waiting; eauto.
Qed.

(** X30. When [MAX_CONCURRENCY] is zero or negative, or not a number, so
    that [0 < MAX_CONCURRENCY] is false, [acquire()] never gives a permit:
    in every state the service can reach no render is in progress and every
    render promise waits, so that no render ever composes or settles and
    the task of a job that awaits its render is never resumed.  Such a job
    stays pending. *)
Theorem no_permit_no_render (s : system) :
  reachable s ->
  activeRenders s = 0 /\
  (forall p pr, promises s !! p = Some pr -> exists r, pr = Waiting r) /\
  (forall p net opened, step (ComposeRender p net opened) s = None) /\
  (forall p written, step (WriteSettled p written) s = None) /\
  (forall id now t, tasks s !! id = Some t -> t <> Spawned ->
     step (ResumeTask id now) s = None /\
     exists j, jobs s !! id = Some j /\ j_status j = SPending).
Proof.
  intros Hreach. pose proof Hreach as [events Hrun].
  assert (Hinit : all_waiting initial).
  { split; [reflexivity|]. intros p pr. unfold initial. cbn.
    rewrite lookup_empty. discriminate. }
  destruct (run_all_waiting events initial s Hinit Hrun) as [Hact Hall].
  split; [exact Hact|]. split; [exact Hall|]. split; [|split].
  - intros p net opened. cbn [step]. unfold compose_render.
    destruct (promises s !! p) as [pr|] eqn:Hp; [|reflexivity].
    now destruct (Hall _ _ Hp) as [r ->].
  - intros p written. cbn [step]. unfold write_settled.
    destruct (promises s !! p) as [pr|] eqn:Hp; [|reflexivity].
    now destruct (Hall _ _ Hp) as [r ->].
  - intros id now t Ht Hspawned. split.
    + cbn [step]. unfold resume_task. rewrite Ht.
      destruct t as [|p payload wg key|p payload key]; [done| |];
        (destruct (promises s !! p) as [pr|] eqn:Hp; [|reflexivity]);
        now destruct (Hall _ _ Hp) as [r ->].
    + exact (reachable_tasks_pending s Hreach id t Ht).
Qed.

End NoPermit.

Lemma no_permit_no_render_witness :
  lt_fraction 0 (@MAX_CONCURRENCY stalled_runtime) = false /\
  @reachable stalled_runtime example_stalled_state /\
  activeRenders example_stalled_state = 0 /\
  waitQueue example_stalled_state = [0%nat] /\
  (forall p net opened,
     @step stalled_runtime (ComposeRender p net opened) example_stalled_state = None) /\
  (forall p written,
     @step stalled_runtime (WriteSettled p written) example_stalled_state = None).
Proof.
  assert (Hmax : lt_fraction 0 (@MAX_CONCURRENCY stalled_runtime) = false)
    by reflexivity.
  assert (Hreach : @reachable stalled_runtime example_stalled_state)
    by (apply run_default_reachable; vm_compute; discriminate).
  assert (Hq : waitQueue example_stalled_state = [0%nat]) by (vm_compute; reflexivity).
  split; [exact Hmax|]. split; [exact Hreach|].
  destruct (@no_permit_no_render stalled_runtime Hmax example_stalled_state Hreach)
    as (Hact & _ & Hcompose & Hwrite & _).
  split; [exact Hact|]. split; [exact Hq|]. split; [exact Hcompose|exact Hwrite].
Defined.

(** ** The render task and the fallback to PNG *)

Section RenderFallback.
Context `{Runtime}.

Lemma returns_of_throws {X Y} (m : exc X) (m' : exc Y) (x : X) :
  m = Ret x -> throws m' = throws m -> exists y, m' = Ret y.
Proof. intros -> Heq. now apply throws_false. Qed.

(** The settings that [composeGif] reads are converted as
    [stableHashPayload] converts them: when the fingerprint has been
    computed, reading the settings does not throw. *)
Lemma gifSettings_returns (go : jsval) n :
  normalize_gifOptions go = Ret n ->
  exists settings, gifSettings (or_else go (JObj [])) = Ret settings.
Proof.
  destruct go as [g|]; [|cbn; eauto]. cbn [normalize_gifOptions or_else].
  destruct (truthy g) eqn:Ht; [|cbn; eauto].
  destruct (ToNumber (or_else (prop "delayMs" g) (JNum 0))) as [d0|] eqn:Hd;
    [|discriminate].
  cbn [exc_bind].
  destruct (match g with JStr _ => Ret NaN | _ => _ end) as [repeat|] eqn:Hr;
    [|discriminate].
  cbn [exc_bind].
  destruct (ToNumber (or_else (prop "quality" g) (JNum 0))) as [q0|] eqn:Hq;
    [|discriminate].
  cbn [exc_bind].
  destruct (ToString (or_else (prop "transparentColorHex" g) (JStr ""))) as [t0|] eqn:Htc;
    [|discriminate].
  cbn [exc_bind].
  destruct (ToString (or_else (prop "backgroundColorHex" g) (JStr ""))) as [b0|] eqn:Hbg;
    [|discriminate].
  intros _. unfold gifSettings. rewrite Ht, Hr, Hbg.
  destruct (returns_of_throws _ (Number_or (prop "delayMs" g) (Fin DEFAULT_GIF_DELAY_MS))
              _ Hd) as [delayMs ->].
  { rewrite throws_Number_or, throws_ToNumber. now rewrite unprintable_or_else. }
  destruct (returns_of_throws _ (ToNumber (or_else (prop "quality" g) (JNum 10)))
              _ Hq) as [quality ->].
  { rewrite !throws_ToNumber. now rewrite !unprintable_or_else. }
  destruct (returns_of_throws _
              (ToString (or_else (prop "transparentColorHex" g) (JStr "#ff00ff")))
              _ Htc) as [transparentHex ->].
  { rewrite !throws_ToString. now rewrite !unprintable_or_else. }
  cbn [exc_bind]. eauto.
Qed.

Lemma stableHashPayload_gifSettings payload key :
  stableHashPayload payload = Ret key ->
  exists settings,
    gifSettings (or_else (prop "gifOptions" payload) (JObj [])) = Ret settings.
Proof.
  unfold stableHashPayload. destruct (normalize payload) as [n|] eqn:Hn; [|discriminate].
  intros _. unfold normalize in Hn.
  destruct payload; try discriminate;
    (destruct (match or_else _ (JArr []) with JArr _ => _ | _ => _ end);
       [|discriminate]);
    cbn [exc_bind] in Hn;
    (destruct (normalize_gifOptions _) as [g|] eqn:Hg; [|discriminate]);
    eapply gifSettings_returns; eauto.
Qed.

Section OneNetwork.
Variable net : Network.

(** When no animated layer keeps a frame, the body of the render promise
    comes to writing a PNG, whichever branch it takes. *)
Lemma render_compose_png r :
  1 <= FRAME_FETCH_CONCURRENCY -> 1 <= STATIC_FETCH_CONCURRENCY ->
  render_for (r_cacheKey r) r ->
  maxFrameCount (omap (resolveLayer net (r_width r) (r_height r)) (r_layers r)) = 0%nat ->
  exists canvas,
    render_compose net r = Some (Ret (r_cacheKey r +:+ ".png", PngBuffer canvas)).
Proof.
  intros Hframe Hstatic (_ & Hhash & Hres) Hzero. unfold render_compose.
  rewrite (hasFrames_resolved _ _ Hres).
  destruct (r_wantsGif r && _).
  - destruct (stableHashPayload_gifSettings _ _ Hhash) as [settings Hs].
    unfold composeGif. rewrite Hs. rewrite decodeLayers_resolveLayer by done.
    cbn [mbind option_bind app]. rewrite Hzero. cbn [Nat.max Nat.eqb].
    rewrite composePng_settles by done. cbn [mbind option_bind c_format c_buffer].
    eexists. reflexivity.
  - rewrite composePng_settles by done. cbn [mbind option_bind]. eexists. reflexivity.
Qed.

(** C3, amended.  With both fetch limits at least one: when no animated
    layer keeps a decoded frame, [composeGif] resolves with the format png
    and the buffer [composePng] gives for the same layers; and a render in
    that situation, such as one for a job that asked for a GIF, writes the
    file named after the fingerprint with the extension png, after which
    the task marks the job done with the format png. *)
Theorem composeGif_fallback_png (r : render) (options : json) (settings : GifSettings) :
  1 <= FRAME_FETCH_CONCURRENCY -> 1 <= STATIC_FETCH_CONCURRENCY ->
  gifSettings options = Ret settings ->
  maxFrameCount (omap (resolveLayer net (r_width r) (r_height r)) (r_layers r)) = 0%nat ->
  (exists canvas,
     composePng net (r_width r) (r_height r) (r_layers r)
       (JStr (s_backgroundHex settings)) = Some canvas /\
     composeGif net (r_width r) (r_height r) (r_layers r) options
       = Some (Ret {| c_format := "png"; c_buffer := PngBuffer canvas |})) /\
  (forall (s : system) (p : nat) (jobId : string) (payload : json) (now : Z),
     reachable s ->
     promises s !! p = Some (Rendering r) ->
     tasks s !! jobId = Some (AwaitRender p payload (r_cacheKey r)) ->
     exists s1 s2 s3 canvas,
       step (ComposeRender p net (Ret tt)) s = Some s1 /\
       promises s1 !! p
         = Some (Writing r (r_cacheKey r +:+ ".png") (PngBuffer canvas)) /\
       r_cacheKey r +:+ ".png" ∈ out s1 /\
       step (WriteSettled p (Ret tt)) s1 = Some s2 /\
       step (ResumeTask jobId now) s2 = Some s3 /\
       exists j, jobs s3 !! jobId = Some j /\
         j_status j = SDone /\ j_format j = Some "png" /\
         j_url j = Some (BASE_URL +:+ "/out/" +:+ r_cacheKey r +:+ ".png")).
Proof.
  intros Hframe Hstatic Hsettings Hzero. split.
  - eexists. split; [now apply composePng_settles|].
    unfold composeGif. rewrite Hsettings, decodeLayers_resolveLayer by done.
    cbn [mbind option_bind app]. rewrite Hzero. cbn [Nat.max Nat.eqb].
    rewrite composePng_settles by done. reflexivity.
  - intros s p jobId payload now Hreach Hp Ht.
    destruct (reachable_tasks_pending s Hreach _ _ Ht) as (j0 & Hj0 & _).
    assert (Hfor : render_for (r_cacheKey r) r).
    { destruct (reachable_inv s Hreach) as (_ & _ & Htasks & _).
      destruct (Htasks _ _ Ht) as [Hfor _]. unfold promise_for in Hfor.
      now rewrite Hp in Hfor. }
    destruct (render_compose_png r Hframe Hstatic Hfor Hzero) as [canvas Hbody].
    cbn [step]. unfold compose_render. rewrite Hp, Hbody. cbn [mbind option_bind].
    eexists _, _, _, canvas. split; [reflexivity|].
    split; [cbn [open_file set_promise promises]; apply lookup_insert_eq|].
    split; [cbn [open_file out]; set_solver|].
    unfold write_settled. cbn [open_file set_promise promises].
    rewrite lookup_insert_eq. split; [reflexivity|].
    unfold resume_task. rewrite release_tasks. cbn [set_promise open_file tasks].
    rewrite Ht.
    erewrite release_settled;
      [|cbn [set_promise promises]; apply lookup_insert_eq|discriminate].
    split; [reflexivity|].
    unfold finish_done. cbn [delete_inFlight jobs]. rewrite release_jobs.
    cbn [set_promise open_file jobs]. rewrite Hj0.
    eexists. split; [apply lookup_insert_eq|].
    cbn [job_done j_status j_format j_url]. split; [reflexivity|]. split; [|reflexivity].
    f_equal. rewrite <- !append_assoc. apply format_of_url_png.
Qed.

End OneNetwork.
End RenderFallback.

Lemma composeGif_fallback_png_witness :
  1 <= @FRAME_FETCH_CONCURRENCY example_runtime /\
  1 <= @STATIC_FETCH_CONCURRENCY example_runtime /\
  maxFrameCount (omap (resolveLayer offline_net (r_width example_render)
                         (r_height example_render)) (r_layers example_render)) = 0%nat /\
  (exists canvas,
     @composeGif example_runtime offline_net (r_width example_render)
       (r_height example_render) (r_layers example_render) (JObj [])
       = Some (Ret {| c_format := "png"; c_buffer := PngBuffer canvas |})) /\
  exists s1 s2 s3 canvas,
    @step example_runtime (ComposeRender 0 offline_net (Ret tt)) example_rendering_state
      = Some s1 /\
    promises s1 !! 0%nat
      = Some (Writing example_render (r_cacheKey example_render +:+ ".png")
                (PngBuffer canvas)) /\
    r_cacheKey example_render +:+ ".png" ∈ out s1 /\
    @step example_runtime (WriteSettled 0 (Ret tt)) s1 = Some s2 /\
    @step example_runtime (ResumeTask "job-1" 1002) s2 = Some s3 /\
    exists j, jobs s3 !! "job-1" = Some j /\
      j_status j = SDone /\ j_format j = Some "png" /\
      j_url j = Some (@BASE_URL example_runtime +:+ "/out/"
                      +:+ r_cacheKey example_render +:+ ".png").
Proof.
  assert (Hf : 1 <= @FRAME_FETCH_CONCURRENCY example_runtime) by (vm_compute; discriminate).
  assert (Hs : 1 <= @STATIC_FETCH_CONCURRENCY example_runtime) by (vm_compute; discriminate).
  assert (Hzero : maxFrameCount
            (omap (resolveLayer offline_net (r_width example_render)
                     (r_height example_render)) (r_layers example_render)) = 0%nat)
    by (vm_compute; reflexivity).
  assert (Hreach : @reachable example_runtime example_rendering_state)
    by (apply default_run_reachable; vm_compute; discriminate).
  assert (Hp : promises example_rendering_state !! 0%nat = Some (Rendering example_render))
    by (vm_compute; reflexivity).
  assert (Ht : tasks example_rendering_state !! "job-1"
               = Some (AwaitRender 0 example_gif_payload (r_cacheKey example_render)))
    by (vm_compute; reflexivity).
  split; [exact Hf|]. split; [exact Hs|]. split; [exact Hzero|].
  destruct (@composeGif_fallback_png example_runtime offline_net example_render
              (JObj []) _ Hf Hs eq_refl Hzero) as [(canvas & _ & Hcompose) Htask].
  split; [exists canvas; exact Hcompose|].
  exact (Htask example_rendering_state 0%nat "job-1" example_gif_payload 1002
           Hreach Hp Ht).
Defined.

(** C3 as stated fails when the limit of the bounded map over the static
    layers is zero (RENDER_STATIC_FETCH_CONCURRENCY=0).  The example job
    asks for a GIF; on any network on which none of its frames can be
    loaded, the fallback calls [composePng], which starts no fetch and
    never settles: [composeGif] returns nothing, the render never comes to
    its end, and the job stays pending. *)
Lemma composeGif_fallback_never_settles :
  @STATIC_FETCH_CONCURRENCY static_zero_runtime = 0 /\
  @reachable static_zero_runtime example_static_zero_state /\
  promises example_static_zero_state !! 0%nat = Some (Rendering example_render) /\
  tasks example_static_zero_state !! "job-1"
    = Some (AwaitRender 0 example_gif_payload example_cacheKey) /\
  j_status <$> jobs example_static_zero_state !! "job-1" = Some SPending /\
  maxFrameCount (omap (resolveLayer offline_net (r_width example_render)
                         (r_height example_render)) (r_layers example_render)) = 0%nat /\
  forall net : Network,
    maxFrameCount (omap (resolveLayer net (r_width example_render)
                           (r_height example_render)) (r_layers example_render)) = 0%nat ->
    @composeGif static_zero_runtime net (r_width example_render)
      (r_height example_render) (r_layers example_render)
      (or_else (prop "gifOptions" example_gif_payload) (JObj [])) = None /\
    forall opened,
      @step static_zero_runtime (ComposeRender 0 net opened) example_static_zero_state
      = None.
Proof.
  assert (Hreach : @reachable static_zero_runtime example_static_zero_state)
    by (apply run_default_reachable; vm_compute; discriminate).
  assert (Hp : promises example_static_zero_state !! 0%nat
               = Some (Rendering example_render)) by (vm_compute; reflexivity).
  assert (Ht : tasks example_static_zero_state !! "job-1"
               = Some (AwaitRender 0 example_gif_payload example_cacheKey))
    by (vm_compute; reflexivity).
  assert (Hj : j_status <$> jobs example_static_zero_state !! "job-1" = Some SPending)
    by (vm_compute; reflexivity).
  split; [reflexivity|]. split; [exact Hreach|]. split; [exact Hp|].
  split; [exact Ht|]. split; [exact Hj|]. split; [vm_compute; reflexivity|].
  intros net Hzero.
  assert (Hsettings : exists settings,
            @gifSettings static_zero_runtime
              (or_else (prop "gifOptions" example_gif_payload) (JObj [])) = Ret settings)
    by (eexists; vm_compute; reflexivity).
  destruct Hsettings as [settings Hsettings].
  assert (Hlayers : r_layers example_render <> []) by (vm_compute; discriminate).
  assert (Hgif : @composeGif static_zero_runtime net (r_width example_render)
                   (r_height example_render) (r_layers example_render)
                   (or_else (prop "gifOptions" example_gif_payload) (JObj [])) = None).
  { unfold composeGif. rewrite Hsettings.
    rewrite (@decodeLayers_resolveLayer static_zero_runtime)
      by (vm_compute; discriminate).
    cbn [mbind option_bind app]. rewrite Hzero. cbn [Nat.max Nat.eqb].
    rewrite (@composePng_cases static_zero_runtime).
    rewrite bool_decide_eq_false_2; [reflexivity|].
    intros [Hlimit|Hnil]; [vm_compute in Hlimit; congruence|congruence]. }
  split; [exact Hgif|].
  intros opened. cbn [step]. unfold compose_render. rewrite Hp.
  assert (Hhas : hasFrames_of (r_layers example_render) = Ret true)
    by (vm_compute; reflexivity).
  unfold render_compose. rewrite Hhas.
  change (r_wantsGif example_render && true) with true. cbn iota.
  change (r_payload example_render) with example_gif_payload.
  rewrite Hgif. reflexivity.
Qed.

(** ** The limits of the validation bound the work of a render *)

Section RenderLimits.
Context `{Runtime}.
Variable net : Network.
Variables width height : json.













End RenderLimits.


(** ** The properties above on the examples *)

Lemma done_job_has_artifact_witness :
  @reachable example_runtime example_done_state /\
  j_status <$> jobs example_done_state !! "job-1" = Some SDone /\
  exists j key ext,
    jobs example_done_state !! "job-1" = Some j /\
    j_url j = Some (@BASE_URL example_runtime +:+ "/out/" +:+ key +:+ "." +:+ ext) /\
    key +:+ "." +:+ ext ∈ out example_done_state /\
    j_format j = Some ext.
Proof.
  assert (Hreach : @reachable example_runtime example_done_state)
    by (apply default_run_reachable; vm_compute; discriminate).
  assert (Hst : j_status <$> jobs example_done_state !! "job-1" = Some SDone)
    by (vm_compute; reflexivity).
  split; [exact Hreach|]. split; [exact Hst|].
  destruct (jobs example_done_state !! "job-1") as [j|] eqn:Hj; [|discriminate Hst].
  injection Hst as Hst.
  destruct (@done_job_has_artifact example_runtime example_done_state "job-1" j
              Hreach Hj Hst) as (payload & key & ext & _ & _ & _ & Hurl & Hout & Hfmt & _).
  exists j, key, ext.
  split; [exact eq_refl|]. split; [exact Hurl|]. split; [exact Hout|exact Hfmt].
Defined.

(** The record of a done job says that the file exists, not that it is
    complete.  The write of the file of the first job fails, which leaves
    the file behind, and the job ends in error; the same payload submitted
    again finds the file and is marked done with its URL. *)
Example done_job_on_failed_write :
  promises example_stale_file_state !! 0%nat
    = Some (Rejected "ENOSPC: no space left on device, write") /\
  j_status <$> jobs example_stale_file_state !! "job-1" = Some SError /\
  j_status <$> jobs example_stale_file_state !! "job-2" = Some SDone /\
  jobs example_stale_file_state !! "job-2" ≫= j_url
    = Some (@BASE_URL example_runtime +:+ "/out/" +:+ example_cacheKey +:+ ".gif") /\
  nextPromise example_stale_file_state = 1%nat.
Proof. split_and!; vm_compute; reflexivity. Qed.

(** Nor does it say that the file is no longer written: the same payload
    submitted while the first render writes its file finds the file and is
    marked done, the first job still pending. *)
Example done_job_while_writing :
  (exists content,
     promises example_early_done_state !! 0%nat
       = Some (Writing example_render (example_cacheKey +:+ ".gif") content)) /\
  j_status <$> jobs example_early_done_state !! "job-1" = Some SPending /\
  j_status <$> jobs example_early_done_state !! "job-2" = Some SDone /\
  jobs example_early_done_state !! "job-2" ≫= j_url
    = Some (@BASE_URL example_runtime +:+ "/out/" +:+ example_cacheKey +:+ ".gif").
Proof.
  split; [eexists; vm_compute; reflexivity|]. split_and!; vm_compute; reflexivity.
Qed.

Lemma job_record_shape_witness :
  @reachable example_runtime example_rendering_state /\
  j_status <$> jobs example_rendering_state !! "job-1" = Some SPending /\
  exists j,
    jobs example_rendering_state !! "job-1" = Some j /\
    is_Some (j_payload j) /\ j_url j = None /\ j_finishedAt j = None.
Proof.
  assert (Hreach : @reachable example_runtime example_rendering_state)
    by (apply default_run_reachable; vm_compute; discriminate).
  assert (Hst : j_status <$> jobs example_rendering_state !! "job-1" = Some SPending)
    by (vm_compute; reflexivity).
  split; [exact Hreach|]. split; [exact Hst|].
  destruct (jobs example_rendering_state !! "job-1") as [j|] eqn:Hj; [|discriminate Hst].
  injection Hst as Hst.
  destruct (proj1 (@job_record_shape example_runtime example_rendering_state "job-1" j
                     Hreach Hj) Hst) as (Hp & Hu & _ & _ & Hfin).
  exists j. split; [exact eq_refl|]. split; [exact Hp|]. split; [exact Hu|exact Hfin].
Defined.


Lemma dedup_job_shares_render_witness :
  @reachable example_runtime example_dedup_state /\
  exists url s' j',
    promises example_dedup_state !! 0%nat = Some (Fulfilled url) /\
    @step example_runtime (ResumeTask "job-2" 1003) example_dedup_state = Some s' /\
    jobs s' !! "job-2" = Some j' /\ j_status j' = SDone /\ j_url j' = Some url /\
    nextPromise s' = nextPromise example_dedup_state.
Proof.
  assert (Hreach : @reachable example_runtime example_dedup_state)
    by (apply default_run_reachable; vm_compute; discriminate).
  split; [exact Hreach|].
  assert (Ht : tasks example_dedup_state !! "job-2"
               = Some (AwaitDedup 0 example_gif_payload_again true example_cacheKey))
    by (vm_compute; reflexivity).
  assert (Hp : exists url, promises example_dedup_state !! 0%nat = Some (Fulfilled url))
    by (eexists; vm_compute; reflexivity).
  destruct Hp as [url Hp].
  destruct (@dedup_job_shares_render example_runtime example_dedup_state "job-2" 0
              example_gif_payload_again true example_cacheKey url 1003 Hreach Ht Hp)
    as (_ & s' & j' & Hstep & Hj' & Hdone & Hurl & _ & Hnext & _).
  exists url, s', j'.
  split; [exact Hp|]. split; [exact Hstep|]. split; [exact Hj'|].
  split; [exact Hdone|]. split; [exact Hurl|exact Hnext].
Defined.

Lemma inFlight_promise_for_key_witness :
  @reachable example_runtime example_rendering_state /\
  inFlightByKey example_rendering_state !! example_cacheKey = Some 0%nat /\
  exists pr, promises example_rendering_state !! 0%nat = Some pr.
Proof.
  assert (Hreach : @reachable example_runtime example_rendering_state)
    by (apply default_run_reachable; vm_compute; discriminate).
  assert (Hfl : inFlightByKey example_rendering_state !! example_cacheKey = Some 0%nat)
    by (vm_compute; reflexivity).
  split; [exact Hreach|]. split; [exact Hfl|].
  destruct (@inFlight_promise_for_key example_runtime example_rendering_state
              example_cacheKey 0%nat Hreach Hfl) as (pr & Hpr & _).
  exists pr. exact Hpr.
Defined.

Lemma release_wakes_first_waiter_witness :
  @reachable single_runtime example_queued_state /\
  waitQueue example_queued_state = [1%nat] /\
  @write_settled single_runtime 0 (Ret tt) example_queued_state
    = Some example_handoff_state /\
  (exists r, promises example_queued_state !! 1%nat = Some (Waiting r) /\
             promises example_handoff_state !! 1%nat = Some (Rendering r)) /\
  waitQueue example_handoff_state = [] /\
  activeRenders example_handoff_state = activeRenders example_queued_state.
Proof.
  assert (Hreach : @reachable single_runtime example_queued_state)
    by (apply run_default_reachable; vm_compute; discriminate).
  assert (Hq : waitQueue example_queued_state = [1%nat])
    by (vm_compute; reflexivity).
  assert (Hs : @write_settled single_runtime 0 (Ret tt) example_queued_state
               = Some example_handoff_state)
    by (apply default_Some; vm_compute; discriminate).
  split; [exact Hreach|]. split; [exact Hq|]. split; [exact Hs|].
  exact (@release_wakes_first_waiter single_runtime example_queued_state
           example_handoff_state 0%nat example_net (Ret tt) (Ret tt) 1%nat []
           Hreach Hq (or_introl Hs)).
Defined.

Lemma job_createdAt_kept_witness :
  @run example_runtime
    [ComposeRender 0 example_net (Ret tt); WriteSettled 0 (Ret tt);
     ResumeTask "job-1" 1002]
    example_rendering_state = Some example_resumed_state /\
  exists j j',
    jobs example_rendering_state !! "job-1" = Some j /\
    jobs example_resumed_state !! "job-1" = Some j' /\
    j_createdAt j' = j_createdAt j.
Proof.
  assert (Hrun : @run example_runtime
                   [ComposeRender 0 example_net (Ret tt); WriteSettled 0 (Ret tt);
                    ResumeTask "job-1" 1002]
                   example_rendering_state = Some example_resumed_state)
    by (apply default_Some; vm_compute; discriminate).
  split; [exact Hrun|].
  assert (Hc : j_createdAt <$> jobs example_rendering_state !! "job-1" = Some 1000)
    by (vm_compute; reflexivity).
  destruct (jobs example_rendering_state !! "job-1") as [j|] eqn:Hj; [|discriminate Hc].
  injection Hc as Hc.
  destruct (@job_createdAt_kept example_runtime _ _ _ "job-1" j Hrun Hj)
    as (j' & Hj' & Hkept).
  exists j, j'. split; [exact eq_refl|]. split; [exact Hj'|].
  apply Hkept. rewrite Hc. discriminate.
Defined.
